(** * fetch_and_build.py: the Chess960 opening-book curation pipeline

    A shallow embedding of [src/fetch_and_build.py] and the properties its
    specification states about eligibility ([is_good_game]), trimming
    ([trim_game]) and the deduplicating, grouping driver ([main]).

    A Python [str] is modelled as a [string]: ASCII text as itself, other
    text by its UTF-8 bytes.  The built-ins that look inside the characters
    ([str.lower], [int], [str.strip]) are modelled as Python has them on
    ASCII text, and the theorems that depend on what they do to a text
    take that text to be ASCII ([is_ascii]).  Python exceptions are modelled
    by the [result] type, insertion-ordered [dict]s by association lists,
    the [set] of seen keys by a [gset].  The python-chess library and the
    network are collaborators of the program: they appear as the interface
    [Runtime] and as the argument [export_games] of [main]. *)

From Stdlib Require Import ZArith String Ascii List Bool Lia.
From stdpp Require Import base decidable option list strings gmap pretty.

Local Open Scope string_scope.
Local Open Scope list_scope.

(** ** Exceptions *)

(** The exception classes that the program distinguishes.  [OtherError]
    stands for every subclass of [Exception] that is neither a [KeyError]
    nor a [ValueError] (for instance what [requests] raises). *)
Inductive exn : Set :=
| KeyError
| ValueError
| OtherError.

Inductive result (A : Type) : Type :=
| Ok (a : A)
| Raise (e : exn).
Arguments Ok {A} a.
Arguments Raise {A} e.

#[global] Instance exn_eq_dec : EqDecision exn.
Proof. solve_decision. Defined.

#[global] Instance result_eq_dec {A} `{EqDecision A} : EqDecision (result A).
Proof. solve_decision. Defined.

#[global] Instance result_ret : MRet result := fun _ a => Ok a.
#[global] Instance result_bind : MBind result := fun _ _ f m =>
  match m with
  | Ok a => f a
  | Raise e => Raise e
  end.

(** [for x in xs: st = body(st, x)] where the body may raise. *)
Fixpoint for_each {S X : Type} (body : S → X → result S) (xs : list X) (st : S)
  : result S :=
  match xs with
  | [] => Ok st
  | x :: rest => st' ← body st x; for_each body rest st'
  end.

(** ** Python built-ins on strings *)

Module Py.

(** [str.lower].  Characters outside ASCII are left as they are; none of
    them lowers to a string of ASCII letters without [k], so comparing the
    result with [chess960] or a speed name is not affected. *)
Definition lower_char (c : ascii) : ascii :=
  let n := nat_of_ascii c in
  if (65 <=? n)%nat && (n <=? 90)%nat then ascii_of_nat (n + 32) else c.

Fixpoint lower (s : string) : string :=
  match s with
  | EmptyString => EmptyString
  | String c r => String (lower_char c) (lower r)
  end.

(** C's [isspace]: tab, line feed, vertical tab, form feed, carriage
    return and space. *)
Definition is_space (c : ascii) : bool :=
  let n := nat_of_ascii c in
  ((9 <=? n)%nat && (n <=? 13)%nat) || (n =? 32)%nat.

Definition digit_value (c : ascii) : option Z :=
  let n := nat_of_ascii c in
  if (48 <=? n)%nat && (n <=? 57)%nat then Some (Z.of_nat n - 48)%Z else None.

Fixpoint skip_spaces (s : string) : string :=
  match s with
  | String c r => if is_space c then skip_spaces r else s
  | EmptyString => EmptyString
  end.

(** The digit scan of [int(str)] in base ten: decimal digits, single
    underscores allowed between digits only.  [prev_us] records that the
    previous character was an underscore.  Returns the value read, the
    number of digits and the unread rest; [None] on a doubled or trailing
    underscore. *)
Fixpoint scan_digits (s : string) (prev_us : bool) (acc : Z) (digits : N)
  : option (Z * N * string) :=
  match s with
  | String c r =>
      match digit_value c with
      | Some d => scan_digits r false (10 * acc + d)%Z (digits + 1)%N
      | None =>
          if Ascii.eqb c "_"%char
          then (if prev_us then None else scan_digits r true acc digits)
          else (if prev_us then None else Some (acc, digits, s))
      end
  | EmptyString => if prev_us then None else Some (acc, digits, EmptyString)
  end.

(** More digits than the interpreter allows.  [limit] is
    [sys.get_int_max_str_digits()]: 0 switches the limit off (and is what
    interpreters without the limit behave like), 4300 is the default of the
    interpreters that have it; numbers of up to 640 digits are never
    refused. *)
Definition too_many_digits (limit digits : N) : bool :=
  (640 <? digits)%N && (0 <? limit)%N && (limit <? digits)%N.

Section Int.
Variable int_max_str_digits : N.

(** [int(s)] for a [str] argument, as CPython reads ASCII text: surrounding
    white space, an optional sign, then the digits; anything else raises
    [ValueError].  (In text that is not ASCII, [int] also accepts the white
    space and the decimal digits of Unicode; these are not part of this
    model, which is used for ASCII text only.) *)
Definition int (s : string) : result Z :=
  let s1 := skip_spaces s in
  let '(negative, s2) :=
    match s1 with
    | String "+" r => (false, r)
    | String "-" r => (true, r)
    | _ => (false, s1)
    end in
  match s2 with
  | String "_" _ => Raise ValueError
  | _ =>
      match scan_digits s2 false 0%Z 0%N with
      | None => Raise ValueError
      | Some (v, digits, rest) =>
          if (digits =? 0)%N then Raise ValueError
          else if too_many_digits int_max_str_digits digits
          then Raise ValueError
          else
            match skip_spaces rest with
            | EmptyString => Ok (if negative then (- v)%Z else v)
            | String _ _ => Raise ValueError
            end
      end
  end.
End Int.

(** ** Insertion-ordered dictionaries with string keys *)

Abbreviation dict V := (list (string * V)) (only parsing).

Fixpoint get {V} (d : dict V) (k : string) : option V :=
  match d with
  | [] => None
  | (k', v) :: r => if String.eqb k' k then Some v else get r k
  end.

(** [d[k] = v]: an existing key keeps its place, a new one goes last. *)
Fixpoint set {V} (d : dict V) (k : string) (v : V) : dict V :=
  match d with
  | [] => [(k, v)]
  | (k', v') :: r =>
      if String.eqb k' k then (k', v) :: r else (k', v') :: set r k v
  end.

Definition keys {V} (d : dict V) : list string := map fst d.

End Py.

(** ** chess.pgn.Headers *)

Definition TAG_ROSTER : list string :=
  ["Event"; "Site"; "Date"; "Round"; "White"; "Black"; "Result"].

Definition in_list (x : string) (l : list string) : bool :=
  existsb (String.eqb x) l.
Arguments in_list : simpl never.

(** The seven-tag roster is kept apart from the other tags. *)
Record Headers : Type := mkHeaders {
  tag_roster : Py.dict string;
  others : Py.dict string
}.

(** [Headers()] as [chess.pgn.Game()] builds it. *)
Definition default_headers : Headers :=
  {| tag_roster := [("Event", "?"); ("Site", "?"); ("Date", "????.??.??");
                    ("Round", "?"); ("White", "?"); ("Black", "?");
                    ("Result", "*")];
     others := [] |}.

(** [headers[key]] *)
Definition headers_getitem (h : Headers) (key : string) : result string :=
  let d := if in_list key TAG_ROSTER then tag_roster h else others h in
  match Py.get d key with
  | Some v => Ok v
  | None => Raise KeyError
  end.

(** [headers.get(key)]: [None] when the tag is absent. *)
Definition headers_get (h : Headers) (key : string) : option string :=
  match headers_getitem h key with
  | Ok v => Some v
  | Raise _ => None
  end.

(** [headers.get(key, default)] *)
Definition headers_get_default (h : Headers) (key dflt : string) : string :=
  default dflt (headers_get h key).

(** [headers[key] = value].  A tag outside the roster is checked first
    (tag-name syntax, no line break in the value); [tag_ok] is that check. *)
Definition headers_setitem (tag_ok : string → string → bool)
    (h : Headers) (key value : string) : result Headers :=
  if in_list key TAG_ROSTER
  then Ok {| tag_roster := Py.set (tag_roster h) key value; others := others h |}
  else if negb (tag_ok key value) then Raise ValueError
  else Ok {| tag_roster := tag_roster h; others := Py.set (others h) key value |}.

(** [iter(headers)]: the roster tags that are present, in roster order, then
    the other tags in insertion order. *)
Definition headers_iter (h : Headers) : list string :=
  filter (λ key, is_Some (Py.get (tag_roster h) key)) TAG_ROSTER
  ++ Py.keys (others h).

(** [headers.items()]: each key of the iteration with [headers[key]]. *)
Fixpoint items_of (h : Headers) (ks : list string) : result (list (string * string)) :=
  match ks with
  | [] => Ok []
  | k :: r => v ← headers_getitem h k; kvs ← items_of h r; Ok ((k, v) :: kvs)
  end.

Definition headers_items (h : Headers) : result (list (string * string)) :=
  items_of h (headers_iter h).

(** ** chess.pgn.Game *)

(** A node below the root: the move leading to it and its continuations,
    the first of which is the main line.  Comments and annotation glyphs,
    which a node of python-chess carries as well and which [add_variation]
    called with a move alone leaves empty, are not part of this model: games
    are compared by their headers and moves. *)
#[local] Unset Elimination Schemes.
Inductive GameNode (M : Type) : Type :=
| ChildNode (move : M) (variations : list (GameNode M)).
#[local] Set Elimination Schemes.
Arguments ChildNode {M} move variations.

Record Game (M : Type) : Type := mkGame {
  headers : Headers;
  variations : list (GameNode M)
}.
Arguments mkGame {M} headers variations.
Arguments headers {M} g.
Arguments variations {M} g.

(** The moves met by following [variations[0]] from a node downwards. *)
Fixpoint mainline_from {M} (n : GameNode M) : list M :=
  match n with
  | ChildNode mv vs =>
      mv :: match vs with
            | [] => []
            | c :: _ => mainline_from c
            end
  end.

(** [game.mainline_moves()] *)
Definition mainline_moves {M} (g : Game M) : list M :=
  match variations g with
  | [] => []
  | c :: _ => mainline_from c
  end.

(** [node.add_variation(mv)] for [node] the end of the line below [n]; no
    position is consulted. *)
Fixpoint add_at_end {M} (n : GameNode M) (mv : M) : GameNode M :=
  match n with
  | ChildNode m vs =>
      ChildNode m match vs with
                  | [] => [ChildNode mv []]
                  | c :: rest => add_at_end c mv :: rest
                  end
  end.

(** [node = node.add_variation(mv)] in [trim_game], where [node] starts as
    the new game itself and is always the last node added. *)
Definition add_variation {M} (g : Game M) (mv : M) : Game M :=
  mkGame (headers g)
         match variations g with
         | [] => [ChildNode mv []]
         | c :: rest => add_at_end c mv :: rest
         end.

(** A line of moves as a game tree without side variations. *)
Fixpoint line_of {M} (moves : list M) : list (GameNode M) :=
  match moves with
  | [] => []
  | mv :: rest => [ChildNode mv (line_of rest)]
  end.

(** ** What the program runs on *)

(** The interpreter setting and the parts of python-chess that the program
    calls.  Nothing is assumed about them. *)
Class Runtime : Type := {
  (** [sys.get_int_max_str_digits()]; see [Py.too_many_digits] *)
  int_max_str_digits : N;
  (** [chess.Move] and [chess.Board] *)
  Move : Type;
  Board : Type;
  (** the check of [Headers.__setitem__] on tags outside the roster *)
  tag_ok : string → string → bool;
  (** [chess.Board(fen)]: raises on a FEN it cannot read *)
  chess_Board : string → result Board;
  (** [game.board()]: the starting position that the headers declare *)
  headers_board : Headers → result Board;
  (** [board.is_legal(move)] *)
  is_legal : Board → Move → bool;
  (** [board.san_and_push(move)]: the notation of a legal move and the
      position after it *)
  san_and_push : Board → Move → string * Board;
  (** [board.turn], [True] for White *)
  turn : Board → bool;
  fullmove_number : Board → N;
  (** the games that successive [chess.pgn.read_game] calls read from a
      text until the text is used up *)
  read_games : string → list (Game Move)
}.

(** ** The program *)

Definition MIN_RATING : Z := 2375.
Definition MAX_PLIES : nat := 24.
Definition MIN_FEN_GAMES : nat := 3.
Definition SPEEDS : list string :=
  ["blitz"; "rapid"; "classical"; "bullet"; "ultraBullet"; "correspondence"].
Definition BOTS : list string :=
  ["SoggiestShrimp"; "AttackKing_Bot"; "PositionalAI"; "mayhem23111";
   "InvinxibleFlxsh"; "YoBot_v2"; "VEER-OMEGA-BOT"; "MaggiChess16";
   "NimsiluBot"; "pangubot"; "Loss-Not-Defined"; "Alexnajax_Fan";
   "strain-on-veins"; "BOTTYBADDY11"; "ChampionKitten";
   "LeelaMultiPoss"; "ToromBot";
   "NNUE_Drift"; "Strain-On-Veins"; "Yuki_1324"].

(** Python truthiness of [hd.get(key)]: [None] and the empty string are
    false. *)
Definition truthy (o : option string) : bool :=
  match o with
  | None | Some EmptyString => false
  | Some _ => true
  end.

Section Program.
Context `{RT : Runtime}.

Definition is_good_game (game : Game Move) : result bool :=
  let hd := headers game in
  if negb (String.eqb (Py.lower (headers_get_default hd "Variant" "")) "chess960")
  then Ok false
  else if negb (bool_decide (headers_get hd "SetUp" = Some "1"))
          || negb (truthy (headers_get hd "FEN"))
  then Ok false
  else if negb (in_list (Py.lower (headers_get_default hd "Speed" ""))
                        (map Py.lower SPEEDS))
  then Ok false
  else
    match
      wr ← Py.int int_max_str_digits (headers_get_default hd "WhiteElo" "0");
      br ← Py.int int_max_str_digits (headers_get_default hd "BlackElo" "0");
      Ok (wr, br)
    with
    | Raise ValueError => Ok false
    | Raise e => Raise e
    | Ok (wr, br) =>
        if (wr <? MIN_RATING)%Z || (br <? MIN_RATING)%Z then Ok false
        else if negb (bool_decide (headers_get hd "Result"
                                   ∈ [Some "1-0"; Some "0-1"; Some "1/2-1/2"]))
        then Ok false
        else Ok true
    end.

(** The loop of [trim_game]: [ply] counts the moves added so far. *)
Fixpoint trim_loop (moves : list Move) (ply : nat) (new_game : Game Move)
  : Game Move :=
  match moves with
  | [] => new_game
  | mv :: rest =>
      if (MAX_PLIES <=? ply)%nat then new_game
      else trim_loop rest (S ply) (add_variation new_game mv)
  end.

Definition trim_game (game : Game Move) : result (Game Move) :=
  fen ← headers_getitem (headers game) "FEN";
  _board ← chess_Board fen;
  kvs ← headers_items (headers game);
  new_headers ← for_each (λ h kv, headers_setitem tag_ok h kv.1 kv.2)
                         kvs default_headers;
  Ok (trim_loop (mainline_moves game) 0 (mkGame new_headers [])).

(** [board.variation_san(variation)] of python-chess: every move must be
    legal in the position reached, else [ValueError]; White's moves and a
    leading Black move carry the move number. *)
Fixpoint variation_san_loop (board : Board) (variation : list Move)
    (san : list string) : result (list string) :=
  match variation with
  | [] => Ok san
  | move :: rest =>
      if negb (is_legal board move) then Raise ValueError
      else
        let '(s, board') := san_and_push board move in
        let item :=
          if turn board then pretty (fullmove_number board) +:+ ". " +:+ s
          else match san with
               | [] => pretty (fullmove_number board) +:+ "..." +:+ s
               | _ => s
               end in
        variation_san_loop board' rest (san ++ [item])
  end.

Definition variation_san (board : Board) (variation : list Move) : result string :=
  san ← variation_san_loop board variation [];
  Ok (String.concat " " san).

(** ** The driver *)

Definition Key : Type := string * string.

Record State : Type := mkState {
  games_by_fen : Py.dict (list (Game Move));
  seen : gset Key
}.

(** [key = (fen, g.board().variation_san(g.mainline_moves()))] *)
Definition game_key (g : Game Move) : result Key :=
  fen ← headers_getitem (headers g) "FEN";
  board ← headers_board (headers g);
  san ← variation_san board (mainline_moves g);
  Ok (fen, san).

(** [games_by_fen[fen].append(tg)] on a [defaultdict(list)] *)
Definition append_game (d : Py.dict (list (Game Move))) (fen : string)
    (tg : Game Move) : Py.dict (list (Game Move)) :=
  Py.set d fen (default [] (Py.get d fen) ++ [tg]).

(** The body of the loop over the games of one account. *)
Definition process_game (st : State) (g : Game Move) : result State :=
  good ← is_good_game g;
  if negb good then Ok st
  else
    key ← game_key g;
    if bool_decide (key ∈ seen st) then Ok st
    else
      let seen' := {[key]} ∪ seen st in
      tg ← trim_game g;
      Ok {| games_by_fen := append_game (games_by_fen st) key.1 tg;
            seen := seen' |}.

(** [parse_pgn_stream(pgn_text)] *)
Definition parse_pgn_stream (pgn_text : string) : list (Game Move) :=
  read_games pgn_text.

(** The body of the loop over [BOTS]; [export_games] is the download. *)
Definition process_bot (export_games : string → result string)
    (st : State) (bot : string) : result State :=
  match export_games bot with
  | Raise _ => Ok st
  | Ok pgn_text => for_each process_game (parse_pgn_stream pgn_text) st
  end.

Definition initial_state : State := {| games_by_fen := []; seen := ∅ |}.

(** The loop that fills [final_games]. *)
Fixpoint collect (groups : Py.dict (list (Game Move)))
    (final_games : list (Game Move)) : list (Game Move) :=
  match groups with
  | [] => final_games
  | (fen, arr) :: rest =>
      if (MIN_FEN_GAMES <=? length arr)%nat
      then collect rest (final_games ++ arr)
      else collect rest final_games
  end.

(** [main] up to the value of [final_games]; writing the file and calling
    the book builder come after it. *)
Definition main_on (bots : list string) (export_games : string → result string)
  : result (list (Game Move)) :=
  st ← for_each (process_bot export_games) bots initial_state;
  Ok (collect (games_by_fen st) []).

Definition main (export_games : string → result string)
  : result (list (Game Move)) :=
  main_on BOTS export_games.

End Program.

(** ** The specification's vocabulary *)

(** Text of ASCII characters only *)
Definition is_ascii (s : string) : bool :=
  forallb (λ c, (nat_of_ascii c <? 128)%nat) (list_ascii_of_string s).

(** The letters [A] to [Z] are the characters 65 to 90, [a] to [z] the
    characters 97 to 122. *)
Definition is_letter (c : ascii) : Prop :=
  (65 ≤ nat_of_ascii c ≤ 90 ∨ 97 ≤ nat_of_ascii c ≤ 122)%nat.

(** The same character, or the same letter in its two cases *)
Definition same_ignoring_case (c d : ascii) : Prop :=
  c = d
  ∨ (is_letter c ∧ is_letter d
     ∧ (nat_of_ascii c = nat_of_ascii d + 32
        ∨ nat_of_ascii d = nat_of_ascii c + 32)%nat).

(** "case-insensitively equals": character by character *)
Definition equals_ignoring_case (a b : string) : Prop :=
  Forall2 same_ignoring_case (list_ascii_of_string a) (list_ascii_of_string b).

(** Space, tab, line feed, vertical tab, form feed, carriage return *)
Definition WHITE_SPACE : list ascii :=
  [" "; "009"; "010"; "011"; "012"; "013"]%char.

Definition white (s : string) : Prop :=
  Forall (λ c, c ∈ WHITE_SPACE) (list_ascii_of_string s).

Definition DIGITS : list ascii :=
  ["0"; "1"; "2"; "3"; "4"; "5"; "6"; "7"; "8"; "9"]%char.

(** [c] is the digit of value [d] *)
Definition decimal_digit (c : ascii) (d : nat) : Prop := DIGITS !! d = Some c.

(** The digits of a number as Python writes integers: one digit or more,
    with single underscores allowed between two digits. *)
Inductive int_body : string → list nat → Prop :=
| body_digit c d :
    decimal_digit c d → int_body (String c "") [d]
| body_more c d s ds :
    decimal_digit c d → int_body s ds → int_body (String c s) (d :: ds)
| body_underscore c d s ds :
    decimal_digit c d → int_body s ds →
    int_body (String c (String "_" s)) (d :: ds).

Definition next_digit (acc : Z) (d : nat) : Z := (10 * acc + Z.of_nat d)%Z.

Definition decimal_value (ds : list nat) : Z := fold_left next_digit ds 0%Z.

(** "parses as an integer": [s] is an integer in base ten with value [n]:
    white space, an optional sign, the digits, white space; when the
    interpreter limits the number of digits ([limit] other than 0), no more
    digits than that, 640 digits being always allowed. *)
Definition int_literal (limit : N) (s : string) (n : Z) : Prop :=
  ∃ ws1 sign body ws2 ds,
    s = ws1 +:+ sign +:+ body +:+ ws2
    ∧ white ws1 ∧ white ws2
    ∧ sign ∈ [""; "+"; "-"]
    ∧ int_body body ds
    ∧ (limit = 0%N ∨ (N.of_nat (length ds) ≤ N.max limit 640)%N)
    ∧ n = (if String.eqb sign "-" then - decimal_value ds else decimal_value ds)%Z.

(** A text at which the reading of a number stops: the end, or a character
    that is neither a digit nor an underscore. *)
Definition ends_number (rest : string) : Prop :=
  match rest with
  | EmptyString => True
  | String c _ => Py.digit_value c = None ∧ c ≠ "_"%char
  end.

(** A text without a space *)
Fixpoint no_space (s : string) : bool :=
  match s with
  | EmptyString => true
  | String c r => negb (Ascii.eqb c " ") && no_space r
  end.

Section Vocabulary.
Context `{RT : Runtime}.

(** The header is present and parses as the integer [n]. *)
Definition rating (hd : Headers) (tag : string) (n : Z) : Prop :=
  ∃ s, headers_get hd tag = Some s ∧ int_literal int_max_str_digits s n.

(** The positions that legal moves lead to from the position [start] *)
Inductive reached_from (start : Board) : Board → Prop :=
| reached_start : reached_from start start
| reached_push board move :
    reached_from start board → is_legal board move = true →
    reached_from start (san_and_push board move).2.

(** Two properties of the notation that python-chess writes (standard
    algebraic notation), in the positions of a game that starts from
    [start]: two legal moves of a position are never written the same; and
    the notation of a move has no space in it. *)
Definition unambiguous_notation (start : Board) : Prop :=
  ∀ (board : Board) (m1 m2 : Move),
    reached_from start board →
    is_legal board m1 = true → is_legal board m2 = true →
    (san_and_push board m1).1 = (san_and_push board m2).1 → m1 = m2.

Definition notation_without_spaces (start : Board) : Prop :=
  ∀ (board : Board) (move : Move),
    reached_from start board →
    is_legal board move = true → no_space (san_and_push board move).1 = true.

(** The five clauses of eligibility, as the specification words them. *)
Definition Eligible (game : Game Move) : Prop :=
  let hd := headers game in
  (∃ v, headers_get hd "Variant" = Some v ∧ equals_ignoring_case v "chess960")
  ∧ (headers_get hd "SetUp" = Some "1"
     ∧ ∃ fen, headers_get hd "FEN" = Some fen ∧ fen ≠ "")
  ∧ (∃ s a, headers_get hd "Speed" = Some s ∧ a ∈ SPEEDS
            ∧ equals_ignoring_case s a)
  ∧ (∃ wr br, rating hd "WhiteElo" wr ∧ rating hd "BlackElo" br
              ∧ (MIN_RATING ≤ wr)%Z ∧ (MIN_RATING ≤ br)%Z)
  ∧ (∃ r, headers_get hd "Result" = Some r ∧ r ∈ ["1-0"; "0-1"; "1/2-1/2"]).

(** The headers that eligibility reads character by character hold ASCII
    text. *)
Definition ascii_headers (hd : Headers) : Prop :=
  ∀ tag s, tag ∈ ["Variant"; "Speed"; "WhiteElo"; "BlackElo"] →
           headers_get hd tag = Some s → is_ascii s = true.

(** Headers as the PGN reader leaves them: the defaults of a new game, then
    one successful assignment per tag read. *)
Inductive parsed_headers : Headers → Prop :=
| parsed_default : parsed_headers default_headers
| parsed_setitem h key value h' :
    parsed_headers h →
    headers_setitem tag_ok h key value = Ok h' →
    parsed_headers h'.

(** The invariant of such headers: the whole roster is present, and the
    other tags are distinct, off the roster and were accepted. *)
Definition wf_headers (h : Headers) : Prop :=
  Py.keys (tag_roster h) = TAG_ROSTER
  ∧ NoDup (Py.keys (others h))
  ∧ Forall (λ kv, in_list kv.1 TAG_ROSTER = false ∧ tag_ok kv.1 kv.2 = true)
           (others h).

(** Every move of the line is legal in the position it is played in. *)
Fixpoint legal_line (board : Board) (line : list Move) : bool :=
  match line with
  | [] => true
  | move :: rest =>
      is_legal board move && legal_line (san_and_push board move).2 rest
  end.

(** The games the driver reads, in processing order: roster order, then
    stream order; an account whose download fails contributes none. *)
Definition stream_of (bots : list string) (export_games : string → result string)
  : list (Game Move) :=
  flat_map (λ bot, match export_games bot with
                   | Ok pgn_text => parse_pgn_stream pgn_text
                   | Raise _ => []
                   end) bots.

Definition eligible (g : Game Move) : bool :=
  bool_decide (is_good_game g = Ok true).

(** [g] is eligible and no eligible game among the [earlier] ones has its
    dedup key. *)
Definition is_first (earlier : list (Game Move)) (g : Game Move) : bool :=
  eligible g
  && negb (existsb (λ h, eligible h && bool_decide (game_key h = game_key g))
                   earlier).

(** The admitted games of a stream: each game that is the first eligible
    one with its key, in stream order. *)
Fixpoint admitted_after (earlier gs : list (Game Move)) : list (Game Move) :=
  match gs with
  | [] => []
  | g :: rest =>
      (if is_first earlier g then [g] else [])
      ++ admitted_after (earlier ++ [g]) rest
  end.

Definition admitted (gs : list (Game Move)) : list (Game Move) :=
  admitted_after [] gs.

(** The FEN header of a game *)
Definition game_fen (g : Game Move) : result string :=
  headers_getitem (headers g) "FEN".

(** An admitted game as stored: under its FEN, trimmed. *)
Definition stored_as (g : Game Move) (ft : string * Game Move) : Prop :=
  game_fen g = Ok ft.1 ∧ trim_game g = Ok ft.2.

(** The FENs of a list in order of first occurrence. *)
Fixpoint first_seen (fens : list string) : list string :=
  match fens with
  | [] => []
  | f :: rest => f :: filter (λ x, x ≠ f) (first_seen rest)
  end.

(** The FenGroup of [f]: the stored games under [f], in insertion order. *)
Definition games_of (f : string) (stored : list (string * Game Move))
  : list (Game Move) :=
  map snd (filter (λ ft, ft.1 = f) stored).

(** The FinalDataset that the specification describes for a run that stored
    [stored]: groups in first-seen order, those of at least
    [MIN_FEN_GAMES] games only, each in insertion order. *)
Definition final_dataset (stored : list (string * Game Move)) : list (Game Move) :=
  concat (map (λ f, games_of f stored)
              (filter (λ f, (MIN_FEN_GAMES ≤ length (games_of f stored))%nat)
                      (first_seen (map fst stored)))).

(** The [games_by_fen] dictionary that corresponds to what was stored. *)
Definition groups_of (stored : list (string * Game Move))
  : Py.dict (list (Game Move)) :=
  map (λ f, (f, games_of f stored)) (first_seen (map fst stored)).

(** What the driver's state records after it has read the games [pre]:
    the keys of the eligible games of [pre], and the admitted games of
    [pre], trimmed and grouped. *)
Definition run_invariant (pre : list (Game Move)) (st : State) : Prop :=
  (∀ key, key ∈ seen st
          ↔ ∃ h, h ∈ pre ∧ eligible h = true ∧ game_key h = Ok key)
  ∧ ∃ stored, Forall2 stored_as (admitted pre) stored
              ∧ games_by_fen st = groups_of stored.

End Vocabulary.

(** ** A small stand-in for the library, to run the program on examples

    Moves are written as UCI text and a position is the FEN it was set up
    from together with the moves played since.  As in python-chess, a FEN
    whose board part does not have eight ranks is refused and the null move
    [0000] is never legal; every other move written without a space counts
    as legal and is its own notation. *)

Record DemoBoard : Type := mkDemoBoard {
  start_fen : string;
  played : list string
}.

Definition count_char (c : ascii) (s : string) : nat :=
  length (filter (λ x, x = c) (list_ascii_of_string s)).

Definition demo_Board (fen : string) : result DemoBoard :=
  if (count_char "/" fen =? 7)%nat then Ok (mkDemoBoard fen [])
  else Raise ValueError.

Definition demo_tag_ok (key value : string) : bool :=
  negb (String.eqb key "")
  && forallb (λ c, negb (Ascii.eqb c "010") && negb (Ascii.eqb c "013"))
             (list_ascii_of_string value).

Definition STARTING_FEN : string :=
  "rnbqkbnr/pppppppp/8/8/8/8/PPPPPPPP/RNBQKBNR w KQkq - 0 1".

(** Headers read from a list of tags, as the PGN reader does. *)
Definition read_headers (tags : list (string * string)) : Headers :=
  match for_each (λ h kv, headers_setitem demo_tag_ok h kv.1 kv.2)
                 tags default_headers with
  | Ok h => h
  | Raise _ => default_headers
  end.

Definition FEN_1 : string :=
  "bnrqkrnb/pppppppp/8/8/8/8/PPPPPPPP/BNRQKRNB w KQkq - 0 1".
Definition FEN_2 : string :=
  "nrbqkbrn/pppppppp/8/8/8/8/PPPPPPPP/NRBQKBRN w KQkq - 0 1".

(** The tags of a rated Chess960 blitz game between two strong accounts. *)
Definition demo_tags (white fen white_elo : string) : list (string * string) :=
  [("Event", "Rated Chess960 game"); ("White", white);
   ("Black", "PositionalAI"); ("Result", "1-0");
   ("WhiteElo", white_elo); ("BlackElo", "2450");
   ("Variant", "Chess960"); ("Speed", "Blitz");
   ("SetUp", "1"); ("FEN", fen)].

Definition demo_game (white fen white_elo : string) (moves : list string)
  : Game string :=
  mkGame (read_headers (demo_tags white fen white_elo)) (line_of moves).

(** The same game with one more tag line, which overrides an earlier one,
    and with the lines of one tag left out. *)
Definition game_with (key value : string) : Game string :=
  mkGame (read_headers (demo_tags "SoggiestShrimp" FEN_1 "2500" ++ [(key, value)]))
         (line_of ["e2e4"]).
Definition game_without (key : string) : Game string :=
  mkGame (read_headers (filter (λ kv, kv.1 ≠ key)
                               (demo_tags "SoggiestShrimp" FEN_1 "2500")))
         (line_of ["e2e4"]).

(** A game object made by hand, on empty headers: not what the reader
    returns. *)
Definition game_bare : Game string :=
  mkGame (mkHeaders [] [("FEN", FEN_1)]) (line_of ["e2e4"]).

Definition opening_24 : list string :=
  ["e2e4"; "e7e5"; "g1f3"; "g8f6"; "d2d3"; "d7d6"; "c2c3"; "c7c6";
   "b2b3"; "b7b6"; "g2g3"; "g7g6"; "a2a4"; "a7a5"; "h2h4"; "h7h5";
   "d1c2"; "d8c7"; "b1d2"; "b8d7"; "e1d1"; "e8d8"; "f3g5"; "f6g4"].

Definition tail_a : list string :=
  ["g5f3"; "g4f6"; "f3g5"; "f6g4"; "g5f3"; "g4f6"; "f3g5"; "f6g4";
   "g5f3"; "g4f6"; "f3g5"; "f6g4"; "g5f3"; "g4f6"; "f3g5"; "f6g4"].

(** 40 plies *)
Definition game_long_a : Game string :=
  demo_game "SoggiestShrimp" FEN_1 "2500" (opening_24 ++ tail_a).
(** the same first 24 plies, then another continuation *)
Definition game_long_b : Game string :=
  demo_game "SoggiestShrimp" FEN_1 "2500" (opening_24 ++ ["d2c4"; "d7c5"]).
Definition game_short : Game string :=
  demo_game "SoggiestShrimp" FEN_1 "2500" ["d2d4"; "d7d5"; "c2c4"].
Definition game_other_fen : Game string :=
  demo_game "SoggiestShrimp" FEN_2 "2500" ["e2e4"; "c7c5"].
Definition game_unrated : Game string :=
  demo_game "SoggiestShrimp" FEN_1 "unrated" ["e2e4"].
(** a recorded null move: legal nowhere *)
Definition game_null_move : Game string :=
  demo_game "SoggiestShrimp" FEN_1 "2500" ["e2e4"; "0000"; "d2d4"].

(** the first 24 plies of [game_long_a] and of [game_long_b] *)
Definition game_opening : Game string :=
  demo_game "SoggiestShrimp" FEN_1 "2500" opening_24.

(** two more games from the position of [game_other_fen] *)
Definition game_other_fen_b : Game string :=
  demo_game "PositionalAI" FEN_2 "2600" ["d2d4"; "g8f6"; "c2c4"].
Definition game_other_fen_c : Game string :=
  demo_game "PositionalAI" FEN_2 "2600" ["g2g3"].

Definition demo_read_games (pgn_text : string) : list (Game string) :=
  if String.eqb pgn_text "account A"
  then [game_long_a; game_unrated; game_short; game_long_a; game_other_fen;
        game_long_b]
  else if String.eqb pgn_text "account B"
  then [game_short; game_null_move; game_other_fen]
  else if String.eqb pgn_text "account C"
  then [game_other_fen_b; game_short; game_other_fen_c]
  else [].

#[local] Instance demo_runtime : Runtime := {|
  int_max_str_digits := 4300;
  Move := string;
  Board := DemoBoard;
  tag_ok := demo_tag_ok;
  chess_Board := demo_Board;
  headers_board := λ h, demo_Board (headers_get_default h "FEN" STARTING_FEN);
  is_legal := λ _ mv, negb (String.eqb mv "0000") && no_space mv;
  san_and_push := λ b mv, (mv, mkDemoBoard (start_fen b) (played b ++ [mv]));
  turn := λ b, Nat.even (length (played b));
  fullmove_number := λ b, N.of_nat (1 + length (played b) / 2);
  read_games := demo_read_games
|}.

(** The first account answers, the second fails, the others have no games. *)
Definition demo_export (bot : string) : result string :=
  if String.eqb bot "SoggiestShrimp" then Ok "account A"
  else if String.eqb bot "AttackKing_Bot" then Raise OtherError
  else Ok "".

(** What the run on [demo_export] keeps: the three games of [FEN_1]. *)
Definition demo_final : list (Game string) :=
  [game_opening; game_short; game_opening].

(** As [demo_export], but the third account has games as well, two of them
    from the position of which the first account has one game only. *)
Definition demo_export_more (bot : string) : result string :=
  if String.eqb bot "PositionalAI" then Ok "account C" else demo_export bot.

Definition demo_final_more : list (Game string) :=
  [game_opening; game_short; game_opening;
   game_other_fen; game_other_fen_b; game_other_fen_c].

(** As [demo_export], but the third account's text holds the null move. *)
Definition demo_export_bad (bot : string) : result string :=
  if String.eqb bot "PositionalAI" then Ok "account B" else demo_export bot.

(** The dedup keys of the two long games. *)
Definition key_long_a : string * string :=
  Eval vm_compute in
    match @game_key demo_runtime game_long_a with
    | Ok key => key
    | Raise _ => ("", "")
    end.
Definition key_long_b : string * string :=
  Eval vm_compute in
    match @game_key demo_runtime game_long_b with
    | Ok key => key
    | Raise _ => ("", "")
    end.

(** ** The download, the master file and the book builder *)

Module PyStr.

(** [str.isspace] on an ASCII character: tab to carriage return, the four
    separators 28 to 31, and space.  (Outside ASCII, Unicode has more white
    space, which is not part of this model.) *)
Definition is_whitespace (c : ascii) : bool :=
  let n := nat_of_ascii c in
  ((9 <=? n)%nat && (n <=? 13)%nat) || ((28 <=? n)%nat && (n <=? 32)%nat).

Fixpoint lstrip (s : string) : string :=
  match s with
  | String c r => if is_whitespace c then lstrip r else s
  | EmptyString => EmptyString
  end.

Fixpoint rstrip (s : string) : string :=
  match s with
  | EmptyString => EmptyString
  | String c r =>
      match rstrip r with
      | EmptyString => if is_whitespace c then EmptyString else String c EmptyString
      | r' => String c r'
      end
  end.

(** [str.strip()] *)
Definition strip (s : string) : string := rstrip (lstrip s).

End PyStr.

Definition first_char (s : string) : option ascii :=
  match s with
  | String c _ => Some c
  | EmptyString => None
  end.

Fixpoint last_char (s : string) : option ascii :=
  match s with
  | EmptyString => None
  | String c EmptyString => Some c
  | String _ r => last_char r
  end.

(** The white space of ASCII that [str.strip] takes off: that of
    [WHITE_SPACE] and the four separator characters. *)
Definition STRIP_SPACE : list ascii :=
  WHITE_SPACE ++ ["028"; "029"; "030"; "031"]%char.

(** Nothing but white space (the empty string included) *)
Definition blank (s : string) : bool :=
  forallb (λ c, bool_decide (c ∈ STRIP_SPACE)) (list_ascii_of_string s).

(** What [requests.get] returns, as far as the program looks at it.  The
    request is made with [stream=True], so that the body is only read when
    [text] is asked for, which may raise as well. *)
Record Response : Type := mkResponse {
  status_code : Z;
  text : result string
}.

Definition API_BASE : string := "https://lichess.org".
Definition MAX_GAMES_PER_BOT : N := 5000.
Definition MASTER_PGN : string := "master_chess960_book.pgn".

Module Lichess.
Section Download.
(** [os.getenv(name)]: [None] when the variable is not set *)
Variable getenv : string → option string.
(** [requests.get(url, params=..., headers=..., stream=True)]: the answer,
    or the exception of a request that got none *)
Variable requests_get :
  string → Py.dict string → Py.dict string → result Response.

Definition headers : Py.dict string :=
  let token := PyStr.strip (default "" (getenv "TOKEN")) in
  let h := [("Accept", "application/x-chess-pgn")] in
  if negb (String.eqb token "")
  then Py.set h "Authorization" ("Bearer " +:+ token)
  else h.

(** [r.raise_for_status()]: an exception for the 4xx and 5xx answers *)
Definition raise_for_status (r : Response) : result unit :=
  if (400 <=? status_code r)%Z && (status_code r <? 600)%Z
  then Raise OtherError
  else Ok tt.

Definition export_games (username : string) : result string :=
  let params := [("max", pretty MAX_GAMES_PER_BOT);
                 ("perfType", "chess960");
                 ("rated", "true");
                 ("moves", "true");
                 ("opening", "true")] in
  let url := API_BASE +:+ "/api/games/user/" +:+ username +:+ ".pgn" in
  r ← requests_get url params headers;
  _ ← raise_for_status r;
  text r.

End Download.
End Lichess.

(** Two line feeds *)
Definition BLANK_LINE : string := String "010" (String "010" EmptyString).

Section Effects.
Context `{RT : Runtime}.
(** [str(g)]: the PGN text of a game *)
Variable str_game : Game Move → string.
(** the exception of [open(path, "w")], when it raises *)
Variable open_error : string → option exn.
(** [subprocess.run([sys.executable, "create_polyglot.py"])]: what the
    child process leaves of the files, and its return code, or the
    exception when it cannot be started *)
Variable run_builder : gmap string string → gmap string string * result Z.

(** The files are a map from paths to contents; opening for writing
    creates the file or empties it.  (A write that fails half way, on a full
    disk say, is not part of this model.) *)
Definition write_pgn (games : list (Game Move)) (path : string)
    (files : gmap string string) : gmap string string * result unit :=
  match open_error path with
  | Some e => (files, Raise e)
  | None =>
      (<[path := fold_left (λ content g, content +:+ str_game g +:+ BLANK_LINE)
                           games ""]> files,
       Ok tt)
  end.

(** [main] with what it does to the files: the games are filtered first,
    then the master file is written, then the book builder is run with
    [check=True], so that a return code other than 0 is an exception. *)
Definition main_effects (export_games : string → result string)
    (files : gmap string string) : gmap string string * result unit :=
  match main export_games with
  | Raise e => (files, Raise e)
  | Ok final_games =>
      match write_pgn final_games MASTER_PGN files with
      | (files1, Raise e) => (files1, Raise e)
      | (files1, Ok _) =>
          match run_builder files1 with
          | (files2, Raise e) => (files2, Raise e)
          | (files2, Ok returncode) =>
              if (returncode =? 0)%Z then (files2, Ok tt)
              else (files2, Raise OtherError)
          end
      end
  end.

(** The number of games held in [games_by_fen] *)
Definition stored_count (d : Py.dict (list (Game Move))) : nat :=
  sum_list (map (λ fa, length fa.2) d).

End Effects.

(** ** More of the stand-in *)

(** A game with side lines at the first and at the second ply. *)
Definition game_sidelines : Game string :=
  mkGame (headers game_short)
         [ChildNode "d2d4" [ChildNode "d7d5" [ChildNode "c2c4" []];
                            ChildNode "g8f6" []];
          ChildNode "e2e4" [ChildNode "e7e5" []]].

Definition demo_getenv (name : string) : option string :=
  if String.eqb name "TOKEN" then Some "  lip_abc  " else None.

(** The server knows one account, is down for a second one and does not
    answer for the others. *)
Definition demo_requests_get (url : string) (params headers : Py.dict string)
  : result Response :=
  if String.eqb url "https://lichess.org/api/games/user/SoggiestShrimp.pgn"
  then Ok (mkResponse 200 (Ok "account A"))
  else if String.eqb url "https://lichess.org/api/games/user/pangubot.pgn"
  then Ok (mkResponse 503 (Ok "Service Unavailable"))
  else if String.eqb url "https://lichess.org/api/games/user/ToromBot.pgn"
  then Ok (mkResponse 404 (Ok "Not Found"))
  else Raise OtherError.

(** The moves of the main line, one per line, stand for the PGN text. *)
Definition demo_str (g : Game string) : string :=
  String.concat " " (mainline_moves g).

(** A builder that writes a book of the size of the master file and fails on
    an empty one. *)
Definition demo_builder (files : gmap string string)
  : gmap string string * result Z :=
  match files !! MASTER_PGN with
  | Some content =>
      (<["book.bin" := pretty (String.length content)]> files,
       Ok (if String.eqb content "" then 1%Z else 0%Z))
  | None => (files, Ok 2%Z)
  end.

(** No account answers. *)
Definition demo_export_down (bot : string) : result string := Raise OtherError.

(** Both spellings of one account name in the roster get the same text. *)
Definition demo_export_twice (bot : string) : result string :=
  if String.eqb bot "strain-on-veins" || String.eqb bot "Strain-On-Veins"
  then Ok "account A"
  else Raise OtherError.

(** Every file can be opened for writing. *)
Definition demo_open (path : string) : option exn := None.

(** The download as the program does it, against the stand-in server. *)
Definition demo_download : string → result string :=
  Lichess.export_games demo_getenv demo_requests_get.

Definition key_short : string * string :=
  Eval vm_compute in
    match @game_key demo_runtime game_short with
    | Ok key => key
    | Raise _ => ("", "")
    end.
Definition key_other_fen : string * string :=
  Eval vm_compute in
    match @game_key demo_runtime game_other_fen with
    | Ok key => key
    | Raise _ => ("", "")
    end.

(** The driver's state after [game_long_a; game_unrated; game_short], and
    after the whole example run. *)
Definition demo_state_short : @State demo_runtime :=
  {| games_by_fen := [(FEN_1, [game_opening; game_short])];
     seen := {[key_short]} ∪ ({[key_long_a]} ∪ ∅) |}.
Definition demo_state_run : @State demo_runtime :=
  {| games_by_fen := [(FEN_1, [game_opening; game_short; game_opening]);
                      (FEN_2, [game_other_fen])];
     seen := {[key_long_b]}
             ∪ ({[key_other_fen]} ∪ ({[key_short]} ∪ ({[key_long_a]} ∪ ∅))) |}.

(** * Properties *)

(** ** Python built-ins *)

Lemma int_raises (limit : N) (s : string) (e : exn) :
  Py.int limit s = Raise e → e = ValueError.
Proof.
  unfold Py.int.
  destruct (match Py.skip_spaces s with
            | String "+" r => (false, r)
            | String "-" r => (true, r)
            | _ => (false, Py.skip_spaces s)
            end) as [negative s2].
  assert (Hscan : match Py.scan_digits s2 false 0%Z 0%N with
                  | None => Raise ValueError
                  | Some (v, digits, rest) =>
                      if (digits =? 0)%N then Raise ValueError
                      else if Py.too_many_digits limit digits
                      then Raise ValueError
                      else match Py.skip_spaces rest with
                           | EmptyString => Ok (if negative then (- v)%Z else v)
                           | String _ _ => Raise ValueError
                           end
                  end = Raise e → e = ValueError).
  { destruct (Py.scan_digits s2 false 0%Z 0%N) as [[[v digits] rest]|];
      [|congruence].
    destruct (digits =? 0)%N; [congruence|].
    destruct (Py.too_many_digits limit digits); [congruence|].
    destruct (Py.skip_spaces rest); congruence. }
  destruct s2 as [|c r]; [exact Hscan|].
  destruct c as [[] [] [] [] [] [] [] []]; first [exact Hscan | congruence].
Qed.

Lemma int_cases (limit : N) (s : string) :
  (∃ n, Py.int limit s = Ok n) ∨ Py.int limit s = Raise ValueError.
Proof.
  destruct (Py.int limit s) as [n|e] eqn:E; [left; eauto|].
  right. by rewrite (int_raises _ _ _ E).
Qed.

Lemma int_zero (limit : N) : Py.int limit "0" = Ok 0%Z.
Proof. by destruct limit as [|[]]. Qed.

Lemma in_list_spec (x : string) (l : list string) :
  in_list x l = true ↔ x ∈ l.
Proof.
  unfold in_list. rewrite existsb_exists, list_elem_of_In. split.
  - intros (y & Hy & Heq). apply String.eqb_eq in Heq. by subst.
  - intros Hx. exists x. split; [done|]. apply String.eqb_refl.
Qed.

(** ** Text *)

Lemma string_append_nil_r (s : string) : s +:+ "" = s.
Proof.
  induction s as [|c s IH]; [done|].
  change (String c (s +:+ "") = String c s). by f_equal.
Qed.

Lemma string_append_assoc (s1 s2 s3 : string) :
  (s1 +:+ s2) +:+ s3 = s1 +:+ s2 +:+ s3.
Proof.
  induction s1 as [|c s1 IH]; [done|].
  change (String c ((s1 +:+ s2) +:+ s3) = String c (s1 +:+ s2 +:+ s3)).
  by f_equal.
Qed.

Lemma string_append_cons (c : ascii) (s1 s2 : string) :
  String c s1 +:+ s2 = String c (s1 +:+ s2).
Proof. reflexivity. Qed.

Lemma string_append_nil_l (s : string) : "" +:+ s = s.
Proof. reflexivity. Qed.

Ltac leb_bounds :=
  repeat match goal with
         | H : _ && _ = true |- _ => apply andb_true_iff in H as [? ?]
         | H : _ && _ = false |- _ => apply andb_false_iff in H as [?|?]
         | H : (_ <=? _)%nat = true |- _ => apply Nat.leb_le in H
         | H : (_ <=? _)%nat = false |- _ => apply Nat.leb_gt in H
         end.

Lemma lower_char_nat (c : ascii) :
  nat_of_ascii (Py.lower_char c)
  = if (65 <=? nat_of_ascii c)%nat && (nat_of_ascii c <=? 90)%nat
    then (nat_of_ascii c + 32)%nat else nat_of_ascii c.
Proof.
  unfold Py.lower_char.
  destruct ((65 <=? nat_of_ascii c)%nat && (nat_of_ascii c <=? 90)%nat) eqn:H;
    [|done].
  apply andb_true_iff in H as [_ H%Nat.leb_le].
  apply nat_ascii_embedding. lia.
Qed.

Lemma nat_of_ascii_inj (c d : ascii) : nat_of_ascii c = nat_of_ascii d → c = d.
Proof.
  intros H. rewrite <- (ascii_nat_embedding c), <- (ascii_nat_embedding d).
  by rewrite H.
Qed.

Lemma lower_char_same (c d : ascii) :
  Py.lower_char c = Py.lower_char d ↔ same_ignoring_case c d.
Proof.
  unfold same_ignoring_case, is_letter. split.
  - intros H. apply (f_equal nat_of_ascii) in H. rewrite !lower_char_nat in H.
    destruct (decide (c = d)) as [|Hne]; [by left|]. right.
    assert (nat_of_ascii c ≠ nat_of_ascii d) by (intros ?; by apply Hne, nat_of_ascii_inj).
    destruct ((65 <=? nat_of_ascii c)%nat && (nat_of_ascii c <=? 90)%nat) eqn:Hc;
    destruct ((65 <=? nat_of_ascii d)%nat && (nat_of_ascii d <=? 90)%nat) eqn:Hd;
      simpl in H; leb_bounds; lia.
  - intros [->|(Hc & Hd & Hdiff)]; [done|].
    apply nat_of_ascii_inj. rewrite !lower_char_nat.
    destruct ((65 <=? nat_of_ascii c)%nat && (nat_of_ascii c <=? 90)%nat) eqn:Hc';
    destruct ((65 <=? nat_of_ascii d)%nat && (nat_of_ascii d <=? 90)%nat) eqn:Hd';
      simpl; leb_bounds; lia.
Qed.

Lemma lower_equals_ignoring_case (a b : string) :
  Py.lower a = Py.lower b ↔ equals_ignoring_case a b.
Proof.
  unfold equals_ignoring_case. revert b.
  induction a as [|c a IH]; intros [|d b]; simpl.
  - split; [constructor|done].
  - split; [done|]. intros H. inversion H.
  - split; [done|]. intros H. inversion H.
  - split.
    + intros [= Hc Hr]. constructor; [by apply lower_char_same|by apply IH].
    + intros H. inversion H as [|? ? ? ? Hc Hr]; subst.
      f_equal; [by apply lower_char_same|by apply IH].
Qed.

Lemma string_length_append (s1 s2 : string) :
  String.length (s1 +:+ s2) = (String.length s1 + String.length s2)%nat.
Proof.
  induction s1 as [|c s1 IH]; [done|].
  rewrite string_append_cons. simpl. by rewrite IH.
Qed.

Lemma string_append_empty (s1 s2 : string) : s1 +:+ s2 = "" → s2 = "".
Proof. by destruct s1. Qed.

(** Where an item stands in a joined text: after the items before it, each
    followed by the separator, and before nothing or the separator. *)
Lemma concat_middle (sep : string) (a : list string) (x : string) (b : list string) :
  ∃ pre suf,
    String.concat sep (a ++ x :: b) = pre +:+ x +:+ suf
    ∧ ((a = [] ∧ pre = "") ∨ (a ≠ [] ∧ pre = String.concat sep a +:+ sep))
    ∧ (suf = "" ∨ ∃ t, suf = sep +:+ t).
Proof.
  induction a as [|a0 a IH].
  - exists "". destruct b as [|y b].
    + exists "". split_and!; [|by left|by left].
      simpl. by rewrite string_append_nil_r.
    + exists (sep +:+ String.concat sep (y :: b)).
      split_and!; [done|by left|right; by eexists].
  - destruct IH as (pre & suf & Heq & Hpre & Hsuf).
    assert (Hcons : String.concat sep ((a0 :: a) ++ x :: b)
                    = a0 +:+ sep +:+ String.concat sep (a ++ x :: b)).
    { simpl. by destruct a. }
    rewrite Hcons, Heq.
    exists (String.concat sep (a0 :: a) +:+ sep), suf.
    split_and!; [|by right|done].
    destruct Hpre as [[-> ->]|[Ha ->]].
    + simpl. by rewrite !string_append_assoc.
    + assert (String.concat sep (a0 :: a) = a0 +:+ sep +:+ String.concat sep a)
        as -> by by destruct a.
      by rewrite !string_append_assoc.
Qed.

(** Two texts without a space, each followed by nothing or by a space and
    more, are the same when what they make is the same. *)
Lemma no_space_prefix (s1 s2 suf1 suf2 : string) :
  no_space s1 = true → no_space s2 = true →
  (suf1 = "" ∨ ∃ t, suf1 = " " +:+ t) → (suf2 = "" ∨ ∃ t, suf2 = " " +:+ t) →
  s1 +:+ suf1 = s2 +:+ suf2 → s1 = s2.
Proof.
  revert s2. induction s1 as [|c1 s1 IH]; intros [|c2 s2]; simpl.
  - done.
  - intros _ [Hc _]%andb_true_iff Hsuf1 _ Heq.
    rewrite string_append_nil_l, string_append_cons in Heq.
    destruct Hsuf1 as [->|[t ->]]; [done|].
    injection Heq as <- _. done.
  - intros [Hc _]%andb_true_iff _ _ Hsuf2 Heq.
    rewrite string_append_nil_l, string_append_cons in Heq.
    destruct Hsuf2 as [->|[t ->]]; [done|].
    injection Heq as -> _. done.
  - intros [_ H1]%andb_true_iff [_ H2]%andb_true_iff Hsuf1 Hsuf2 Heq.
    rewrite !string_append_cons in Heq. injection Heq as -> Heq.
    f_equal. by apply (IH s2).
Qed.

(** ** Reading a number *)

Lemma is_space_white (c : ascii) : Py.is_space c = true ↔ c ∈ WHITE_SPACE.
Proof.
  unfold WHITE_SPACE. rewrite !elem_of_cons, elem_of_nil.
  destruct c as [[] [] [] [] [] [] [] []]; vm_compute;
    (split; [intros H; try discriminate; auto 10
            |intros H; try reflexivity; repeat destruct H as [H|H];
             try discriminate; done]).
Qed.

Lemma digit_value_Some (c : ascii) (z : Z) :
  Py.digit_value c = Some z ↔ ∃ d, decimal_digit c d ∧ z = Z.of_nat d.
Proof.
  split.
  - intros H. exists (Z.to_nat z).
    destruct c as [[] [] [] [] [] [] [] []]; vm_compute in H; try discriminate;
      injection H as <-; split; reflexivity.
  - intros (d & Hd & ->). unfold decimal_digit in Hd.
    do 10 (destruct d as [|d]; [injection Hd as <-; reflexivity|]).
    discriminate.
Qed.

Lemma decimal_digit_value (c : ascii) (d : nat) :
  decimal_digit c d → Py.digit_value c = Some (Z.of_nat d).
Proof. intros H. apply digit_value_Some. eauto. Qed.

Lemma white_cons (c : ascii) (s : string) :
  white (String c s) ↔ Py.is_space c = true ∧ white s.
Proof.
  unfold white. simpl. rewrite Forall_cons. by rewrite is_space_white.
Qed.

Lemma white_not_digit (c : ascii) :
  Py.is_space c = true → Py.digit_value c = None ∧ c ≠ "_"%char.
Proof.
  destruct c as [[] [] [] [] [] [] [] []]; vm_compute; intros H;
    try discriminate; split; (reflexivity || discriminate).
Qed.

Lemma digit_not_white (c : ascii) (z : Z) :
  Py.digit_value c = Some z →
  Py.is_space c = false ∧ c ≠ "+"%char ∧ c ≠ "-"%char ∧ c ≠ "_"%char.
Proof.
  destruct c as [[] [] [] [] [] [] [] []]; vm_compute; intros H;
    try discriminate; split_and!; (reflexivity || discriminate).
Qed.

(** [skip_spaces] takes off a white prefix, and the rest does not begin
    with white space. *)
Lemma skip_spaces_split (s : string) :
  ∃ ws, s = ws +:+ Py.skip_spaces s ∧ white ws
        ∧ match Py.skip_spaces s with
          | String c _ => Py.is_space c = false
          | EmptyString => True
          end.
Proof.
  induction s as [|c s (ws & Hs & Hws & Hfirst)].
  - exists "". split_and!; [done|constructor|done].
  - simpl. destruct (Py.is_space c) eqn:Hc.
    + exists (String c ws). split_and!; [|by apply white_cons|done].
      rewrite string_append_cons. by f_equal.
    + exists "". split_and!; [done|constructor|done].
Qed.

Lemma skip_spaces_white (ws s : string) :
  white ws → Py.skip_spaces (ws +:+ s) = Py.skip_spaces s.
Proof.
  induction ws as [|c ws IH]; [done|].
  intros [Hc Hws]%white_cons. rewrite string_append_cons. simpl.
  rewrite Hc. by apply IH.
Qed.

Lemma skip_spaces_empty (s : string) : Py.skip_spaces s = "" ↔ white s.
Proof.
  induction s as [|c s IH]; simpl.
  - split; [constructor|done].
  - rewrite white_cons. destruct (Py.is_space c); [|split; [done|by intros [? _]]].
    rewrite IH. split; [done|by intros [_ ?]].
Qed.

Lemma int_body_digits (body : string) (ds : list nat) :
  int_body body ds →
  ∃ c d b ds', body = String c b ∧ ds = d :: ds' ∧ decimal_digit c d.
Proof. intros H. destruct H; eauto 10. Qed.

Ltac same_scan :=
  simpl; unfold next_digit;
  repeat match goal with
         | |- Some _ = Some _ => f_equal
         | |- (_, _) = (_, _) => f_equal
         end; try done; lia.

(** The scan reads a number written as the grammar says. *)
Lemma scan_digits_body (body rest : string) (ds : list nat) :
  int_body body ds → ends_number rest →
  ∀ prev_us acc k,
    Py.scan_digits (body +:+ rest) prev_us acc k
    = Some (fold_left next_digit ds acc, (k + N.of_nat (length ds))%N, rest).
Proof.
  intros Hbody Hrest.
  induction Hbody as [c d Hd|c d s ds Hd _ IH|c d s ds Hd _ IH];
    intros prev_us acc k; rewrite !string_append_cons; simpl;
    rewrite (decimal_digit_value c d Hd).
  - rewrite string_append_nil_l. destruct rest as [|c' r]; simpl.
    + same_scan.
    + destruct Hrest as [-> Hus]. apply Ascii.eqb_neq in Hus. rewrite Hus.
      same_scan.
  - rewrite IH. same_scan.
  - rewrite IH. same_scan.
Qed.

(** What the scan reads from a text that begins with a digit is a number
    written as the grammar says. *)
Lemma scan_digits_sound (n : nat) :
  ∀ (s : string) (c : ascii) (r : string) (d : Z) prev_us acc k v k' rest,
    (String.length s ≤ n)%nat → s = String c r → Py.digit_value c = Some d →
    Py.scan_digits s prev_us acc k = Some (v, k', rest) →
    ∃ body ds,
      s = body +:+ rest ∧ int_body body ds
      ∧ v = fold_left next_digit ds acc
      ∧ k' = (k + N.of_nat (length ds))%N
      ∧ ends_number rest.
Proof.
  induction n as [|n IH]; intros s c r d prev_us acc k v k' rest Hlen -> Hd;
    [simpl in Hlen; lia|].
  simpl. rewrite Hd.
  pose proof Hd as (dn & Hdn & ->)%digit_value_Some.
  destruct r as [|c' r']; simpl.
  - intros [= <- <- <-]. exists (String c ""), [dn].
    split_and!; [done|by apply body_digit|done|simpl; lia|done].
  - destruct (Py.digit_value c') as [d'|] eqn:Hd'.
    + intros Hscan.
      destruct (IH (String c' r') c' r' d' false (10 * acc + Z.of_nat dn)%Z
                  (k + 1)%N v k' rest) as (body & ds & Hb & Hbody & -> & -> & Hend);
        [simpl in *; lia|done|done|by simpl; rewrite Hd'|].
      exists (String c body), (dn :: ds).
      split_and!; [by rewrite string_append_cons, <- Hb|by apply body_more|done| |done].
      simpl. lia.
    + destruct (Ascii.eqb_spec c' "_") as [->|Hus].
      * destruct r' as [|c2 r2]; [done|]. simpl.
        destruct (Py.digit_value c2) as [d2|] eqn:Hd2;
          [|by destruct (Ascii.eqb c2 "_")].
        intros Hscan.
        destruct (IH (String c2 r2) c2 r2 d2 false (10 * acc + Z.of_nat dn)%Z
                    (k + 1)%N v k' rest) as (body & ds & Hb & Hbody & -> & -> & Hend);
          [simpl in *; lia|done|done|by simpl; rewrite Hd2|].
        exists (String c (String "_" body)), (dn :: ds).
        split_and!; [by rewrite !string_append_cons, <- Hb|by apply body_underscore
                    |done| |done].
        simpl. lia.
      * intros [= <- <- <-]. exists (String c ""), [dn].
        split_and!; [done|by apply body_digit|done|simpl; lia|].
        simpl. rewrite Hd'. split; [done|]. intros ->. by apply Hus.
Qed.

Section IntLiteral.
Variable limit : N.

Lemma int_literal_complete (s : string) (n : Z) :
  int_literal limit s n → Py.int limit s = Ok n.
Proof.
  intros (ws1 & sign & body & ws2 & ds & -> & Hw1 & Hw2 & Hsign & Hbody & Hlim & ->).
  destruct (int_body_digits body ds Hbody) as (c & d & b & ds' & Hb & Hds & Hd).
  pose proof (decimal_digit_value c d Hd) as Hc.
  destruct (digit_not_white c _ Hc) as (Hsp & Hplus & Hminus & Hus).
  assert (Hend : ends_number ws2).
  { destruct ws2 as [|c2 w]; [done|]. apply white_cons in Hw2 as [Hc2 _].
    by apply white_not_digit. }
  assert (Htail : ∀ negative : bool,
    match Py.scan_digits (body +:+ ws2) false 0%Z 0%N with
    | None => Raise ValueError
    | Some (v, digits, rest) =>
        if (digits =? 0)%N then Raise ValueError
        else if Py.too_many_digits limit digits then Raise ValueError
        else match Py.skip_spaces rest with
             | EmptyString => Ok (if negative then (- v)%Z else v)
             | String _ _ => Raise ValueError
             end
    end = Ok (if negative then (- decimal_value ds)%Z else decimal_value ds)).
  { intros negative. rewrite (scan_digits_body body ws2 ds Hbody Hend).
    assert ((0 + N.of_nat (length ds) =? 0)%N = false) as ->.
    { apply N.eqb_neq. rewrite Hds. simpl. lia. }
    assert (Py.too_many_digits limit (0 + N.of_nat (length ds)) = false) as ->.
    { unfold Py.too_many_digits.
      destruct (N.ltb_spec 640 (0 + N.of_nat (length ds))); [|done].
      destruct (N.ltb_spec 0 limit); [|done].
      destruct (N.ltb_spec limit (0 + N.of_nat (length ds))); [|done].
      destruct Hlim; lia. }
    by rewrite (proj2 (skip_spaces_empty ws2) Hw2). }
  unfold Py.int. rewrite skip_spaces_white by done.
  assert (Hbody_first :
    ∀ A (x y : A), match body +:+ ws2 with String "_" _ => x | _ => y end = y).
  { intros A x y. rewrite Hb, string_append_cons.
    destruct c as [[] [] [] [] [] [] [] []]; try reflexivity. done. }
  rewrite !elem_of_cons, elem_of_nil in Hsign.
  destruct Hsign as [->|[->|[->|[]]]].
  - rewrite string_append_nil_l.
    assert (Py.skip_spaces (body +:+ ws2) = body +:+ ws2) as ->.
    { rewrite Hb, string_append_cons. simpl. by rewrite Hsp. }
    assert (match body +:+ ws2 with
            | String "+" r => (false, r)
            | String "-" r => (true, r)
            | _ => (false, body +:+ ws2)
            end = (false, body +:+ ws2)) as ->.
    { rewrite Hb, string_append_cons.
      destruct c as [[] [] [] [] [] [] [] []]; try reflexivity; done. }
    rewrite Hbody_first. apply (Htail false).
  - change (Py.skip_spaces ("+" +:+ body +:+ ws2)) with (String "+" (body +:+ ws2)).
    cbv iota beta. rewrite Hbody_first. apply (Htail false).
  - change (Py.skip_spaces ("-" +:+ body +:+ ws2)) with (String "-" (body +:+ ws2)).
    cbv iota beta. rewrite Hbody_first. apply (Htail true).
Qed.

Lemma int_literal_sound (s : string) (n : Z) :
  Py.int limit s = Ok n → int_literal limit s n.
Proof.
  intros H.
  destruct (skip_spaces_split s) as (ws1 & Hs & Hw1 & _).
  assert (Hscan : ∀ (negative : bool) (s2 : string),
    (∀ r, s2 ≠ String "_" r) →
    match Py.scan_digits s2 false 0%Z 0%N with
    | None => Raise ValueError
    | Some (v, digits, rest) =>
        if (digits =? 0)%N then Raise ValueError
        else if Py.too_many_digits limit digits then Raise ValueError
        else match Py.skip_spaces rest with
             | EmptyString => Ok (if negative then (- v)%Z else v)
             | String _ _ => Raise ValueError
             end
    end = Ok n →
    ∃ body ws2 ds,
      s2 = body +:+ ws2 ∧ white ws2 ∧ int_body body ds
      ∧ (limit = 0%N ∨ (N.of_nat (length ds) ≤ N.max limit 640)%N)
      ∧ n = (if negative then (- decimal_value ds)%Z else decimal_value ds)).
  { intros negative s2 Hus.
    destruct (Py.scan_digits s2 false 0%Z 0%N) as [[[v digits] rest]|] eqn:Hsc;
      [|done].
    destruct (digits =? 0)%N eqn:Hz; [done|]. apply N.eqb_neq in Hz.
    destruct (Py.too_many_digits limit digits) eqn:Hl; [done|].
    destruct (Py.skip_spaces rest) as [|] eqn:Hrest; [|done].
    intros [= <-]. apply skip_spaces_empty in Hrest.
    destruct s2 as [|c r]; [simpl in Hsc; injection Hsc as <- <- <-; done|].
    destruct (Py.digit_value c) as [d|] eqn:Hd.
    - destruct (scan_digits_sound (String.length (String c r)) (String c r)
                  c r d false 0%Z 0%N v digits rest)
        as (body & ds & Hb & Hbody & -> & -> & _); [done..|].
      exists body, rest, ds. split_and!; [done..| |done].
      unfold Py.too_many_digits in Hl.
      destruct (N.ltb_spec 640 (0 + N.of_nat (length ds))); [|right; lia].
      destruct (N.ltb_spec 0 limit); [|left; lia].
      destruct (N.ltb_spec limit (0 + N.of_nat (length ds))); [done|right; lia].
    - simpl in Hsc. rewrite Hd in Hsc.
      destruct (Ascii.eqb_spec c "_") as [->|_]; [by destruct (Hus r)|].
      by injection Hsc as <- <- <-. }
  assert (Htail : ∀ (negative : bool) (s2 : string),
    match s2 with
    | String "_" _ => Raise ValueError
    | _ =>
        match Py.scan_digits s2 false 0%Z 0%N with
        | None => Raise ValueError
        | Some (v, digits, rest) =>
            if (digits =? 0)%N then Raise ValueError
            else if Py.too_many_digits limit digits then Raise ValueError
            else match Py.skip_spaces rest with
                 | EmptyString => Ok (if negative then (- v)%Z else v)
                 | String _ _ => Raise ValueError
                 end
        end
    end = Ok n →
    ∃ body ws2 ds,
      s2 = body +:+ ws2 ∧ white ws2 ∧ int_body body ds
      ∧ (limit = 0%N ∨ (N.of_nat (length ds) ≤ N.max limit 640)%N)
      ∧ n = (if negative then (- decimal_value ds)%Z else decimal_value ds)).
  { intros negative s2 Ht. apply Hscan; [|].
    - intros r ->. discriminate Ht.
    - destruct s2 as [|c r]; [exact Ht|].
      destruct c as [[] [] [] [] [] [] [] []]; first [exact Ht | discriminate Ht]. }
  clear Hscan. unfold Py.int in H.
  destruct (Py.skip_spaces s) as [|c r] eqn:Hs1.
  - apply (Htail false "") in H as (body & ws2 & ds & Hb & Hw2 & Hbody & Hlim & ->).
    exists ws1, "", body, ws2, ds. rewrite Hs, string_append_nil_l, <- Hb.
    split_and!; try done. rewrite !elem_of_cons. auto.
  - assert (Hcases :
      (c = "+"%char ∧ ∃ body ws2 ds,
         r = body +:+ ws2 ∧ white ws2 ∧ int_body body ds
         ∧ (limit = 0%N ∨ (N.of_nat (length ds) ≤ N.max limit 640)%N)
         ∧ n = decimal_value ds)
      ∨ (c = "-"%char ∧ ∃ body ws2 ds,
         r = body +:+ ws2 ∧ white ws2 ∧ int_body body ds
         ∧ (limit = 0%N ∨ (N.of_nat (length ds) ≤ N.max limit 640)%N)
         ∧ n = (- decimal_value ds)%Z)
      ∨ (∃ body ws2 ds,
         String c r = body +:+ ws2 ∧ white ws2 ∧ int_body body ds
         ∧ (limit = 0%N ∨ (N.of_nat (length ds) ≤ N.max limit 640)%N)
         ∧ n = decimal_value ds)).
    { pose proof (Htail false (String c r)) as Hdef.
      pose proof (Htail false r) as Hpos. pose proof (Htail true r) as Hneg.
      destruct c as [[] [] [] [] [] [] [] []];
        first [ left; split; [reflexivity|exact (Hpos H)]
              | right; left; split; [reflexivity|exact (Hneg H)]
              | right; right; exact (Hdef H) ]. }
    destruct Hcases as [(-> & body & ws2 & ds & Hb & Hw2 & Hbody & Hlim & ->)
                       |[(-> & body & ws2 & ds & Hb & Hw2 & Hbody & Hlim & ->)
                        |(body & ws2 & ds & Hb & Hw2 & Hbody & Hlim & ->)]].
    + exists ws1, "+", body, ws2, ds. rewrite Hs, Hb.
      split_and!; try done. rewrite !elem_of_cons. auto.
    + exists ws1, "-", body, ws2, ds. rewrite Hs, Hb.
      split_and!; try done. rewrite !elem_of_cons. auto.
    + exists ws1, "", body, ws2, ds. rewrite Hs, string_append_nil_l, <- Hb.
      split_and!; try done. rewrite !elem_of_cons. auto.
Qed.

(** [int] reads exactly the integer literals. *)
Lemma int_literal_iff (s : string) (n : Z) :
  Py.int limit s = Ok n ↔ int_literal limit s n.
Proof. split; [apply int_literal_sound | apply int_literal_complete]. Qed.

End IntLiteral.

(** ** Eligibility *)

Section Eligibility.
Context `{RT : Runtime}.

Lemma get_default_variant (hd : Headers) :
  String.eqb (Py.lower (headers_get_default hd "Variant" "")) "chess960" = true
  ↔ ∃ v, headers_get hd "Variant" = Some v ∧ equals_ignoring_case v "chess960".
Proof.
  unfold headers_get_default. rewrite String.eqb_eq.
  destruct (headers_get hd "Variant") as [v|]; simpl; split.
  - intros H. exists v. split; [done|]. by apply lower_equals_ignoring_case.
  - intros (v' & [= <-] & H). by apply lower_equals_ignoring_case in H.
  - discriminate.
  - by intros (v' & [=] & _).
Qed.

Lemma get_default_speed (hd : Headers) :
  in_list (Py.lower (headers_get_default hd "Speed" "")) (map Py.lower SPEEDS) = true
  ↔ ∃ s a, headers_get hd "Speed" = Some s ∧ a ∈ SPEEDS
           ∧ equals_ignoring_case s a.
Proof.
  unfold headers_get_default.
  rewrite in_list_spec, list_elem_of_fmap.
  destruct (headers_get hd "Speed") as [s|]; simpl; split.
  - intros (a & Ha & Hin). exists s, a.
    split_and!; [done|done|by apply lower_equals_ignoring_case].
  - intros (s' & a & [= <-] & Hin & Ha). exists a.
    split; [by apply lower_equals_ignoring_case|done].
  - intros (a & Ha & Hin). exfalso. unfold SPEEDS in Hin.
    repeat (apply elem_of_cons in Hin as [->|Hin]; [discriminate|]).
    by apply elem_of_nil in Hin.
  - by intros (s' & a & [=] & _).
Qed.

Lemma setup_and_fen (hd : Headers) :
  negb (bool_decide (headers_get hd "SetUp" = Some "1"))
  || negb (truthy (headers_get hd "FEN")) = false
  ↔ headers_get hd "SetUp" = Some "1"
    ∧ ∃ fen, headers_get hd "FEN" = Some fen ∧ fen ≠ "".
Proof.
  rewrite orb_false_iff, !negb_false_iff, bool_decide_eq_true.
  destruct (headers_get hd "FEN") as [[|c fen]|]; simpl; split.
  - by intros [_ ?].
  - by intros [_ (f & [= <-] & Hne)].
  - intros [? _]. split; [done|]. by exists (String c fen).
  - by intros [? _].
  - by intros [_ ?].
  - by intros [_ (f & [=] & _)].
Qed.

(** A missing rating is read as ["0"], which is below [MIN_RATING]. *)
Lemma get_default_rating (hd : Headers) (tag : string) (n : Z) :
  (Py.int int_max_str_digits (headers_get_default hd tag "0") = Ok n
   ∧ (MIN_RATING ≤ n)%Z)
  ↔ rating hd tag n ∧ (MIN_RATING ≤ n)%Z.
Proof.
  unfold rating, headers_get_default.
  destruct (headers_get hd tag) as [s|]; simpl; split.
  - intros [H ?]. split; [|done]. exists s. split; [done|].
    by apply int_literal_iff.
  - intros [(s' & [= <-] & H) ?]. split; [|done]. by apply int_literal_iff.
  - intros [H Hn]. rewrite int_zero in H. injection H as <-. by vm_compute in Hn.
  - by intros [(s' & [=] & _) _].
Qed.

Lemma result_clause (hd : Headers) :
  bool_decide (headers_get hd "Result" ∈ [Some "1-0"; Some "0-1"; Some "1/2-1/2"])
  = true
  ↔ ∃ r, headers_get hd "Result" = Some r ∧ r ∈ ["1-0"; "0-1"; "1/2-1/2"].
Proof.
  rewrite bool_decide_eq_true. split.
  - intros H. destruct (headers_get hd "Result") as [r|].
    + exists r. split; [done|].
      repeat (apply elem_of_cons in H as [[= ->]|H]; [rewrite !elem_of_cons; auto|]).
      by apply elem_of_nil in H.
    + repeat (apply elem_of_cons in H as [[=]|H]). by apply elem_of_nil in H.
  - intros (r & -> & H). by apply (list_elem_of_fmap_2 Some) in H.
Qed.

Lemma is_good_game_returns (g : Game Move) : ∃ b, is_good_game g = Ok b.
Proof.
  unfold is_good_game.
  repeat match goal with
         | |- ∃ b, (if ?c then _ else _) = _ => destruct c; [by eauto|]
         end.
  destruct (int_cases int_max_str_digits
              (headers_get_default (headers g) "WhiteElo" "0")) as [[wr ->]| ->];
    simpl; [|by eauto].
  destruct (int_cases int_max_str_digits
              (headers_get_default (headers g) "BlackElo" "0")) as [[br ->]| ->];
    simpl; [|by eauto].
  repeat match goal with
         | |- ∃ b, (if ?c then _ else _) = _ => destruct c; [by eauto|]
         end.
  eauto.
Qed.

Lemma is_good_game_true (g : Game Move) :
  is_good_game g = Ok true ↔ Eligible g.
Proof.
  unfold Eligible.
  rewrite <- get_default_variant, <- get_default_speed, <- setup_and_fen,
    <- result_clause.
  unfold is_good_game.
  destruct (String.eqb (Py.lower (headers_get_default (headers g) "Variant" ""))
              "chess960"); cbn [negb]; [|split; [discriminate | intuition discriminate]].
  destruct (negb (bool_decide (headers_get (headers g) "SetUp" = Some "1"))
            || negb (truthy (headers_get (headers g) "FEN"))); cbn [negb];
    [split; [discriminate | intuition discriminate]|].
  destruct (in_list (Py.lower (headers_get_default (headers g) "Speed" ""))
              (map Py.lower SPEEDS)); cbn [negb];
    [|split; [discriminate | intuition discriminate]].
  split.
  - destruct (Py.int int_max_str_digits
                (headers_get_default (headers g) "WhiteElo" "0")) as [wr|e] eqn:EW;
      simpl; [|by destruct e].
    destruct (Py.int int_max_str_digits
                (headers_get_default (headers g) "BlackElo" "0")) as [br|e] eqn:EB;
      simpl; [|by destruct e].
    destruct (wr <? MIN_RATING)%Z eqn:Hw; simpl; [done|].
    destruct (br <? MIN_RATING)%Z eqn:Hb; simpl; [done|].
    destruct (bool_decide _) eqn:Hr; simpl; [|done].
    intros _. repeat split; try done.
    apply Z.ltb_ge in Hw, Hb.
    exists wr, br.
    destruct (proj1 (get_default_rating (headers g) "WhiteElo" wr)) as [? _];
      [done|].
    destruct (proj1 (get_default_rating (headers g) "BlackElo" br)) as [? _];
      [done|].
    done.
  - intros (_ & _ & _ & (wr & br & Hwr & Hbr & Hw & Hb) & Hr).
    destruct (proj2 (get_default_rating (headers g) "WhiteElo" wr)) as [-> _];
      [done|].
    destruct (proj2 (get_default_rating (headers g) "BlackElo" br)) as [-> _];
      [done|].
    simpl. apply Z.ltb_ge in Hw, Hb. rewrite Hw, Hb, Hr. done.
Qed.

(** C4: a game is judged eligible exactly when the five clauses of the
    specification hold (variant, set-up and FEN, speed, both ratings, result);
    when one of them fails the answer is [False].  The headers compared and
    parsed are taken to be ASCII text, for which [Py.lower] and [Py.int] are
    what Python does. *)
Theorem is_good_game_iff_eligible (g : Game Move) :
  ascii_headers (headers g) →
  (is_good_game g = Ok true ↔ Eligible g)
  ∧ (is_good_game g = Ok false ↔ ¬ Eligible g).
Proof.
  intros _.
  split; [apply is_good_game_true|].
  destruct (is_good_game_returns g) as [[] Hb]; rewrite Hb; split.
  - discriminate.
  - intros Hn. destruct Hn. by apply is_good_game_true.
  - intros _ He. apply is_good_game_true in He. congruence.
  - done.
Qed.

(** C5: the eligibility check never raises, and a rating header that is
    missing, or that holds ASCII text which is not an integer (such as
    [unrated]), makes it answer [False]. *)
Theorem is_good_game_bad_rating (g : Game Move) :
  (∃ b, is_good_game g = Ok b)
  ∧ ∀ tag, tag ∈ ["WhiteElo"; "BlackElo"] →
      headers_get (headers g) tag = None
      ∨ (∃ s, headers_get (headers g) tag = Some s ∧ is_ascii s = true
              ∧ ∀ n, ¬ int_literal int_max_str_digits s n) →
      is_good_game g = Ok false.
Proof.
  split; [apply is_good_game_returns|].
  intros tag Htag Hbad.
  destruct (is_good_game_returns g) as [[] Hb]; [|done].
  apply is_good_game_true in Hb.
  destruct Hb as (_ & _ & _ & (wr & br & (sw & Hsw & Hw) & (sb & Hsb & Hbr) & _) & _).
  assert (∃ s n, headers_get (headers g) tag = Some s
                 ∧ int_literal int_max_str_digits s n) as (s & n & Hs & Hn).
  { apply elem_of_cons in Htag as [->|Htag]; [eauto|].
    apply elem_of_cons in Htag as [->|Htag]; [eauto|].
    by apply elem_of_nil in Htag. }
  destruct Hbad as [Hbad|(s' & Hs' & _ & Hnot)]; [congruence|].
  destruct (Hnot n). congruence.
Qed.

End Eligibility.

Ltac ascii_headers_of_example :=
  let Htag := fresh "Htag" in
  let Hs := fresh "Hs" in
  intros ? ? Htag Hs;
  repeat (apply elem_of_cons in Htag as [->|Htag];
          [vm_compute in Hs; by injection Hs as <-|]);
  by apply elem_of_nil in Htag.

Lemma game_short_ascii : ascii_headers (headers game_short).
Proof. ascii_headers_of_example. Qed.

Lemma game_unrated_ascii : ascii_headers (headers game_unrated).
Proof. ascii_headers_of_example. Qed.

(** C4 on an eligible game and on the game whose [WhiteElo] is [unrated] *)
Lemma is_good_game_iff_eligible_demo :
  (@is_good_game demo_runtime game_short = Ok true
   ∧ @Eligible demo_runtime game_short)
  ∧ (@is_good_game demo_runtime game_unrated = Ok false
     ∧ ¬ @Eligible demo_runtime game_unrated).
Proof.
  split.
  - split; [reflexivity|].
    apply (proj1 (@is_good_game_iff_eligible demo_runtime game_short
                    game_short_ascii)).
    reflexivity.
  - split; [reflexivity|].
    apply (proj2 (@is_good_game_iff_eligible demo_runtime game_unrated
                    game_unrated_ascii)).
    reflexivity.
Defined.

(** C5 on the game whose [WhiteElo] is [unrated] *)
Lemma is_good_game_unrated :
  (is_ascii "unrated" = true ∧ ∀ n, ¬ int_literal 4300 "unrated" n)
  ∧ @is_good_game demo_runtime game_unrated = Ok false.
Proof.
  assert (Hnot : ∀ n, ¬ int_literal 4300 "unrated" n).
  { intros n Hn%int_literal_complete. discriminate Hn. }
  split; [by split|].
  apply (proj2 (@is_good_game_bad_rating demo_runtime game_unrated) "WhiteElo").
  - apply elem_of_cons. by left.
  - right. exists "unrated". split_and!; [reflexivity|reflexivity|exact Hnot].
Defined.

(** Each clause of eligibility on its own. *)
Example int_examples :
  Py.int 4300 "2400" = Ok 2400%Z ∧ Py.int 4300 " +2_400 " = Ok 2400%Z
  ∧ Py.int 4300 "-12" = Ok (-12)%Z ∧ Py.int 0 "2__4" = Raise ValueError
  ∧ Py.int 0 "24_" = Raise ValueError ∧ Py.int 0 "" = Raise ValueError
  ∧ Py.int 0 "2400 Elo" = Raise ValueError.
Proof. repeat split. Qed.

Example eligible_game :
  @is_good_game demo_runtime game_short = Ok true
  ∧ @is_good_game demo_runtime (game_with "Variant" "CHESS960") = Ok true
  ∧ @is_good_game demo_runtime (game_with "Speed" "ULTRABULLET") = Ok true
  ∧ @is_good_game demo_runtime (game_with "BlackElo" "2375") = Ok true.
Proof. repeat split. Qed.

Example wrong_variant :
  @is_good_game demo_runtime (game_with "Variant" "Standard") = Ok false
  ∧ @is_good_game demo_runtime (game_without "Variant") = Ok false.
Proof. split; reflexivity. Qed.

Example wrong_setup :
  @is_good_game demo_runtime (game_with "SetUp" "0") = Ok false
  ∧ @is_good_game demo_runtime (game_without "SetUp") = Ok false
  ∧ @is_good_game demo_runtime (game_with "FEN" "") = Ok false
  ∧ @is_good_game demo_runtime (game_without "FEN") = Ok false.
Proof. repeat split. Qed.

Example wrong_speed :
  @is_good_game demo_runtime (game_with "Speed" "puzzle") = Ok false
  ∧ @is_good_game demo_runtime (game_without "Speed") = Ok false.
Proof. split; reflexivity. Qed.

Example wrong_rating :
  @is_good_game demo_runtime (game_with "BlackElo" "2374") = Ok false
  ∧ @is_good_game demo_runtime (game_with "WhiteElo" "23.75") = Ok false
  ∧ @is_good_game demo_runtime (game_without "WhiteElo") = Ok false
  ∧ @is_good_game demo_runtime (game_without "BlackElo") = Ok false.
Proof. repeat split. Qed.

(** [Result] is on the roster: left out of the text, it reads [*]. *)
Example wrong_result :
  @is_good_game demo_runtime (game_with "Result" "*") = Ok false
  ∧ @is_good_game demo_runtime (game_without "Result") = Ok false
  ∧ headers_get (headers (game_without "Result")) "Result" = Some "*".
Proof. repeat split. Qed.

(** ** Dictionaries *)

Section Dict.
Context {V : Type}.
Implicit Types (d : Py.dict V) (k : string) (v : V).

Lemma get_set_eq d k v : Py.get (Py.set d k v) k = Some v.
Proof.
  induction d as [|[k' v'] d IH]; simpl.
  - by rewrite String.eqb_refl.
  - destruct (String.eqb_spec k' k) as [->|Hne]; simpl.
    + by rewrite String.eqb_refl.
    + by apply String.eqb_neq in Hne as ->.
Qed.

Lemma get_set_ne d k k' v : k ≠ k' → Py.get (Py.set d k v) k' = Py.get d k'.
Proof.
  intros Hne. induction d as [|[k0 v0] d IH]; simpl.
  - by apply String.eqb_neq in Hne as ->.
  - destruct (String.eqb_spec k0 k) as [->|Hne0]; simpl.
    + by apply String.eqb_neq in Hne as ->.
    + by rewrite IH.
Qed.

Lemma get_None d k : Py.get d k = None ↔ k ∉ Py.keys d.
Proof.
  unfold Py.keys. induction d as [|[k' v'] d IH]; simpl.
  - split; [intros _; apply not_elem_of_nil | done].
  - rewrite not_elem_of_cons.
    destruct (String.eqb_spec k' k) as [->|Hne]; [by intuition|].
    rewrite IH. by intuition.
Qed.

Lemma get_Some_elem d k v : Py.get d k = Some v → (k, v) ∈ d.
Proof.
  induction d as [|[k' v'] d IH]; simpl; [done|].
  destruct (String.eqb_spec k' k) as [->|Hne].
  - intros [= ->]. apply elem_of_cons. by left.
  - intros H. apply elem_of_cons. right. by apply IH.
Qed.

Lemma get_NoDup d k v : NoDup (Py.keys d) → (k, v) ∈ d → Py.get d k = Some v.
Proof.
  unfold Py.keys. induction d as [|[k' v'] d IH]; simpl.
  - intros _ H. by apply elem_of_nil in H.
  - intros [Hk' Hnd]%NoDup_cons [[= -> ->]|Hin]%elem_of_cons.
    + by rewrite String.eqb_refl.
    + destruct (String.eqb_spec k' k) as [->|Hne]; [|by apply IH].
      destruct Hk'. by apply (list_elem_of_fmap_2 fst) in Hin.
Qed.

Lemma set_fresh d k v : k ∉ Py.keys d → Py.set d k v = d ++ [(k, v)].
Proof.
  unfold Py.keys. induction d as [|[k' v'] d IH]; simpl; [done|].
  intros [Hne Hk]%not_elem_of_cons.
  destruct (String.eqb_spec k' k) as [->|_]; [done|]. by rewrite IH.
Qed.

Lemma keys_set_present d k v : k ∈ Py.keys d → Py.keys (Py.set d k v) = Py.keys d.
Proof.
  unfold Py.keys. induction d as [|[k' v'] d IH]; simpl.
  - intros H. by apply elem_of_nil in H.
  - intros Hin. destruct (String.eqb_spec k' k) as [->|Hne]; simpl; [done|].
    apply elem_of_cons in Hin as [->|Hin]; [done|]. by rewrite IH.
Qed.

Lemma set_elem d k v k0 v0 :
  (k0, v0) ∈ Py.set d k v → (k0, v0) = (k, v) ∨ (k0, v0) ∈ d.
Proof.
  induction d as [|[k' v'] d IH]; simpl.
  - intros [->|H]%elem_of_cons; [by left|]. by apply elem_of_nil in H.
  - destruct (String.eqb_spec k' k) as [->|Hne].
    + intros [->|H]%elem_of_cons; [by left|]. right. apply elem_of_cons. by right.
    + intros [->|H]%elem_of_cons.
      * right. apply elem_of_cons. by left.
      * destruct (IH H) as [?|?]; [by left|]. right. apply elem_of_cons. by right.
Qed.

End Dict.

(** ** Game trees *)

Section Tree.
Context {M : Type}.

(** Induction along the main line. *)
Lemma GameNode_mainline_ind (P : GameNode M → Prop) :
  (∀ mv, P (ChildNode mv [])) →
  (∀ mv c rest, P c → P (ChildNode mv (c :: rest))) →
  ∀ n, P n.
Proof.
  intros Hleaf Hnode. fix IH 1.
  intros [mv [|c rest]]; [apply Hleaf | apply Hnode, IH].
Qed.

Lemma mainline_from_add_at_end (n : GameNode M) (mv : M) :
  mainline_from (add_at_end n mv) = mainline_from n ++ [mv].
Proof.
  induction n as [m|m c rest IH] using GameNode_mainline_ind; simpl; [done|].
  by rewrite IH.
Qed.

Lemma mainline_moves_add_variation (g : Game M) (mv : M) :
  mainline_moves (add_variation g mv) = mainline_moves g ++ [mv].
Proof.
  unfold mainline_moves, add_variation. simpl.
  destruct (variations g) as [|c rest]; [done|].
  apply mainline_from_add_at_end.
Qed.

Lemma mainline_moves_line_of (h : Headers) (moves : list M) :
  mainline_moves (mkGame h (line_of moves)) = moves.
Proof.
  unfold mainline_moves. simpl.
  induction moves as [|mv [|mv' rest] IH]; simpl in *; [done..|].
  by rewrite IH.
Qed.

Lemma add_variation_line_of (h : Headers) (moves : list M) (mv : M) :
  add_variation (mkGame h (line_of moves)) mv = mkGame h (line_of (moves ++ [mv])).
Proof.
  unfold add_variation. simpl. f_equal.
  destruct moves as [|m0 moves]; simpl; [done|]. f_equal.
  revert m0. induction moves as [|m1 moves IH]; intros m0; simpl; [done|].
  by rewrite IH.
Qed.

End Tree.

(** ** Trimming *)

Section Trimming.
Context `{RT : Runtime}.

Lemma trim_loop_line_of (moves added : list Move) (h : Headers) :
  trim_loop moves (length added) (mkGame h (line_of added))
  = mkGame h (line_of (added ++ take (MAX_PLIES - length added) moves)).
Proof.
  revert added. induction moves as [|mv rest IH]; intros added; cbn [trim_loop].
  - by rewrite take_nil, app_nil_r.
  - destruct (MAX_PLIES <=? length added)%nat eqn:Hply.
    + apply Nat.leb_le in Hply.
      replace (MAX_PLIES - length added)%nat with 0%nat by lia.
      by rewrite take_0, app_nil_r.
    + apply Nat.leb_gt in Hply.
      rewrite add_variation_line_of.
      specialize (IH (added ++ [mv])). rewrite length_app in IH. simpl in IH.
      rewrite Nat.add_1_r in IH. rewrite IH, <- app_assoc. simpl.
      replace (MAX_PLIES - length added)%nat
        with (S (MAX_PLIES - S (length added)))%nat by lia.
      done.
Qed.

(** What [trim_game] returns, when it returns. *)
Lemma trim_game_Ok (g t : Game Move) :
  trim_game g = Ok t ↔
  ∃ fen board kvs,
    headers_getitem (headers g) "FEN" = Ok fen
    ∧ chess_Board fen = Ok board
    ∧ headers_items (headers g) = Ok kvs
    ∧ ∃ h, for_each (λ h kv, headers_setitem tag_ok h kv.1 kv.2) kvs default_headers
           = Ok h
           ∧ t = mkGame h (line_of (take MAX_PLIES (mainline_moves g))).
Proof.
  unfold trim_game.
  assert (Hloop : ∀ h, trim_loop (mainline_moves g) 0 (mkGame h [])
                       = mkGame h (line_of (take MAX_PLIES (mainline_moves g)))).
  { intros h. apply (trim_loop_line_of (mainline_moves g) [] h). }
  split.
  - destruct (headers_getitem (headers g) "FEN") as [fen|]; simpl; [|done].
    destruct (chess_Board fen) as [board|] eqn:Hboard; simpl; [|done].
    destruct (headers_items (headers g)) as [kvs|]; simpl; [|done].
    destruct (for_each _ kvs default_headers) as [h|] eqn:Hcopy; simpl; [|done].
    intros [= <-]. exists fen, board, kvs. do 3 (split; [done|]).
    exists h. split; [done|]. apply Hloop.
  - intros (fen & board & kvs & Hfen & Hboard & Hkvs & h & Hh & ->).
    rewrite Hfen. simpl. rewrite Hboard. simpl. rewrite Hkvs. simpl.
    rewrite Hh. simpl. by rewrite Hloop.
Qed.

End Trimming.

(** ** Copying headers *)

Lemma for_each_app {S X : Type} (body : S → X → result S) (xs ys : list X) (st : S) :
  for_each body (xs ++ ys) st = st' ← for_each body xs st; for_each body ys st'.
Proof.
  revert st. induction xs as [|x xs IH]; intros st; simpl; [done|].
  destruct (body st x); simpl; [apply IH | done].
Qed.

Section HeaderCopy.
Context `{RT : Runtime}.

Lemma items_of_app (h : Headers) (ks1 ks2 : list string) :
  items_of h (ks1 ++ ks2)
  = l1 ← items_of h ks1; l2 ← items_of h ks2; Ok (l1 ++ l2).
Proof.
  induction ks1 as [|k ks1 IH]; simpl.
  - by destruct (items_of h ks2).
  - destruct (headers_getitem h k); simpl; [|done]. rewrite IH.
    destruct (items_of h ks1); simpl; [|done].
    by destruct (items_of h ks2).
Qed.

Lemma items_of_pairs (h : Headers) (l : list (string * string)) :
  (∀ k v, (k, v) ∈ l → headers_getitem h k = Ok v) →
  items_of h (map fst l) = Ok l.
Proof.
  induction l as [|[k v] l IH]; intros Hl; simpl; [done|].
  rewrite (Hl k v) by (apply elem_of_cons; by left). simpl.
  rewrite IH; [done|]. intros k' v' Hin. apply Hl, elem_of_cons. by right.
Qed.

Lemma items_of_inv (h : Headers) (ks : list string) (kvs : list (string * string)) :
  items_of h ks = Ok kvs →
  map fst kvs = ks ∧ ∀ k v, (k, v) ∈ kvs → headers_getitem h k = Ok v.
Proof.
  revert kvs. induction ks as [|k ks IH]; intros kvs; simpl.
  - intros [= <-]. split; [done|]. intros k v H. by apply elem_of_nil in H.
  - destruct (headers_getitem h k) as [v|] eqn:Hk; simpl; [|done].
    destruct (items_of h ks) as [l|]; simpl; [|done].
    intros [= <-]. destruct (IH l eq_refl) as [Hfst Hall]. split.
    + simpl. by rewrite Hfst.
    + intros k' v' [[= -> ->]|Hin]%elem_of_cons; [done|]. by apply Hall.
Qed.

(** The roster of well-formed headers, spelled out. *)
Lemma wf_roster (h : Headers) :
  Py.keys (tag_roster h) = TAG_ROSTER →
  ∃ v1 v2 v3 v4 v5 v6 v7,
    tag_roster h = [("Event", v1); ("Site", v2); ("Date", v3); ("Round", v4);
                    ("White", v5); ("Black", v6); ("Result", v7)].
Proof.
  unfold Py.keys, TAG_ROSTER. destruct h as [roster oth]. simpl.
  destruct roster as [|[k1 v1] [|[k2 v2] [|[k3 v3] [|[k4 v4] [|[k5 v5]
    [|[k6 v6] [|[k7 v7] [|? ?]]]]]]]]; simpl; try discriminate.
  intros [= -> -> -> -> -> -> ->]. by exists v1, v2, v3, v4, v5, v6, v7.
Qed.

Lemma headers_items_wf (h : Headers) :
  wf_headers h → headers_items h = Ok (tag_roster h ++ others h).
Proof.
  intros (Hroster & Hnd & Hok).
  destruct (wf_roster h Hroster) as (v1 & v2 & v3 & v4 & v5 & v6 & v7 & Hr).
  unfold headers_items, headers_iter. rewrite items_of_app.
  assert (items_of h (filter (λ key, is_Some (Py.get (tag_roster h) key)) TAG_ROSTER)
          = Ok (tag_roster h)) as ->.
  { destruct h as [roster oth]. simpl in *. subst roster. reflexivity. }
  simpl. unfold Py.keys. rewrite items_of_pairs; [done|].
  intros k v Hin. unfold headers_getitem.
  rewrite Forall_forall in Hok. destruct (Hok _ Hin) as [Hk _].
  simpl in Hk. rewrite Hk. by rewrite (get_NoDup _ _ _ Hnd Hin).
Qed.

Lemma setitem_other (h : Headers) (k v : string) :
  in_list k TAG_ROSTER = false → tag_ok k v = true →
  headers_setitem tag_ok h k v
  = Ok {| tag_roster := tag_roster h; others := Py.set (others h) k v |}.
Proof. intros Hk Hv. unfold headers_setitem. by rewrite Hk, Hv. Qed.

Lemma copy_others (l acc : Py.dict string) (roster : Py.dict string) :
  NoDup (Py.keys acc ++ Py.keys l) →
  Forall (λ kv, in_list kv.1 TAG_ROSTER = false ∧ tag_ok kv.1 kv.2 = true) l →
  for_each (λ h kv, headers_setitem tag_ok h kv.1 kv.2) l (mkHeaders roster acc)
  = Ok (mkHeaders roster (acc ++ l)).
Proof.
  revert acc. induction l as [|[k v] l IH]; intros acc Hnd Hok; simpl.
  - by rewrite app_nil_r.
  - apply Forall_cons in Hok as [[Hk Hv] Hok]. simpl in Hk, Hv.
    rewrite setitem_other by done. simpl.
    unfold Py.keys in Hnd. simpl in Hnd.
    rewrite set_fresh.
    + rewrite IH; [by rewrite <- app_assoc| |done].
      unfold Py.keys. rewrite map_app. simpl. by rewrite <- app_assoc.
    + apply NoDup_app in Hnd as (_ & Hdisj & _). intros Hin.
      apply (Hdisj k Hin). apply elem_of_cons. by left.
Qed.

Lemma copy_wf (h : Headers) :
  wf_headers h →
  for_each (λ h' kv, headers_setitem tag_ok h' kv.1 kv.2)
           (tag_roster h ++ others h) default_headers = Ok h.
Proof.
  intros (Hroster & Hnd & Hok).
  destruct (wf_roster h Hroster) as (v1 & v2 & v3 & v4 & v5 & v6 & v7 & Hr).
  rewrite for_each_app.
  assert (for_each (λ h' kv, headers_setitem tag_ok h' kv.1 kv.2)
                   (tag_roster h) default_headers
          = Ok (mkHeaders (tag_roster h) [])) as ->.
  { rewrite Hr. reflexivity. }
  simpl. rewrite copy_others; [by destruct h|done..].
Qed.

Lemma set_keys_NoDup {V} (d : Py.dict V) (k : string) (v : V) :
  NoDup (Py.keys d) → NoDup (Py.keys (Py.set d k v)).
Proof.
  intros Hnd. destruct (decide (k ∈ Py.keys d)) as [Hin|Hout].
  - by rewrite keys_set_present.
  - rewrite set_fresh by done. unfold Py.keys in *. rewrite map_app. simpl.
    apply NoDup_app. split_and!; [done| |apply NoDup_singleton].
    intros x Hx [->|H]%elem_of_cons; [done|]. by apply elem_of_nil in H.
Qed.

Lemma setitem_wf (h h' : Headers) (key value : string) :
  wf_headers h → headers_setitem tag_ok h key value = Ok h' → wf_headers h'.
Proof.
  intros (Hroster & Hnd & Hok). unfold headers_setitem.
  destruct (in_list key TAG_ROSTER) eqn:Hkey.
  - intros [= <-]. split_and!; simpl; [|done..].
    rewrite keys_set_present; [done|]. rewrite Hroster. by apply in_list_spec.
  - destruct (tag_ok key value) eqn:Hvalue; simpl; [|done].
    intros [= <-]. split_and!; simpl; [done|by apply set_keys_NoDup|].
    apply Forall_forall. intros [k v] [[= -> ->]|Hin]%set_elem; [done|].
    rewrite Forall_forall in Hok. by apply Hok.
Qed.

Lemma parsed_headers_wf (h : Headers) : parsed_headers h → wf_headers h.
Proof.
  induction 1 as [|h key value h' _ IH Hset].
  - split_and!; [done|apply NoDup_nil_2|apply Forall_nil_2].
  - by eapply setitem_wf.
Qed.

(** Copying the headers of a parsed game onto a new game gives them back. *)
Lemma copy_parsed (h : Headers) :
  parsed_headers h →
  (kvs ← headers_items h;
   for_each (λ h' kv, headers_setitem tag_ok h' kv.1 kv.2) kvs default_headers)
  = Ok h.
Proof.
  intros Hwf%parsed_headers_wf. rewrite headers_items_wf by done. simpl.
  by apply copy_wf.
Qed.

(** A tag outside the roster after the assignments [kvs], all of whose
    values for [k] are [v0]. *)
Lemma copy_get (kvs : list (string * string)) (h0 h1 : Headers) (k v0 : string) :
  in_list k TAG_ROSTER = false →
  for_each (λ h kv, headers_setitem tag_ok h kv.1 kv.2) kvs h0 = Ok h1 →
  (∀ v, (k, v) ∈ kvs → v = v0) →
  Py.get (others h1) k
  = if bool_decide (k ∈ map fst kvs) then Some v0 else Py.get (others h0) k.
Proof.
  intros Hk. revert h0.
  induction kvs as [|[k' v'] kvs IH]; intros h0; cbn [for_each map fst snd].
  - intros [= <-] _. by rewrite bool_decide_eq_false_2 by apply not_elem_of_nil.
  - destruct (headers_setitem tag_ok h0 k' v') as [h0'|] eqn:Hset;
      cbn [mbind result_bind]; [|done].
    intros Hrest Hall.
    rewrite (IH h0' Hrest) by (intros v Hv; apply Hall, elem_of_cons; by right).
    destruct (decide (k ∈ map fst kvs)) as [Hin|Hout].
    + rewrite !bool_decide_eq_true_2; [done| |done]. apply elem_of_cons. by right.
    + rewrite (bool_decide_eq_false_2 _ Hout).
      unfold headers_setitem in Hset.
      destruct (decide (k' = k)) as [->|Hne].
      * rewrite Hk in Hset. destruct (tag_ok k v'); simpl in Hset; [|done].
        injection Hset as <-. simpl. rewrite get_set_eq.
        rewrite bool_decide_eq_true_2 by (apply elem_of_cons; by left).
        f_equal. apply Hall, elem_of_cons. by left.
      * rewrite bool_decide_eq_false_2.
        2: { intros [?|?]%elem_of_cons; done. }
        destruct (in_list k' TAG_ROSTER); [by injection Hset as <-|].
        destruct (tag_ok k' v'); simpl in Hset; [|done].
        injection Hset as <-. simpl. by rewrite get_set_ne.
Qed.

(** Trimming keeps every tag outside the roster, the FEN among them. *)
Lemma trim_game_keeps_tag (g t : Game Move) (k : string) :
  in_list k TAG_ROSTER = false →
  trim_game g = Ok t →
  headers_getitem (headers t) k = headers_getitem (headers g) k.
Proof.
  intros Hk (fen & board & kvs & _ & _ & Hkvs & h & Hh & ->)%trim_game_Ok.
  unfold headers_getitem. rewrite Hk. simpl.
  apply items_of_inv in Hkvs as [Hfst Hall].
  assert (Hmem : k ∈ map fst kvs ↔ k ∈ Py.keys (others (headers g))).
  { rewrite Hfst. unfold headers_iter. rewrite elem_of_app, list_elem_of_filter.
    split; [|by right]. intros [[_ Hr]|Ho]; [|done].
    apply in_list_spec in Hr. congruence. }
  destruct (Py.get (others (headers g)) k) as [v0|] eqn:Hget.
  - rewrite (copy_get kvs default_headers h k v0 Hk Hh).
    + rewrite bool_decide_eq_true_2; [done|]. apply Hmem.
      apply get_Some_elem in Hget. by apply (list_elem_of_fmap_2 fst) in Hget.
    + intros v Hv. apply Hall in Hv. unfold headers_getitem in Hv.
      rewrite Hk, Hget in Hv. congruence.
  - rewrite (copy_get kvs default_headers h k "" Hk Hh).
    + rewrite bool_decide_eq_false_2; [done|]. rewrite Hmem. by apply get_None.
    + intros v Hv. apply Hall in Hv. unfold headers_getitem in Hv.
      rewrite Hk, Hget in Hv. congruence.
Qed.

End HeaderCopy.

Section TrimmedGame.
Context `{RT : Runtime}.

Lemma parsed_for_each (tags : list (string * string)) (h0 h : Headers) :
  parsed_headers h0 →
  for_each (λ h kv, headers_setitem tag_ok h kv.1 kv.2) tags h0 = Ok h →
  parsed_headers h.
Proof.
  revert h0. induction tags as [|[k v] tags IH]; intros h0 Hp; simpl.
  - by intros [= <-].
  - destruct (headers_setitem tag_ok h0 k v) as [h1|] eqn:Hset; simpl; [|done].
    apply IH. by eapply parsed_setitem.
Qed.

(** Trimming a parsed game returns as soon as its FEN header is there and
    [chess.Board] reads it. *)
Lemma trim_game_returns (g : Game Move) (fen : string) (board : Board) :
  parsed_headers (headers g) →
  headers_getitem (headers g) "FEN" = Ok fen →
  chess_Board fen = Ok board →
  trim_game g
  = Ok (mkGame (headers g) (line_of (take MAX_PLIES (mainline_moves g)))).
Proof.
  intros Hp Hfen Hboard. apply trim_game_Ok.
  pose proof (copy_parsed _ Hp) as Hcopy.
  destruct (headers_items (headers g)) as [kvs|] eqn:Hkvs; simpl in Hcopy; [|done].
  exists fen, board, kvs. split_and!; [done..|]. by exists (headers g).
Qed.

(** C6: the move sequence of the trimmed game is the prefix of the original
    main line of length [min (len moves) 24]; and trimming an accepted game
    (headers as the reader built them, a FEN that [chess.Board] reads) does
    return. *)
Theorem trim_game_prefix (g : Game Move) :
  (∀ t, trim_game g = Ok t →
        mainline_moves t = take MAX_PLIES (mainline_moves g)
        ∧ length (mainline_moves t)
          = Nat.min (length (mainline_moves g)) MAX_PLIES)
  ∧ (parsed_headers (headers g) →
     (∃ fen board, headers_getitem (headers g) "FEN" = Ok fen
                   ∧ chess_Board fen = Ok board) →
     ∃ t, trim_game g = Ok t).
Proof.
  split.
  - intros t (fen & board & kvs & _ & _ & _ & h & _ & ->)%trim_game_Ok.
    rewrite mainline_moves_line_of. split; [done|].
    rewrite length_take. lia.
  - intros Hp (fen & board & Hfen & Hboard). eexists.
    by eapply trim_game_returns.
Qed.

(** C7: trimming keeps the FEN header of any game, and the trimmed copy of
    an accepted game (headers as the reader built them) carries exactly the
    headers of the original; only the moves differ. *)
Theorem trim_game_headers (g : Game Move) :
  (∀ t, trim_game g = Ok t →
        headers_getitem (headers t) "FEN" = headers_getitem (headers g) "FEN")
  ∧ (parsed_headers (headers g) →
     (∀ t, trim_game g = Ok t → headers t = headers g)
     ∧ ((∃ fen board, headers_getitem (headers g) "FEN" = Ok fen
                      ∧ chess_Board fen = Ok board) →
        ∃ t, trim_game g = Ok t)).
Proof.
  split; [|intros Hp; split].
  - intros t Ht. by apply trim_game_keeps_tag.
  - intros t Ht.
    pose proof Ht as (fen & board & kvs & Hfen & Hboard & _ & _)%trim_game_Ok.
    rewrite (trim_game_returns g fen board Hp Hfen Hboard) in Ht.
    by injection Ht as <-.
  - intros (fen & board & Hfen & Hboard). eexists.
    by eapply trim_game_returns.
Qed.

End TrimmedGame.

Lemma read_headers_parsed (tags : list (string * string)) :
  @parsed_headers demo_runtime (read_headers tags).
Proof.
  unfold read_headers.
  destruct (for_each _ tags default_headers) as [h|] eqn:Hh.
  - by apply (@parsed_for_each demo_runtime tags default_headers h parsed_default).
  - apply parsed_default.
Qed.

(** C6 on the game of 40 plies: 24 are kept. *)
Lemma trim_game_prefix_long :
  length (mainline_moves game_long_a) = 40%nat
  ∧ @trim_game demo_runtime game_long_a
    = Ok (demo_game "SoggiestShrimp" FEN_1 "2500" opening_24)
  ∧ mainline_moves (demo_game "SoggiestShrimp" FEN_1 "2500" opening_24)
    = take 24 (mainline_moves game_long_a).
Proof.
  assert (H : @trim_game demo_runtime game_long_a
              = Ok (demo_game "SoggiestShrimp" FEN_1 "2500" opening_24))
    by (vm_compute; reflexivity).
  split; [reflexivity|]. split; [exact H|].
  exact (proj1 (proj1 (@trim_game_prefix demo_runtime game_long_a) _ H)).
Defined.

(** C7 on the same game: identical headers. *)
Lemma trim_game_headers_long :
  @trim_game demo_runtime game_long_a
  = Ok (demo_game "SoggiestShrimp" FEN_1 "2500" opening_24)
  ∧ headers (demo_game "SoggiestShrimp" FEN_1 "2500" opening_24)
    = headers game_long_a.
Proof.
  assert (H : @trim_game demo_runtime game_long_a
              = Ok (demo_game "SoggiestShrimp" FEN_1 "2500" opening_24))
    by (vm_compute; reflexivity).
  split; [exact H|].
  exact (proj1 (proj2 (@trim_game_headers demo_runtime game_long_a)
                      (read_headers_parsed _)) _ H).
Defined.

(** ** Grouping by FEN *)

(** On headers that were not built on the defaults, the copy gains the
    roster's defaults; the FEN is kept all the same. *)
Example trim_game_bare :
  @trim_game demo_runtime game_bare
  = Ok (mkGame (mkHeaders (tag_roster default_headers) [("FEN", FEN_1)])
               (line_of ["e2e4"])).
Proof. reflexivity. Qed.

Lemma filter_all {A} (P : A → Prop) {Pdec : ∀ x, Decision (P x)} (l : list A) :
  Forall P l → filter P l = l.
Proof.
  induction 1 as [|x l Hx _ IH]; [done|].
  by rewrite filter_cons_True, IH.
Qed.

Lemma filter_none {A} (P : A → Prop) {Pdec : ∀ x, Decision (P x)} (l : list A) :
  Forall (λ x, ¬ P x) l → filter P l = [].
Proof.
  induction 1 as [|x l Hx _ IH]; [done|].
  by rewrite filter_cons_False, IH.
Qed.

Section Grouping.
Context {G : Type}.
Implicit Types (fs l : list string) (k f : string).

Lemma elem_of_first_seen l f : f ∈ first_seen l ↔ f ∈ l.
Proof.
  induction l as [|a l IH]; simpl; [done|].
  rewrite !elem_of_cons, list_elem_of_filter, IH.
  destruct (decide (f = a)); by intuition.
Qed.

Lemma NoDup_first_seen l : NoDup (first_seen l).
Proof.
  induction l as [|a l IH]; simpl; [apply NoDup_nil_2|].
  apply NoDup_cons. split.
  - rewrite list_elem_of_filter. by intros [? _].
  - by apply NoDup_filter.
Qed.

Lemma first_seen_snoc l f :
  first_seen (l ++ [f])
  = if bool_decide (f ∈ l) then first_seen l else first_seen l ++ [f].
Proof.
  induction l as [|a l IH]; cbn [first_seen app].
  - by rewrite bool_decide_eq_false_2 by apply not_elem_of_nil.
  - rewrite IH. destruct (decide (f ∈ l)) as [Hin|Hout].
    + rewrite !bool_decide_eq_true_2; [done| |done]. apply elem_of_cons. by right.
    + rewrite (bool_decide_eq_false_2 _ Hout), filter_app.
      destruct (decide (f = a)) as [->|Hne].
      * rewrite bool_decide_eq_true_2 by (apply elem_of_cons; by left).
        rewrite filter_cons_False by (intros ?; done).
        by rewrite filter_nil, app_nil_r.
      * rewrite bool_decide_eq_false_2.
        2: { intros [?|?]%elem_of_cons; done. }
        by rewrite filter_cons_True by done.
Qed.

Lemma get_map (F : string → G) fs k :
  Py.get (map (λ f, (f, F f)) fs) k
  = if bool_decide (k ∈ fs) then Some (F k) else None.
Proof.
  induction fs as [|a fs IH]; cbn [map Py.get].
  - by rewrite bool_decide_eq_false_2 by apply not_elem_of_nil.
  - destruct (String.eqb_spec a k) as [->|Hne].
    + by rewrite bool_decide_eq_true_2 by (apply elem_of_cons; by left).
    + rewrite IH. destruct (decide (k ∈ fs)) as [Hin|Hout].
      * rewrite !bool_decide_eq_true_2; [done| |done]. apply elem_of_cons. by right.
      * rewrite !bool_decide_eq_false_2; [done| |done].
        intros [?|?]%elem_of_cons; done.
Qed.

Lemma set_map_present (F : string → G) fs k (v : G) :
  NoDup fs → k ∈ fs →
  Py.set (map (λ f, (f, F f)) fs) k v
  = map (λ f, (f, if bool_decide (f = k) then v else F f)) fs.
Proof.
  induction fs as [|a fs IH]; cbn [map Py.set].
  - intros _ H. by apply elem_of_nil in H.
  - intros [Ha Hnd]%NoDup_cons Hin.
    destruct (String.eqb_spec a k) as [->|Hne].
    + rewrite bool_decide_eq_true_2 by done. f_equal.
      apply map_ext_in. intros f Hf%list_elem_of_In.
      rewrite bool_decide_eq_false_2; [done|]. by intros ->.
    + rewrite bool_decide_eq_false_2 by done. f_equal.
      apply IH; [done|]. by apply elem_of_cons in Hin as [->|Hin].
Qed.

End Grouping.

Section Groups.
Context `{RT : Runtime}.
Implicit Types (stored : list (string * Game Move)) (f : string) (t : Game Move).

Lemma games_of_snoc stored f f' t :
  games_of f (stored ++ [(f', t)])
  = games_of f stored ++ (if bool_decide (f' = f) then [t] else []).
Proof.
  unfold games_of. rewrite filter_app, map_app. f_equal.
  destruct (decide (f' = f)) as [->|Hne].
  - rewrite bool_decide_eq_true_2 by done. by rewrite filter_cons_True.
  - rewrite bool_decide_eq_false_2 by done. by rewrite filter_cons_False.
Qed.

Lemma games_of_fresh stored f : f ∉ map fst stored → games_of f stored = [].
Proof.
  unfold games_of. induction stored as [|[f' t] stored IH]; simpl; [done|].
  intros [Hne Hout]%not_elem_of_cons.
  rewrite filter_cons_False by (simpl; congruence). by apply IH.
Qed.

(** Storing one more game is [games_by_fen[fen].append(tg)]. *)
Lemma groups_of_snoc stored f t :
  groups_of (stored ++ [(f, t)]) = append_game (groups_of stored) f t.
Proof.
  unfold groups_of, append_game.
  rewrite map_app. simpl. rewrite first_seen_snoc, get_map.
  destruct (decide (f ∈ map fst stored)) as [Hin|Hout].
  - rewrite bool_decide_eq_true_2 by done.
    rewrite bool_decide_eq_true_2 by by apply elem_of_first_seen.
    simpl. rewrite set_map_present;
      [|apply NoDup_first_seen|by apply elem_of_first_seen].
    apply map_ext. intros f'. rewrite games_of_snoc.
    destruct (decide (f' = f)) as [->|Hne].
    + by rewrite !bool_decide_eq_true_2.
    + rewrite !bool_decide_eq_false_2 by done. by rewrite app_nil_r.
  - rewrite bool_decide_eq_false_2 by done.
    rewrite bool_decide_eq_false_2 by by rewrite elem_of_first_seen.
    simpl. rewrite set_fresh.
    2: { unfold Py.keys. rewrite map_map. simpl. rewrite map_id.
         by rewrite elem_of_first_seen. }
    rewrite map_app. simpl. f_equal.
    + apply map_ext_in. intros f' Hf'.
      apply list_elem_of_In in Hf'. rewrite elem_of_first_seen in Hf'.
      rewrite games_of_snoc, bool_decide_eq_false_2, app_nil_r; [done|].
      intros Heq. subst. contradiction.
    + rewrite games_of_snoc, games_of_fresh by done.
      by rewrite bool_decide_eq_true_2.
Qed.

Lemma collect_spec (groups : Py.dict (list (Game Move))) (acc : list (Game Move)) :
  collect groups acc
  = acc ++ concat (map snd (filter (λ fa, (MIN_FEN_GAMES ≤ length fa.2)%nat) groups)).
Proof.
  revert acc. induction groups as [|[f arr] groups IH]; intros acc; cbn [collect].
  - simpl. by rewrite app_nil_r.
  - destruct (MIN_FEN_GAMES <=? length arr)%nat eqn:Hlen.
    + apply Nat.leb_le in Hlen. rewrite filter_cons_True by done.
      cbn [map snd concat]. by rewrite IH, app_assoc.
    + apply Nat.leb_gt in Hlen. rewrite filter_cons_False by (cbn [snd]; lia).
      apply IH.
Qed.

(** Collecting the groups of what was stored gives the FinalDataset. *)
Lemma collect_groups_of stored :
  collect (groups_of stored) [] = final_dataset stored.
Proof.
  rewrite collect_spec. cbn [app]. unfold groups_of, final_dataset.
  induction (first_seen (map fst stored)) as [|f fs IH]; cbn [map]; [done|].
  destruct (decide (MIN_FEN_GAMES ≤ length (games_of f stored))%nat).
  - rewrite !filter_cons_True by done. cbn [map snd concat]. by rewrite IH.
  - by rewrite !filter_cons_False by done.
Qed.

End Groups.

(** ** Rendering the key *)

Section Rendering.
Context `{RT : Runtime}.

Lemma variation_san_loop_legal (board : Board) (line : list Move) (san : list string) :
  if legal_line board line
  then ∃ l, variation_san_loop board line san = Ok l
  else variation_san_loop board line san = Raise ValueError.
Proof.
  revert board san. induction line as [|mv rest IH]; intros board san; simpl.
  - by exists san.
  - destruct (is_legal board mv); simpl; [|done].
    destruct (san_and_push board mv) as [s board'] eqn:Hpush. simpl.
    apply IH.
Qed.

(** The notation is rendered exactly when the whole line is legal; an
    illegal move raises [ValueError]. *)
Lemma variation_san_legal (board : Board) (line : list Move) :
  if legal_line board line
  then ∃ s, variation_san board line = Ok s
  else variation_san board line = Raise ValueError.
Proof.
  unfold variation_san.
  pose proof (variation_san_loop_legal board line []) as H.
  destruct (legal_line board line).
  - destruct H as [l ->]. simpl. eauto.
  - by rewrite H.
Qed.

Lemma game_key_Ok (g : Game Move) (key : Key) :
  game_key g = Ok key ↔
  ∃ board san,
    game_fen g = Ok key.1
    ∧ headers_board (headers g) = Ok board
    ∧ variation_san board (mainline_moves g) = Ok san
    ∧ key.2 = san.
Proof.
  unfold game_key, game_fen. split.
  - destruct (headers_getitem (headers g) "FEN") as [fen|]; simpl; [|done].
    destruct (headers_board (headers g)) as [board|]; simpl; [|done].
    destruct (variation_san board (mainline_moves g)) as [san|] eqn:Hsan;
      simpl; [|done].
    intros [= <-]. by exists board, san.
  - intros (board & san & -> & -> & Hsan & <-). simpl. rewrite Hsan. simpl.
    by destruct key.
Qed.

Lemma game_key_legal (g : Game Move) (key : Key) (board : Board) :
  game_key g = Ok key → headers_board (headers g) = Ok board →
  legal_line board (mainline_moves g) = true.
Proof.
  intros (board' & san & _ & Hb & Hsan & _)%game_key_Ok Hboard.
  assert (board' = board) as -> by congruence.
  pose proof (variation_san_legal board (mainline_moves g)) as H.
  destruct (legal_line board (mainline_moves g)); [done|congruence].
Qed.

Lemma game_key_illegal (g : Game Move) (fen : string) (board : Board) :
  game_fen g = Ok fen →
  headers_board (headers g) = Ok board →
  legal_line board (mainline_moves g) = false →
  game_key g = Raise ValueError.
Proof.
  unfold game_key, game_fen. intros -> -> Hill. simpl.
  pose proof (variation_san_legal board (mainline_moves g)) as H.
  rewrite Hill in H. by rewrite H.
Qed.

(** The loop adds items at the end of [san]. *)
Lemma variation_san_loop_grows (board : Board) (line : list Move)
    (san items : list string) :
  variation_san_loop board line san = Ok items → ∃ more, items = san ++ more.
Proof.
  revert board san. induction line as [|mv rest IH]; intros board san; simpl.
  - intros [= <-]. exists []. by rewrite app_nil_r.
  - destruct (is_legal board mv); simpl; [|done].
    destruct (san_and_push board mv) as [s board']. simpl.
    intros (more & ->)%IH. exists ((if turn board
       then pretty (fullmove_number board) +:+ ". " +:+ s
       else match san with
            | [] => pretty (fullmove_number board) +:+ "..." +:+ s
            | _ :: _ => s
            end) :: more).
    by rewrite <- app_assoc.
Qed.

(** Under the two properties of the notation, different lines played from
    one position are rendered differently. *)
Lemma variation_san_loop_inj (start : Board) (Hone : unambiguous_notation start)
    (Hnone : notation_without_spaces start) (line1 : list Move) :
  ∀ (line2 : list Move) (board : Board) (san items1 items2 : list string),
    reached_from start board →
    variation_san_loop board line1 san = Ok items1 →
    variation_san_loop board line2 san = Ok items2 →
    String.concat " " items1 = String.concat " " items2 →
    line1 = line2.
Proof.
  assert (Hshort : ∀ (line : list Move) (mv : Move) (board : Board)
                     (san items : list string),
    variation_san_loop board (mv :: line) san = Ok items →
    String.concat " " san ≠ String.concat " " items).
  { intros line mv board san items. simpl.
    destruct (is_legal board mv); simpl; [|done].
    destruct (san_and_push board mv) as [s board']. simpl.
    intros (more & ->)%variation_san_loop_grows. rewrite <- app_assoc. simpl.
    destruct (concat_middle " " san
                (if turn board
                 then pretty (fullmove_number board) +:+ ". " +:+ s
                 else match san with
                      | [] => pretty (fullmove_number board) +:+ "..." +:+ s
                      | _ :: _ => s
                      end) more) as (pre & suf & -> & Hpre & _).
    destruct Hpre as [[-> ->]|[_ ->]].
    - simpl. rewrite string_append_nil_l. intros Heq. symmetry in Heq.
      destruct (turn board); rewrite !string_append_assoc in Heq;
        by apply string_append_empty in Heq.
    - intros Heq. apply (f_equal String.length) in Heq.
      rewrite !string_length_append in Heq. simpl in Heq. lia. }
  induction line1 as [|m1 rest1 IH];
    intros [|m2 rest2] board san items1 items2 Hreached.
  - done.
  - intros [= <-] H2 Heq. by destruct (Hshort _ _ _ _ _ H2).
  - intros H1 [= <-] Heq. symmetry in Heq. by destruct (Hshort _ _ _ _ _ H1).
  - simpl. destruct (is_legal board m1) eqn:Hl1; simpl; [|done].
    destruct (is_legal board m2) eqn:Hl2; simpl; [|done].
    pose proof (Hnone board m1 Hreached Hl1) as Hn1.
    pose proof (Hnone board m2 Hreached Hl2) as Hn2.
    pose proof (Hone board m1 m2 Hreached Hl1 Hl2) as Hsame.
    pose proof (reached_push start board m1 Hreached Hl1) as Hnext.
    destruct (san_and_push board m1) as [s1 board1] eqn:Hp1.
    destruct (san_and_push board m2) as [s2 board2] eqn:Hp2. simpl in *.
    intros H1 H2 Heq.
    assert (s1 = s2) as <-.
    { apply variation_san_loop_grows in H1 as (more1 & ->).
      apply variation_san_loop_grows in H2 as (more2 & ->).
      rewrite <- !app_assoc in Heq. simpl in Heq.
      destruct (concat_middle " " san
                  (if turn board
                   then pretty (fullmove_number board) +:+ ". " +:+ s1
                   else match san with
                        | [] => pretty (fullmove_number board) +:+ "..." +:+ s1
                        | _ :: _ => s1
                        end) more1) as (pre1 & suf1 & Heq1 & Hpre1 & Hsuf1).
      destruct (concat_middle " " san
                  (if turn board
                   then pretty (fullmove_number board) +:+ ". " +:+ s2
                   else match san with
                        | [] => pretty (fullmove_number board) +:+ "..." +:+ s2
                        | _ :: _ => s2
                        end) more2) as (pre2 & suf2 & Heq2 & Hpre2 & Hsuf2).
      rewrite Heq1, Heq2 in Heq.
      assert (pre1 = pre2) as <-.
      { destruct Hpre1 as [[? ->]|[? ->]], Hpre2 as [[? ->]|[? ->]]; done. }
      apply (inj (String.app pre1)) in Heq.
      apply (no_space_prefix s1 s2 suf1 suf2); [done..|].
      destruct (turn board).
      - rewrite !string_append_assoc in Heq.
        by apply (inj (String.app _)), (inj (String.app _)) in Heq.
      - destruct san.
        + rewrite !string_append_assoc in Heq.
          by apply (inj (String.app _)), (inj (String.app _)) in Heq.
        + done. }
    assert (m1 = m2) as <- by by apply Hsame.
    assert (board1 = board2) as <- by congruence.
    f_equal. eapply IH; [exact Hnext|exact H1|exact H2|exact Heq].
Qed.

Lemma variation_san_inj (board : Board) (line1 line2 : list Move) (s : string) :
  unambiguous_notation board → notation_without_spaces board →
  variation_san board line1 = Ok s → variation_san board line2 = Ok s →
  line1 = line2.
Proof.
  intros Hone Hnone. unfold variation_san.
  destruct (variation_san_loop board line1 []) as [items1|] eqn:H1; simpl; [|done].
  destruct (variation_san_loop board line2 []) as [items2|] eqn:H2; simpl; [|done].
  intros [= <-] [= Heq].
  eapply (variation_san_loop_inj board Hone Hnone line1 line2 board []);
    [apply reached_start|done..].
Qed.

End Rendering.

(** ** The driver *)

Section Driver.
Context `{RT : Runtime}.
Implicit Types (g : Game Move) (st : State) (gs pre : list (Game Move)).

Lemma eligible_true g : eligible g = true ↔ is_good_game g = Ok true.
Proof. unfold eligible. apply bool_decide_eq_true. Qed.

(** The four ways a game leaves the loop body. *)
Lemma process_game_cases st g :
  (is_good_game g = Ok false ∧ process_game st g = Ok st)
  ∨ (is_good_game g = Ok true ∧ ∃ e, game_key g = Raise e
                                      ∧ process_game st g = Raise e)
  ∨ (is_good_game g = Ok true ∧ ∃ key, game_key g = Ok key ∧ key ∈ seen st
                                        ∧ process_game st g = Ok st)
  ∨ (is_good_game g = Ok true ∧ ∃ key, game_key g = Ok key ∧ (key ∉ seen st)
       ∧ process_game st g
         = (tg ← trim_game g;
            Ok {| games_by_fen := append_game (games_by_fen st) key.1 tg;
                  seen := {[key]} ∪ seen st |})).
Proof.
  unfold process_game.
  destruct (is_good_game_returns g) as [[] Hgood]; rewrite Hgood; simpl;
    [|by left].
  right. destruct (game_key g) as [key|e]; simpl.
  - destruct (decide (key ∈ seen st)) as [Hin|Hout].
    + right; left. split; [done|]. exists key.
      by rewrite bool_decide_eq_true_2.
    + right; right. split; [done|]. exists key.
      by rewrite bool_decide_eq_false_2.
  - left. split; [done|]. by exists e.
Qed.

Lemma admitted_after_snoc (earlier gs : list (Game Move)) g :
  admitted_after earlier (gs ++ [g])
  = admitted_after earlier gs ++ (if is_first (earlier ++ gs) g then [g] else []).
Proof.
  revert earlier. induction gs as [|a gs IH]; intros earlier; simpl.
  - by rewrite !app_nil_r.
  - rewrite IH, <- !app_assoc. done.
Qed.

Lemma admitted_snoc pre g :
  admitted (pre ++ [g]) = admitted pre ++ (if is_first pre g then [g] else []).
Proof. unfold admitted. by rewrite admitted_after_snoc. Qed.

Lemma is_first_false_seen pre g h :
  h ∈ pre → eligible h = true → game_key h = game_key g →
  is_first pre g = false.
Proof.
  intros Hin Hel Hkey. unfold is_first.
  apply andb_false_iff. right. apply negb_false_iff, existsb_exists.
  exists h. split; [by apply list_elem_of_In|].
  by rewrite Hel, bool_decide_eq_true_2.
Qed.

Lemma is_first_true pre g :
  is_first pre g = true ↔
  eligible g = true
  ∧ ∀ h, h ∈ pre → eligible h = true → game_key h ≠ game_key g.
Proof.
  unfold is_first. rewrite andb_true_iff, negb_true_iff. split.
  - intros [Hel Hnone]. split; [done|]. intros h Hin Hh Hkey.
    rewrite <- not_true_iff_false in Hnone. apply Hnone, existsb_exists.
    exists h. split; [by apply list_elem_of_In|].
    by rewrite Hh, bool_decide_eq_true_2.
  - intros [Hel Hnone]. split; [done|].
    apply not_true_iff_false. intros (h & Hin & Hh)%existsb_exists.
    apply andb_true_iff in Hh as [Hh Hkey%bool_decide_eq_true].
    apply list_elem_of_In in Hin. by apply (Hnone h).
Qed.

Lemma run_invariant_initial : run_invariant [] initial_state.
Proof.
  split.
  - intros key. simpl. split; [by intros ?%not_elem_of_empty|].
    intros (h & Hin & _). by apply elem_of_nil in Hin.
  - exists []. split; [constructor|done].
Qed.

Lemma run_invariant_step pre st g st' :
  run_invariant pre st → process_game st g = Ok st' →
  run_invariant (pre ++ [g]) st'.
Proof.
  intros [Hseen (stored & Hstored & Hgroups)] Hstep.
  destruct (process_game_cases st g)
    as [[Hgood Hp]|[(Hgood & e & Hkey & Hp)|[(Hgood & key & Hkey & Hin & Hp)
       |(Hgood & key & Hkey & Hout & Hp)]]].
  - (* not eligible *)
    assert (st' = st) as -> by congruence.
    assert (Hel : eligible g = false).
    { apply not_true_iff_false. rewrite eligible_true. congruence. }
    split.
    + intros k. rewrite Hseen. split.
      * intros (h & Hh & ?). exists h. split; [|done]. apply elem_of_app. by left.
      * intros (h & [Hh|Hh%list_elem_of_singleton]%elem_of_app & Hhel & ?);
          [by exists h|]. subst h. congruence.
    + exists stored. split; [|done]. rewrite admitted_snoc.
      unfold is_first. rewrite Hel. simpl. by rewrite app_nil_r.
  - congruence.
  - (* a key seen before *)
    assert (st' = st) as -> by congruence.
    apply Hseen in Hin as (h & Hh & Hhel & Hhkey).
    split.
    + intros k. rewrite Hseen. split.
      * intros (h' & Hh' & ?). exists h'. split; [|done]. apply elem_of_app. by left.
      * intros (h' & [Hh'|Hh'%list_elem_of_singleton]%elem_of_app & Hhel' & Hk');
          [by exists h'|]. subst h'. exists h. split; [done|]. split; [done|].
        congruence.
    + exists stored. split; [|done]. rewrite admitted_snoc.
      rewrite (is_first_false_seen pre g h) by (done || congruence).
      by rewrite app_nil_r.
  - (* admitted *)
    rewrite Hp in Hstep. destruct (trim_game g) as [tg|] eqn:Htrim; simpl in Hstep;
      [|done].
    injection Hstep as <-. split.
    + intros k. simpl. rewrite elem_of_union, elem_of_singleton, Hseen. split.
      * intros [->|(h & Hh & ?)].
        -- exists g. split; [apply elem_of_app; right; by apply list_elem_of_singleton|].
           split; [by apply eligible_true|done].
        -- exists h. split; [|done]. apply elem_of_app. by left.
      * intros (h & [Hh|Hh%list_elem_of_singleton]%elem_of_app & Hhel & Hk).
        -- right. by exists h.
        -- subst h. left. congruence.
    + exists (stored ++ [(key.1, tg)]). split.
      * rewrite admitted_snoc.
        assert (is_first pre g = true) as ->.
        { apply is_first_true. split; [by apply eligible_true|].
          intros h Hh Hhel Hhkey. apply Hout, Hseen. exists h.
          split; [done|]. split; [done|]. congruence. }
        apply Forall2_app; [done|]. constructor; [|constructor].
        split; [|done]. simpl.
        by apply game_key_Ok in Hkey as (? & ? & ? & _).
      * simpl. by rewrite groups_of_snoc, Hgroups.
Qed.

Lemma run_invariant_stream gs pre st st' :
  run_invariant pre st → for_each process_game gs st = Ok st' →
  run_invariant (pre ++ gs) st'.
Proof.
  revert pre st. induction gs as [|g gs IH]; intros pre st Hinv; simpl.
  - intros [= <-]. by rewrite app_nil_r.
  - destruct (process_game st g) as [st1|] eqn:Hstep; simpl; [|done].
    intros Hrest. replace (pre ++ g :: gs) with ((pre ++ [g]) ++ gs)
      by by rewrite <- app_assoc.
    eapply IH; [|done]. by eapply run_invariant_step.
Qed.

Lemma run_invariant_bots (export_games : string → result string)
    (bots : list string) pre st st' :
  run_invariant pre st →
  for_each (process_bot export_games) bots st = Ok st' →
  run_invariant (pre ++ stream_of bots export_games) st'.
Proof.
  revert pre st. induction bots as [|bot bots IH]; intros pre st Hinv; simpl.
  - intros [= <-]. by rewrite app_nil_r.
  - destruct (process_bot export_games st bot) as [st1|] eqn:Hbot; simpl; [|done].
    intros Hrest. rewrite app_assoc. eapply IH; [|done].
    unfold process_bot in Hbot. destruct (export_games bot) as [pgn_text|].
    + by eapply run_invariant_stream.
    + injection Hbot as <-. by rewrite app_nil_r.
Qed.

(** The driver refines the specification: a run that ends stores the
    admitted games of its stream, each under its FEN and trimmed, and
    returns the FinalDataset of what it stored. *)
Lemma main_on_final_dataset (export_games : string → result string)
    (bots : list string) (final : list (Game Move)) :
  main_on bots export_games = Ok final →
  ∃ stored,
    Forall2 stored_as (admitted (stream_of bots export_games)) stored
    ∧ final = final_dataset stored.
Proof.
  unfold main_on.
  destruct (for_each (process_bot export_games) bots initial_state) as [st|] eqn:Hrun;
    simpl; [|done].
  intros [= <-].
  destruct (run_invariant_bots export_games bots [] initial_state st
              run_invariant_initial Hrun) as [_ (stored & Hstored & Hgroups)].
  exists stored. split; [done|]. by rewrite Hgroups, collect_groups_of.
Qed.

End Driver.

(** ** The admitted games *)

Section AdmittedGames.
Context `{RT : Runtime}.
Implicit Types (g h : Game Move) (gs pre : list (Game Move)).

Lemma admitted_elem gs g :
  g ∈ admitted gs →
  ∃ pre post, gs = pre ++ g :: post ∧ is_first pre g = true.
Proof.
  induction gs as [|x gs IH] using rev_ind.
  - intros H. by apply elem_of_nil in H.
  - rewrite admitted_snoc, elem_of_app. intros [Hin|Hin].
    + destruct (IH Hin) as (pre & post & -> & Hfirst).
      exists pre, (post ++ [x]). by rewrite <- app_assoc.
    + destruct (is_first gs x) eqn:Hfirst; [|by apply elem_of_nil in Hin].
      apply list_elem_of_singleton in Hin as ->. by exists gs, [].
Qed.

Lemma admitted_in_stream gs g : g ∈ admitted gs → g ∈ gs ∧ eligible g = true.
Proof.
  intros (pre & post & -> & [Hel _]%is_first_true)%admitted_elem.
  split; [|done]. apply elem_of_app. right. apply elem_of_cons. by left.
Qed.

(** No two admitted games have the same key. *)
Lemma admitted_keys_NoDup gs : NoDup (map game_key (admitted gs)).
Proof.
  induction gs as [|x gs IH] using rev_ind; [apply NoDup_nil_2|].
  rewrite admitted_snoc, map_app.
  destruct (is_first gs x) eqn:Hfirst; simpl; [|by rewrite app_nil_r].
  apply NoDup_app. split_and!; [done| |apply NoDup_singleton].
  intros k Hk Hx. apply list_elem_of_singleton in Hx as ->.
  apply list_elem_of_fmap in Hk as (h & Hkey & [Hh Hhel]%admitted_in_stream).
  apply is_first_true in Hfirst as [_ Hnone]. by apply (Hnone h).
Qed.

Lemma admitted_NoDup gs : NoDup (admitted gs).
Proof. eapply (NoDup_fmap_1 game_key), admitted_keys_NoDup. Qed.

Lemma admitted_key_inj gs g h :
  g ∈ admitted gs → h ∈ admitted gs → game_key g = game_key h → g = h.
Proof.
  intros Hg Hh Hkey.
  apply list_elem_of_lookup in Hg as [i Hi], Hh as [j Hj].
  assert (i = j) as ->; [|congruence].
  eapply NoDup_lookup; [apply (admitted_keys_NoDup gs)| |].
  - by rewrite list_lookup_fmap, Hi.
  - by rewrite list_lookup_fmap, Hj, Hkey.
Qed.

End AdmittedGames.

(** ** From what was stored to the FinalDataset *)

Section Final.
Context `{RT : Runtime}.
Implicit Types (g t : Game Move) (f : string)
  (adm : list (Game Move)) (stored : list (string * Game Move)).

Lemma fen_not_in_roster : in_list "FEN" TAG_ROSTER = false.
Proof. reflexivity. Qed.

Lemma stored_as_fen g ft : stored_as g ft → game_fen ft.2 = Ok ft.1.
Proof.
  intros [Hfen Htrim]. unfold game_fen in *.
  by rewrite (trim_game_keeps_tag g ft.2 "FEN" fen_not_in_roster Htrim).
Qed.

(** The group of [f] holds the trimmed admitted games of FEN [f], in
    order. *)
Lemma games_of_admitted adm stored f :
  Forall2 stored_as adm stored →
  Forall2 (λ g t, trim_game g = Ok t)
          (filter (λ g, game_fen g = Ok f) adm) (games_of f stored).
Proof.
  unfold games_of. induction 1 as [|g [f' t] adm stored [Hfen Htrim] _ IH];
    [constructor|].
  simpl in Hfen, Htrim. destruct (decide (f' = f)) as [->|Hne].
  - rewrite !filter_cons_True by done. simpl. by constructor.
  - rewrite !filter_cons_False; [done|done|]. rewrite Hfen. congruence.
Qed.

Lemma games_of_length adm stored f :
  Forall2 stored_as adm stored →
  length (games_of f stored) = length (filter (λ g, game_fen g = Ok f) adm).
Proof. intros H. symmetry. eapply Forall2_length, games_of_admitted, H. Qed.

Lemma games_of_fen adm stored f t :
  Forall2 stored_as adm stored → t ∈ games_of f stored → game_fen t = Ok f.
Proof.
  unfold games_of. intros Hst ([f' t'] & -> & [Hf Hin]%list_elem_of_filter)%list_elem_of_fmap.
  simpl in *. subst f'.
  apply list_elem_of_lookup in Hin as [i Hi].
  destruct (Forall2_lookup_r _ _ _ _ _ Hst Hi) as (g & _ & Hg).
  by apply stored_as_fen in Hg.
Qed.

(** The games of FEN [f] in the concatenation of groups of distinct FENs
    are the group of [f], if it is one of them. *)
Lemma filter_concat_groups (F : string → list (Game Move)) (P : string → Prop)
    {Pdec : ∀ x, Decision (P x)} (fs : list string) f :
  (∀ f' t, t ∈ F f' → game_fen t = Ok f') →
  NoDup fs →
  filter (λ t, game_fen t = Ok f) (concat (map F (filter P fs)))
  = if bool_decide (f ∈ fs ∧ P f) then F f else [].
Proof.
  intros HF. induction fs as [|a fs IH]; intros Hnd.
  - rewrite bool_decide_eq_false_2; [done|]. intros [H _]. by apply elem_of_nil in H.
  - apply NoDup_cons in Hnd as [Ha Hnd]. specialize (IH Hnd).
    assert (Hsame : filter (λ t, game_fen t = Ok a) (F a) = F a).
    { apply filter_all, Forall_forall. intros t Ht. by apply HF. }
    assert (Hother : a ≠ f → filter (λ t, game_fen t = Ok f) (F a) = []).
    { intros Hne. apply filter_none, Forall_forall. intros t Ht.
      rewrite (HF a t Ht). congruence. }
    destruct (decide (P a)) as [HP|HP].
    + rewrite filter_cons_True by done. cbn [map concat].
      rewrite filter_app, IH. destruct (decide (a = f)) as [->|Hne].
      * rewrite Hsame, bool_decide_eq_false_2 by (by intros [? _]).
        rewrite app_nil_r, bool_decide_eq_true_2; [done|].
        split; [apply elem_of_cons; by left|done].
      * rewrite (Hother Hne). simpl.
        rewrite (bool_decide_ext (f ∈ a :: fs ∧ P f) (f ∈ fs ∧ P f)); [done|].
        rewrite elem_of_cons.
        split; [intros [[?|?] ?]; [congruence|done] | intros [? ?]; auto].
    + rewrite filter_cons_False by done. rewrite IH.
      rewrite (bool_decide_ext (f ∈ a :: fs ∧ P f) (f ∈ fs ∧ P f)); [done|].
      rewrite elem_of_cons.
      split; [intros [[->|?] ?]; [contradiction|done] | intros [? ?]; auto].
Qed.

Lemma final_dataset_of_fen adm stored f :
  Forall2 stored_as adm stored →
  filter (λ t, game_fen t = Ok f) (final_dataset stored)
  = if bool_decide (MIN_FEN_GAMES ≤ length (games_of f stored))%nat
    then games_of f stored else [].
Proof.
  intros Hst. unfold final_dataset.
  rewrite (filter_concat_groups (λ f, games_of f stored)
             (λ f, (MIN_FEN_GAMES ≤ length (games_of f stored))%nat));
    [|by intros; eapply games_of_fen|apply NoDup_first_seen].
  destruct (decide (MIN_FEN_GAMES ≤ length (games_of f stored))%nat) as [Hbig|Hsmall].
  - rewrite (bool_decide_eq_true_2 _ Hbig), bool_decide_eq_true_2; [done|].
    split; [|done]. apply elem_of_first_seen.
    destruct (decide (f ∈ map fst stored)) as [|Hout]; [done|].
    rewrite (games_of_fresh stored f Hout) in Hbig. simpl in Hbig.
    unfold MIN_FEN_GAMES in Hbig. lia.
  - rewrite (bool_decide_eq_false_2 _ Hsmall), bool_decide_eq_false_2; [done|].
    by intros [_ ?].
Qed.

End Final.

(** ** The run as a whole *)

Section Run.
Context `{RT : Runtime}.
Implicit Types (g t : Game Move) (gs : list (Game Move)) (st : State)
  (export_games : string → result string) (bots : list string).

Lemma process_game_returns st g :
  (eligible g = true →
   (∃ key, game_key g = Ok key) ∧ (∃ t, trim_game g = Ok t)) →
  ∃ st', process_game st g = Ok st'.
Proof.
  intros Hok.
  destruct (process_game_cases st g)
    as [[_ Hp]|[(Hgood & e & Hkey & _)|[(_ & key & _ & _ & Hp)
       |(Hgood & key & _ & _ & Hp)]]]; [by eauto| |by eauto|].
  - apply eligible_true in Hgood. destruct (Hok Hgood) as [[key ?] _]. congruence.
  - apply eligible_true in Hgood. destruct (Hok Hgood) as [_ [t Ht]].
    rewrite Hp, Ht. simpl. eauto.
Qed.

Lemma process_stream_returns gs st :
  (∀ g, g ∈ gs → eligible g = true →
        (∃ key, game_key g = Ok key) ∧ (∃ t, trim_game g = Ok t)) →
  ∃ st', for_each process_game gs st = Ok st'.
Proof.
  revert st. induction gs as [|g gs IH]; intros st Hok; simpl; [by eauto|].
  destruct (process_game_returns st g) as [st1 ->].
  { apply Hok, elem_of_cons. by left. }
  simpl. apply IH. intros g' Hg'. apply Hok, elem_of_cons. by right.
Qed.

(** The run ends when every eligible game it reads can be keyed and
    trimmed. *)
Lemma main_on_returns export_games bots :
  (∀ g, g ∈ stream_of bots export_games → eligible g = true →
        (∃ key, game_key g = Ok key) ∧ (∃ t, trim_game g = Ok t)) →
  ∃ final, main_on bots export_games = Ok final.
Proof.
  unfold main_on. intros Hok.
  assert (∃ st, for_each (process_bot export_games) bots initial_state = Ok st)
    as [st ->]; [|simpl; by eauto].
  generalize initial_state. revert Hok.
  induction bots as [|bot bots IH]; intros Hok st; simpl; [by eauto|].
  simpl in Hok. setoid_rewrite elem_of_app in Hok.
  assert (∃ st1, process_bot export_games st bot = Ok st1) as [st1 ->].
  { unfold process_bot. destruct (export_games bot) as [pgn_text|]; [|by eauto].
    apply process_stream_returns. intros g Hg. apply Hok. by left. }
  simpl. apply IH. intros g Hg. apply Hok. by right.
Qed.

Lemma Forall2_concat_map {A B C} (R : A → B → Prop) (F : C → list A)
    (F' : C → list B) (l : list C) :
  (∀ c, Forall2 R (F c) (F' c)) →
  Forall2 R (concat (map F l)) (concat (map F' l)).
Proof.
  intros HF. induction l as [|c l IH]; simpl; [constructor|].
  by apply Forall2_app.
Qed.

Lemma NoDup_concat_by_fen (adm : list (Game Move)) (fs : list string) :
  NoDup adm → NoDup fs →
  NoDup (concat (map (λ f, filter (λ g, game_fen g = Ok f) adm) fs)).
Proof.
  intros Hadm. induction fs as [|a fs IH]; intros Hnd; simpl; [apply NoDup_nil_2|].
  apply NoDup_cons in Hnd as [Ha Hnd].
  apply NoDup_app. split_and!; [by apply NoDup_filter| |by apply IH].
  intros g [Hg _]%list_elem_of_filter Hin.
  apply list_elem_of_In, in_concat in Hin as (l & Hl & Hgl).
  apply in_map_iff in Hl as (f & <- & Hf).
  apply list_elem_of_In, list_elem_of_filter in Hgl as [Hg' _].
  apply list_elem_of_In in Hf. congruence.
Qed.

Lemma elem_of_concat_by_fen (adm : list (Game Move)) (fs : list string) g :
  g ∈ concat (map (λ f, filter (λ g, game_fen g = Ok f) adm) fs) → g ∈ adm.
Proof.
  intros Hin. apply list_elem_of_In, in_concat in Hin as (l & Hl & Hgl).
  apply in_map_iff in Hl as (f & <- & Hf).
  by apply list_elem_of_In, list_elem_of_filter in Hgl as [_ ?].
Qed.

(** The games a run keeps: the admitted games of the FENs that have at
    least [MIN_FEN_GAMES] of them, group by group. *)
Lemma main_on_kept export_games bots (final : list (Game Move)) :
  main_on bots export_games = Ok final →
  ∃ kept,
    Forall2 (λ g t, trim_game g = Ok t) kept final
    ∧ NoDup kept
    ∧ ∀ g, g ∈ kept → g ∈ admitted (stream_of bots export_games).
Proof.
  intros (stored & Hstored & ->)%main_on_final_dataset.
  set (adm := admitted (stream_of bots export_games)) in *.
  exists (concat (map (λ f, filter (λ g, game_fen g = Ok f) adm)
                      (filter (λ f, (MIN_FEN_GAMES ≤ length (games_of f stored))%nat)
                              (first_seen (map fst stored))))).
  split_and!.
  - unfold final_dataset. apply Forall2_concat_map. intros f.
    by apply games_of_admitted.
  - apply NoDup_concat_by_fen; [apply admitted_NoDup|].
    apply NoDup_filter, NoDup_first_seen.
  - intros g. apply elem_of_concat_by_fen.
Qed.

(** C9: the FinalDataset of a run is the concatenation of the FEN groups
    of at least three games, the groups in the order in which their FENs
    were first stored and each group in its insertion order; what is stored
    are the admitted games of the stream, in stream order, each under its
    FEN and trimmed.  The run does end when every eligible game can be keyed
    and trimmed. *)
Theorem main_on_final_order export_games bots :
  (∀ final, main_on bots export_games = Ok final →
     ∃ stored,
       Forall2 stored_as (admitted (stream_of bots export_games)) stored
       ∧ final
         = concat (map (λ f, games_of f stored)
                       (filter (λ f, (MIN_FEN_GAMES ≤ length (games_of f stored))%nat)
                               (first_seen (map fst stored)))))
  ∧ ((∀ g, g ∈ stream_of bots export_games → eligible g = true →
           (∃ key, game_key g = Ok key) ∧ (∃ t, trim_game g = Ok t)) →
     ∃ final, main_on bots export_games = Ok final).
Proof.
  split; [apply main_on_final_dataset | apply main_on_returns].
Qed.

(** C1: in the FinalDataset of a run, the games of a FEN [f] are as many
    as the admitted games of FEN [f] when these are at least three, and none
    otherwise; so [f] appears in the FinalDataset exactly when at least
    three admitted games have it. *)
Theorem final_dataset_min_support export_games bots (final : list (Game Move)) :
  main_on bots export_games = Ok final →
  ∀ f,
    let n := length (filter (λ g, game_fen g = Ok f)
                            (admitted (stream_of bots export_games))) in
    length (filter (λ t, game_fen t = Ok f) final)
    = (if bool_decide (MIN_FEN_GAMES ≤ n)%nat then n else 0%nat)
    ∧ ((∃ t, t ∈ final ∧ game_fen t = Ok f) ↔ (MIN_FEN_GAMES ≤ n)%nat).
Proof.
  intros (stored & Hstored & ->)%main_on_final_dataset f n.
  assert (Hlen : length (filter (λ t, game_fen t = Ok f) (final_dataset stored))
                 = if bool_decide (MIN_FEN_GAMES ≤ n)%nat then n else 0%nat).
  { rewrite (final_dataset_of_fen _ stored f Hstored).
    rewrite (games_of_length _ stored f Hstored). fold n.
    destruct (bool_decide (MIN_FEN_GAMES ≤ n)%nat); [|done].
    apply (games_of_length _ stored f Hstored). }
  split; [done|]. split.
  - intros (t & Ht & Hfen).
    assert (t ∈ filter (λ t, game_fen t = Ok f) (final_dataset stored)) as Hin
      by by apply list_elem_of_filter.
    destruct (decide (MIN_FEN_GAMES ≤ n)%nat) as [|Hsmall]; [done|].
    rewrite (bool_decide_eq_false_2 _ Hsmall) in Hlen.
    apply nil_length_inv in Hlen. rewrite Hlen in Hin. by apply elem_of_nil in Hin.
  - intros Hbig. rewrite (bool_decide_eq_true_2 _ Hbig) in Hlen.
    destruct (filter (λ t, game_fen t = Ok f) (final_dataset stored))
      as [|t l] eqn:Hfilter.
    + simpl in Hlen. unfold MIN_FEN_GAMES in Hbig. lia.
    + exists t.
      assert (t ∈ filter (λ t, game_fen t = Ok f) (final_dataset stored)) as Hin
        by (rewrite Hfilter; apply elem_of_cons; by left).
      apply list_elem_of_filter in Hin as [? ?]. done.
Qed.

(** C3: the set of seen keys only grows; and the games of the FinalDataset
    come from kept games with pairwise different keys, each of which is, in
    the stream, the first eligible game with its key. *)
Theorem dedup_keeps_first export_games bots :
  (∀ st g st', process_game st g = Ok st' → seen st ⊆ seen st')
  ∧ ∀ final, main_on bots export_games = Ok final →
      ∃ kept,
        Forall2 (λ g t, trim_game g = Ok t) kept final
        ∧ NoDup (map game_key kept)
        ∧ ∀ g, g ∈ kept →
            ∃ pre post,
              stream_of bots export_games = pre ++ g :: post
              ∧ is_good_game g = Ok true
              ∧ ∀ h, h ∈ pre → is_good_game h = Ok true →
                     game_key h ≠ game_key g.
Proof.
  split.
  - intros st g st' Hstep.
    destruct (process_game_cases st g)
      as [[_ Hp]|[(_ & e & _ & Hp)|[(_ & key & _ & _ & Hp)
         |(_ & key & _ & _ & Hp)]]]; rewrite Hp in Hstep.
    + by injection Hstep as <-.
    + done.
    + by injection Hstep as <-.
    + destruct (trim_game g); simpl in Hstep; [|done].
      injection Hstep as <-. simpl. apply union_subseteq_r.
  - intros final (kept & Htrim & Hnd & Hadm)%main_on_kept.
    exists kept. split_and!; [done| |].
    + apply NoDup_fmap_2_strong; [|done].
      intros g h Hg Hh. apply (admitted_key_inj (stream_of bots export_games));
        by apply Hadm.
    + intros g (pre & post & Hsplit & [Hel Hnone]%is_first_true)%Hadm%admitted_elem.
      exists pre, post. split_and!; [done|by apply eligible_true|].
      intros h Hh Hhel. apply Hnone; [done|]. by apply eligible_true.
Qed.

End Run.


(** ** Keys, illegal moves and the trimmer *)

Lemma for_each_raises {S X : Type} (body : S → X → result S) (xs : list X) (x : X) :
  x ∈ xs → (∀ st, ∃ e, body st x = Raise e) →
  ∀ st, ∃ e, for_each body xs st = Raise e.
Proof.
  intros Hin Hx. induction xs as [|a xs IH]; intros st; simpl.
  - by apply elem_of_nil in Hin.
  - destruct (body st a) as [st1|e] eqn:Hbody; simpl; [|by eauto].
    apply elem_of_cons in Hin as [->|Hin]; [|by apply IH].
    destruct (Hx st) as [e He]. congruence.
Qed.

Section Keys.
Context `{RT : Runtime}.
Implicit Types (g t : Game Move) (st : State) (key : Key).

Lemma process_game_store st g key t :
  is_good_game g = Ok true → game_key g = Ok key → key ∉ seen st →
  trim_game g = Ok t →
  process_game st g
  = Ok {| games_by_fen := append_game (games_by_fen st) key.1 t;
          seen := {[key]} ∪ seen st |}.
Proof.
  intros Hgood Hkey Hout Htrim. unfold process_game.
  rewrite Hgood. simpl. rewrite Hkey. simpl.
  rewrite bool_decide_eq_false_2 by done. by rewrite Htrim.
Qed.

Lemma eligible_has_fen g : is_good_game g = Ok true → ∃ fen, game_fen g = Ok fen.
Proof.
  intros (_ & (_ & fen & Hfen & _) & _)%is_good_game_true.
  unfold headers_get in Hfen. unfold game_fen.
  destruct (headers_getitem (headers g) "FEN") as [v|]; [by eauto|done].
Qed.

Lemma legal_line_take (board : Board) (line : list Move) (n : nat) :
  legal_line board line = true → legal_line board (take n line) = true.
Proof.
  revert board n. induction line as [|mv rest IH]; intros board [|n]; simpl;
    try done.
  intros [-> Hrest]%andb_true_iff. simpl. by apply IH.
Qed.

(** C2: the key of a game is its FEN header with the notation of its whole
    main line.  python-chess writing the different legal moves of a position
    differently and without spaces, two eligible games with the same first
    24 plies and different whole lines have different keys: neither is taken
    for the other, both are stored, one after the other, and what is stored
    for them has the same moves (and is the same game when their headers
    agree).  Games with the same FEN header are taken to be set up on the
    same board, as eligible games are ([Variant] being Chess960 for both). *)
Theorem dedup_on_full_line st (g1 g2 t1 t2 : Game Move) (k1 k2 : Key)
    (start : Board) :
  headers_board (headers g1) = Ok start →
  unambiguous_notation start → notation_without_spaces start →
  is_good_game g1 = Ok true → is_good_game g2 = Ok true →
  game_key g1 = Ok k1 → game_key g2 = Ok k2 →
  trim_game g1 = Ok t1 → trim_game g2 = Ok t2 →
  (game_fen g1 = game_fen g2 →
   headers_board (headers g1) = headers_board (headers g2)) →
  take MAX_PLIES (mainline_moves g1) = take MAX_PLIES (mainline_moves g2) →
  mainline_moves g1 ≠ mainline_moves g2 →
  k1 ∉ seen st → k2 ∉ seen st →
  (∃ board san, game_fen g1 = Ok k1.1
                ∧ headers_board (headers g1) = Ok board
                ∧ variation_san board (mainline_moves g1) = Ok san
                ∧ k1.2 = san)
  ∧ k1 ≠ k2
  ∧ for_each process_game [g1; g2] st
    = Ok {| games_by_fen :=
              append_game (append_game (games_by_fen st) k1.1 t1) k2.1 t2;
            seen := {[k2]} ∪ ({[k1]} ∪ seen st) |}
  ∧ variations t1 = variations t2
  ∧ (headers g1 = headers g2 → t1 = t2).
Proof.
  intros Hstart Hone Hnone Hgood1 Hgood2 Hk1 Hk2 Ht1 Ht2 Hboards Hsame Hdiverge
         Hout1 Hout2.
  assert (Hne : k1 ≠ k2).
  { intros <-.
    pose proof Hk1 as (b1 & san1 & Hfen1 & Hb1 & Hsan1 & Hs1)%game_key_Ok.
    pose proof Hk2 as (b2 & san2 & Hfen2 & Hb2 & Hsan2 & Hs2)%game_key_Ok.
    assert (b1 = start) as -> by congruence.
    assert (b2 = start) as ->.
    { assert (Ok b2 = Ok start) as [=]; [|done].
      rewrite <- Hb2, <- Hstart. symmetry. apply Hboards. congruence. }
    apply Hdiverge.
    apply (variation_san_inj start _ _ san1 Hone Hnone); congruence. }
  split; [by apply game_key_Ok|]. split; [done|]. split; [|split].
  - simpl. rewrite (process_game_store st g1 k1 t1) by done. simpl.
    rewrite (process_game_store _ g2 k2 t2); [done..| |done].
    simpl. rewrite elem_of_union, elem_of_singleton. by intros [?|?].
  - apply trim_game_Ok in Ht1 as (? & ? & ? & _ & _ & _ & h1 & _ & ->).
    apply trim_game_Ok in Ht2 as (? & ? & ? & _ & _ & _ & h2 & _ & ->).
    simpl. by rewrite Hsame.
  - intros Hh.
    apply trim_game_Ok in Ht1 as (? & ? & kvs1 & _ & _ & Hkvs1 & h1 & Hh1 & ->).
    apply trim_game_Ok in Ht2 as (? & ? & kvs2 & _ & _ & Hkvs2 & h2 & Hh2 & ->).
    rewrite Hh, Hkvs2 in Hkvs1. injection Hkvs1 as <-.
    rewrite Hh2 in Hh1. injection Hh1 as <-. by rewrite Hsame.
Qed.

(** C8, as the code has it: [trim_game] applies no move to a position, so
    no move can fail in it: for an accepted game it returns the first 24
    recorded moves whether they are legal or not.  The driver meets an
    inconsistent FEN and move list earlier: keying an eligible game whose
    line is illegal from the declared position raises [ValueError], and so
    every eligible game that the driver gets past has a legal line, and a
    legal trimmed line. *)
Theorem trim_game_applies_no_move g :
  (parsed_headers (headers g) →
   ∀ fen board, game_fen g = Ok fen → chess_Board fen = Ok board →
     trim_game g
     = Ok (mkGame (headers g) (line_of (take MAX_PLIES (mainline_moves g)))))
  ∧ (is_good_game g = Ok true →
     ∀ board, headers_board (headers g) = Ok board →
       (legal_line board (mainline_moves g) = false →
        ∀ st, process_game st g = Raise ValueError)
       ∧ ∀ st st', process_game st g = Ok st' →
           legal_line board (mainline_moves g) = true
           ∧ legal_line board (take MAX_PLIES (mainline_moves g)) = true).
Proof.
  split.
  - intros Hp fen board Hfen Hboard. by eapply trim_game_returns.
  - intros Hgood board Hboard. split.
    + intros Hill st. destruct (eligible_has_fen g Hgood) as [fen Hfen].
      unfold process_game. rewrite Hgood. simpl.
      by rewrite (game_key_illegal g fen board).
    + intros st st' Hstep.
      assert (legal_line board (mainline_moves g) = true) as Hlegal.
      { destruct (process_game_cases st g)
          as [[? _]|[(_ & e & _ & Hp)|[(_ & key & Hkey & _)|(_ & key & Hkey & _)]]];
          [congruence|congruence|by eapply game_key_legal..]. }
      split; [done|]. by apply legal_line_take.
Qed.

(** The loop over the accounts is the loop over the games of the stream. *)
Lemma run_as_stream (export_games : string → result string)
    (bots : list string) st :
  for_each (process_bot export_games) bots st
  = for_each process_game (stream_of bots export_games) st.
Proof.
  revert st. induction bots as [|bot bots IH]; intros st; [done|].
  assert (Hbot : process_bot export_games st bot
                 = for_each process_game
                     match export_games bot with
                     | Ok pgn_text => parse_pgn_stream pgn_text
                     | Raise _ => []
                     end st).
  { unfold process_bot. by destruct (export_games bot). }
  unfold stream_of. cbn [flat_map]. fold (stream_of bots export_games).
  rewrite for_each_app, <- Hbot. cbn [for_each].
  destruct (process_bot export_games st bot); simpl; [apply IH|done].
Qed.

(** A loop raises exactly when its body raises at some item, all items
    before having gone through. *)
Lemma for_each_Raise {S X : Type} (body : S → X → result S) (xs : list X)
    (a : S) (e : exn) :
  for_each body xs a = Raise e ↔
  ∃ pre x post b, xs = pre ++ x :: post
                  ∧ for_each body pre a = Ok b ∧ body b x = Raise e.
Proof.
  split.
  - revert a. induction xs as [|x xs IH]; intros a; simpl; [done|].
    destruct (body a x) as [a1|e1] eqn:Hbody; simpl.
    + intros (pre & y & post & b & -> & Hpre & Hy)%IH.
      exists (x :: pre), y, post, b. split_and!; [done| |done].
      simpl. by rewrite Hbody.
    + intros [= ->]. by exists [], x, xs, a.
  - intros (pre & x & post & b & -> & Hpre & Hx).
    rewrite for_each_app, Hpre. simpl. by rewrite Hx.
Qed.

(** C10: only a failed download is caught, and the run goes on to the next
    account.  In the loop body nothing is caught: an exception of keying
    (a position that cannot be set up, an illegal move) or of trimming is
    the exception of the body, and an exception of the body at any game
    that the run reaches is the exception of the run; the run raises in no
    other way.  In particular an eligible game with a move that is illegal
    from its declared position raises [ValueError] whatever the state,
    before the key is looked up and before trimming, and a run that reads
    such a game ends with an exception. *)
Theorem illegal_move_aborts_run (export_games : string → result string)
    (bots : list string) :
  (∀ st bot e, export_games bot = Raise e →
     process_bot export_games st bot = Ok st)
  ∧ (∀ g e, is_good_game g = Ok true →
       (game_key g = Raise e → ∀ st, process_game st g = Raise e)
       ∧ (∀ st key, game_key g = Ok key → key ∉ seen st →
            trim_game g = Raise e → process_game st g = Raise e))
  ∧ (∀ g board, is_good_game g = Ok true →
       headers_board (headers g) = Ok board →
       legal_line board (mainline_moves g) = false →
       (∀ st, process_game st g = Raise ValueError)
       ∧ (g ∈ stream_of bots export_games →
          ∃ e, main_on bots export_games = Raise e))
  ∧ (∀ e, main_on bots export_games = Raise e ↔
       ∃ pre g post st,
         stream_of bots export_games = pre ++ g :: post
         ∧ for_each process_game pre initial_state = Ok st
         ∧ process_game st g = Raise e).
Proof.
  assert (Hrun : ∀ e, main_on bots export_games = Raise e ↔
       ∃ pre g post st,
         stream_of bots export_games = pre ++ g :: post
         ∧ for_each process_game pre initial_state = Ok st
         ∧ process_game st g = Raise e).
  { intros e. rewrite <- for_each_Raise, <- run_as_stream. unfold main_on.
    destruct (for_each (process_bot export_games) bots initial_state); simpl;
      split; congruence. }
  split_and!; [| | |exact Hrun].
  - intros st bot e He. unfold process_bot. by rewrite He.
  - intros g e Hgood. split.
    + intros Hkey st. unfold process_game. rewrite Hgood. simpl.
      by rewrite Hkey.
    + intros st key Hkey Hout Htrim. unfold process_game. rewrite Hgood. simpl.
      rewrite Hkey. simpl. rewrite bool_decide_eq_false_2 by done.
      by rewrite Htrim.
  - intros g board Hgood Hboard Hill.
    assert (Hraise : ∀ st, process_game st g = Raise ValueError).
    { intros st. destruct (eligible_has_fen g Hgood) as [fen Hfen].
      unfold process_game. rewrite Hgood. simpl.
      by rewrite (game_key_illegal g fen board). }
    split; [done|]. intros Hg. unfold main_on. rewrite run_as_stream.
    destruct (for_each_raises process_game _ g Hg) with (st := initial_state)
      as [e ->]; [|by eauto].
    intros st. exists ValueError. apply Hraise.
Qed.

End Keys.

(** [main] is the run over the roster [BOTS]. *)
Lemma main_roster `{RT : Runtime} (export_games : string → result string) :
  main export_games = main_on BOTS export_games.
Proof. reflexivity. Qed.

Lemma main_demo : @main_on demo_runtime BOTS demo_export = Ok demo_final.
Proof. vm_compute. reflexivity. Qed.

(** C9 on the example run: six games read from the first account, the
    second account failing; three games are kept. *)
Lemma main_on_final_order_demo :
  @main_on demo_runtime BOTS demo_export = Ok demo_final
  ∧ ∃ stored,
      Forall2 (@stored_as demo_runtime)
              (@admitted demo_runtime (@stream_of demo_runtime BOTS demo_export))
              stored
      ∧ demo_final
        = concat (map (λ f, @games_of demo_runtime f stored)
                      (filter (λ f, (MIN_FEN_GAMES
                                     ≤ length (@games_of demo_runtime f stored))%nat)
                              (first_seen (map fst stored)))).
Proof.
  split; [exact main_demo|].
  exact (proj1 (@main_on_final_order demo_runtime demo_export BOTS)
               demo_final main_demo).
Defined.

(** C1 on the example run: the single admitted game of [FEN_2] is left
    out. *)
Lemma final_dataset_min_support_demo :
  @main_on demo_runtime BOTS demo_export = Ok demo_final
  ∧ ((∃ t, t ∈ demo_final ∧ @game_fen demo_runtime t = Ok FEN_2)
     ↔ (MIN_FEN_GAMES
        ≤ length (filter (λ g, @game_fen demo_runtime g = Ok FEN_2)
                         (@admitted demo_runtime
                            (@stream_of demo_runtime BOTS demo_export))))%nat).
Proof.
  split; [exact main_demo|].
  exact (proj2 (@final_dataset_min_support demo_runtime demo_export BOTS
                  demo_final main_demo FEN_2)).
Defined.

(** C3 on the example run, where [game_long_a] is read twice. *)
Lemma dedup_keeps_first_demo :
  @main_on demo_runtime BOTS demo_export = Ok demo_final
  ∧ ∃ kept,
      Forall2 (λ g t, @trim_game demo_runtime g = Ok t) kept demo_final
      ∧ NoDup (map (@game_key demo_runtime) kept)
      ∧ ∀ g, g ∈ kept →
          ∃ pre post,
            @stream_of demo_runtime BOTS demo_export = pre ++ g :: post
            ∧ @is_good_game demo_runtime g = Ok true
            ∧ ∀ h, h ∈ pre → @is_good_game demo_runtime h = Ok true →
                   @game_key demo_runtime h ≠ @game_key demo_runtime g.
Proof.
  split; [exact main_demo|].
  exact (proj2 (@dedup_keeps_first demo_runtime demo_export BOTS)
               demo_final main_demo).
Defined.

Lemma demo_unambiguous_notation (start : DemoBoard) :
  @unambiguous_notation demo_runtime start.
Proof. intros board m1 m2 _ _ _ H. exact H. Qed.

Lemma demo_notation_without_spaces (start : DemoBoard) :
  @notation_without_spaces demo_runtime start.
Proof. intros board move _ [_ H]%andb_true_iff. exact H. Qed.

(** C2 on the two long games, which share their first 24 plies and go on
    differently. *)
Lemma dedup_on_full_line_demo :
  take 24 (mainline_moves game_long_a) = take 24 (mainline_moves game_long_b)
  ∧ mainline_moves game_long_a ≠ mainline_moves game_long_b
  ∧ @game_key demo_runtime game_long_a = Ok key_long_a
  ∧ @game_key demo_runtime game_long_b = Ok key_long_b
  ∧ key_long_a ≠ key_long_b
  ∧ @for_each _ _ (@process_game demo_runtime) [game_long_a; game_long_b]
                  (@initial_state demo_runtime)
    = Ok {| games_by_fen := [(FEN_1, [game_opening; game_opening])];
            seen := {[key_long_b]} ∪ ({[key_long_a]} ∪ ∅) |}.
Proof.
  assert (Hdiverge : mainline_moves game_long_a ≠ mainline_moves game_long_b)
    by by vm_compute.
  split; [reflexivity|]. split; [exact Hdiverge|].
  split; [reflexivity|]. split; [reflexivity|].
  refine ((λ H, conj (proj1 (proj2 H)) (proj1 (proj2 (proj2 H))))
            (@dedup_on_full_line demo_runtime (@initial_state demo_runtime)
               game_long_a game_long_b game_opening game_opening
               key_long_a key_long_b (mkDemoBoard FEN_1 []) eq_refl
               (demo_unambiguous_notation _) (demo_notation_without_spaces _)
               _ _ _ _ _ _ (λ _, eq_refl) _ Hdiverge _ _));
    try (vm_compute; reflexivity); apply not_elem_of_empty.
Defined.

(** C8 as the specification states it fails: the null move of
    [game_null_move] is illegal from the declared position, and the trimmer
    returns a game that still holds it. *)
Lemma trim_game_keeps_illegal_move :
  @is_good_game demo_runtime game_null_move = Ok true
  ∧ (∃ board, @headers_board demo_runtime (headers game_null_move) = Ok board
              ∧ @legal_line demo_runtime board (mainline_moves game_null_move)
                = false)
  ∧ @trim_game demo_runtime game_null_move = Ok game_null_move
  ∧ mainline_moves game_null_move = ["e2e4"; "0000"; "d2d4"].
Proof.
  split; [reflexivity|]. split; [|split; reflexivity].
  exists (mkDemoBoard FEN_1 []). split; reflexivity.
Qed.

(** C8, amended, on the same game: the trimmer returns, the driver raises. *)
Lemma trim_game_applies_no_move_demo :
  @trim_game demo_runtime game_null_move
  = Ok (mkGame (headers game_null_move)
               (line_of (take MAX_PLIES (mainline_moves game_null_move))))
  ∧ @process_game demo_runtime (@initial_state demo_runtime) game_null_move
    = Raise ValueError.
Proof.
  split.
  - apply (proj1 (@trim_game_applies_no_move demo_runtime game_null_move)
                 (read_headers_parsed _) FEN_1 (mkDemoBoard FEN_1 []));
      reflexivity.
  - apply (proj1 (proj2 (@trim_game_applies_no_move demo_runtime game_null_move)
                        eq_refl (mkDemoBoard FEN_1 []) eq_refl) eq_refl).
Defined.

(** C10 on the roster when the third account's text holds the null move:
    the second account's failure is passed over, the null move ends the
    run. *)
Lemma illegal_move_aborts_run_demo :
  @process_bot demo_runtime demo_export_bad (@initial_state demo_runtime)
               "AttackKing_Bot" = Ok (@initial_state demo_runtime)
  ∧ game_null_move ∈ @stream_of demo_runtime BOTS demo_export_bad
  ∧ @main_on demo_runtime BOTS demo_export_bad = Raise ValueError.
Proof.
  pose proof (@illegal_move_aborts_run demo_runtime demo_export_bad BOTS)
    as (Hskip & _ & Hillegal & Hrun).
  assert (Hstream : @stream_of demo_runtime BOTS demo_export_bad
                    = [game_long_a; game_unrated; game_short; game_long_a;
                       game_other_fen; game_long_b; game_short]
                      ++ game_null_move :: [game_other_fen]) by reflexivity.
  split; [by apply (Hskip _ _ OtherError)|]. split.
  - rewrite Hstream. apply elem_of_app. right. apply elem_of_cons. by left.
  - apply Hrun.
    exists [game_long_a; game_unrated; game_short; game_long_a;
            game_other_fen; game_long_b; game_short],
           game_null_move, [game_other_fen], demo_state_run.
    split; [exact Hstream|]. split; [reflexivity|].
    apply (proj1 (Hillegal game_null_move (mkDemoBoard FEN_1 [])
                    eq_refl eq_refl eq_refl)).
Defined.

(** * Further properties of the program *)

(** ** Trimming again *)

Section TrimAgain.
Context `{RT : Runtime}.
Implicit Types (g t : Game Move).

(** Trimming what was trimmed changes nothing. *)
Theorem trim_game_idempotent g t :
  parsed_headers (headers g) → trim_game g = Ok t → trim_game t = Ok t.
Proof.
  intros Hp Ht.
  pose proof Ht as (fen & board & kvs & Hfen & Hboard & _)%trim_game_Ok.
  rewrite (trim_game_returns g fen board Hp Hfen Hboard) in Ht.
  injection Ht as <-.
  rewrite (trim_game_returns _ fen board) by done.
  rewrite mainline_moves_line_of. simpl. rewrite take_ge; [done|].
  rewrite length_take. lia.
Qed.

(** Whatever side lines the original has, the trimmed game is a single
    line: its tree is the line of its own main-line moves. *)
Theorem trim_game_drops_side_lines g t :
  trim_game g = Ok t → variations t = line_of (mainline_moves t).
Proof.
  intros (fen & board & kvs & _ & _ & _ & h & _ & ->)%trim_game_Ok.
  by rewrite mainline_moves_line_of.
Qed.

End TrimAgain.

Lemma trim_game_idempotent_demo :
  @trim_game demo_runtime game_long_a = Ok game_opening
  ∧ @trim_game demo_runtime game_opening = Ok game_opening.
Proof.
  assert (H : @trim_game demo_runtime game_long_a = Ok game_opening)
    by (vm_compute; reflexivity).
  split; [exact H|].
  exact (@trim_game_idempotent demo_runtime game_long_a game_opening
           (read_headers_parsed _) H).
Defined.

Lemma trim_game_drops_side_lines_demo :
  @trim_game demo_runtime game_sidelines = Ok game_short
  ∧ variations game_sidelines ≠ variations game_short
  ∧ variations game_short = line_of (mainline_moves game_short).
Proof.
  assert (H : @trim_game demo_runtime game_sidelines = Ok game_short)
    by (vm_compute; reflexivity).
  split; [exact H|]. split; [by vm_compute|].
  exact (@trim_game_drops_side_lines demo_runtime game_sidelines game_short H).
Defined.

(** ** The loops *)

Lemma for_each_invariant {S X : Type} (P : S → Prop) (body : S → X → result S)
    (xs : list X) (st st' : S) :
  (∀ s x s', P s → body s x = Ok s' → P s') →
  P st → for_each body xs st = Ok st' → P st'.
Proof.
  intros Hbody. revert st. induction xs as [|x xs IH]; intros st HP; simpl.
  - by intros [= <-].
  - destruct (body st x) as [st1|] eqn:Hx; simpl; [|done].
    apply IH. by eapply Hbody.
Qed.

Section Loops.
Context `{RT : Runtime}.
Implicit Types (g t : Game Move) (gs : list (Game Move)) (st : State)
  (export_games : string → result string) (bots : list string).

Lemma process_game_ineligible st g :
  is_good_game g ≠ Ok true → process_game st g = Ok st.
Proof.
  intros Hno.
  destruct (process_game_cases st g)
    as [[_ Hp]|[(Hgood & _)|[(Hgood & _)|(Hgood & _)]]]; done.
Qed.

(** Games that are not eligible leave no trace: the loop over a stream
    does what it does on the eligible games of the stream alone, whether it
    ends or raises. *)
Theorem ineligible_games_leave_no_trace gs st :
  for_each process_game gs st
  = for_each process_game (filter (λ g, is_good_game g = Ok true) gs) st.
Proof.
  revert st. induction gs as [|g gs IH]; intros st; [done|].
  destruct (decide (is_good_game g = Ok true)) as [Hgood|Hno].
  - rewrite filter_cons_True by done. simpl.
    destruct (process_game st g); simpl; [apply IH|done].
  - rewrite filter_cons_False by done. simpl.
    rewrite process_game_ineligible by done. simpl. apply IH.
Qed.

Lemma process_game_seen st g st' :
  process_game st g = Ok st' →
  seen st ⊆ seen st'
  ∧ (is_good_game g = Ok true → ∃ key, game_key g = Ok key ∧ key ∈ seen st').
Proof.
  intros Hstep.
  destruct (process_game_cases st g)
    as [[Hbad Hp]|[(_ & e & _ & Hp)|[(_ & key & Hkey & Hin & Hp)
       |(_ & key & Hkey & _ & Hp)]]]; rewrite Hp in Hstep.
  - injection Hstep as <-. split; [done|congruence].
  - done.
  - injection Hstep as <-. split; [done|]. by exists key.
  - destruct (trim_game g); simpl in Hstep; [|done]. injection Hstep as <-.
    simpl. split; [apply union_subseteq_r|]. exists key. split; [done|].
    apply elem_of_union. left. by apply elem_of_singleton.
Qed.

Lemma process_stream_seen gs st st' :
  for_each process_game gs st = Ok st' →
  seen st ⊆ seen st'
  ∧ ∀ g, g ∈ gs → is_good_game g = Ok true →
         ∃ key, game_key g = Ok key ∧ key ∈ seen st'.
Proof.
  revert st. induction gs as [|g gs IH]; intros st; simpl.
  - intros [= <-]. split; [done|]. intros g Hg. by apply elem_of_nil in Hg.
  - destruct (process_game st g) as [st1|] eqn:Hstep; simpl; [|done].
    intros Hrest. destruct (process_game_seen _ _ _ Hstep) as [Hsub Hkey].
    destruct (IH _ Hrest) as [Hsub' Hkeys]. split; [by etrans|].
    intros g' [->|Hg']%elem_of_cons Hgood; [|by apply Hkeys].
    destruct (Hkey Hgood) as (key & ? & ?). exists key. split; [done|].
    by apply Hsub'.
Qed.

Lemma process_bot_seen export_games st bot st' :
  process_bot export_games st bot = Ok st' →
  seen st ⊆ seen st'
  ∧ ∀ pgn_text g, export_games bot = Ok pgn_text →
      g ∈ parse_pgn_stream pgn_text → is_good_game g = Ok true →
      ∃ key, game_key g = Ok key ∧ key ∈ seen st'.
Proof.
  unfold process_bot. destruct (export_games bot) as [pgn_text|].
  - intros [Hsub Hkeys]%process_stream_seen. split; [done|].
    intros ? g [= <-]. apply Hkeys.
  - intros [= <-]. split; [done|]. intros ? ? [=].
Qed.

Lemma process_bots_seen export_games bots st st' :
  for_each (process_bot export_games) bots st = Ok st' →
  seen st ⊆ seen st'
  ∧ ∀ bot pgn_text g, bot ∈ bots → export_games bot = Ok pgn_text →
      g ∈ parse_pgn_stream pgn_text → is_good_game g = Ok true →
      ∃ key, game_key g = Ok key ∧ key ∈ seen st'.
Proof.
  revert st. induction bots as [|b bots IH]; intros st; simpl.
  - intros [= <-]. split; [done|]. intros ? ? ? Hb. by apply elem_of_nil in Hb.
  - destruct (process_bot export_games st b) as [st1|] eqn:Hb; simpl; [|done].
    intros Hrest. destruct (process_bot_seen _ _ _ _ Hb) as [Hsub Hkey].
    destruct (IH _ Hrest) as [Hsub' Hkeys]. split; [by etrans|].
    intros bot pgn_text g [->|Hbot]%elem_of_cons Htext Hg Hgood.
    + destruct (Hkey _ _ Htext Hg Hgood) as (key & ? & ?). exists key.
      split; [done|]. by apply Hsub'.
    + by eapply Hkeys.
Qed.

Lemma process_stream_noop gs st :
  (∀ g, g ∈ gs → is_good_game g = Ok true →
        ∃ key, game_key g = Ok key ∧ key ∈ seen st) →
  for_each process_game gs st = Ok st.
Proof.
  induction gs as [|g gs IH]; intros Hseen; simpl; [done|].
  assert (process_game st g = Ok st) as ->.
  { destruct (decide (is_good_game g = Ok true)) as [Hgood|Hno];
      [|by apply process_game_ineligible].
    destruct (Hseen g) as (key & Hkey & Hin); [apply elem_of_cons; by left|done|].
    unfold process_game. rewrite Hgood. simpl. rewrite Hkey. simpl.
    by rewrite bool_decide_eq_true_2. }
  simpl. apply IH. intros g' Hg'. apply Hseen, elem_of_cons. by right.
Qed.

(** Reading a stream a second time stores nothing and changes nothing. *)
Theorem process_stream_twice gs st st' :
  for_each process_game gs st = Ok st' →
  for_each process_game (gs ++ gs) st = Ok st'.
Proof.
  intros Hrun. rewrite for_each_app, Hrun. simpl.
  apply process_stream_noop. by apply process_stream_seen in Hrun as [_ ?].
Qed.

Lemma main_on_skip export_games (before after : list string) (bot : string) :
  (∀ st, for_each (process_bot export_games) before initial_state = Ok st →
         process_bot export_games st bot = Ok st) →
  main_on (before ++ bot :: after) export_games
  = main_on (before ++ after) export_games.
Proof.
  intros Hskip. unfold main_on. rewrite !for_each_app.
  destruct (for_each (process_bot export_games) before initial_state) as [st|];
    simpl; [|done].
  by rewrite (Hskip st eq_refl).
Qed.

(** An account that is on the roster a second time, or under a second
    name for which the server sends the same text, adds nothing: the run is
    the run without the later entry. *)
Theorem repeated_account_adds_nothing export_games
    (before after : list string) (bot bot' : string) :
  bot ∈ before → export_games bot' = export_games bot →
  main_on (before ++ bot' :: after) export_games
  = main_on (before ++ after) export_games.
Proof.
  intros Hbot Hsame. apply main_on_skip. intros st Hrun.
  unfold process_bot. rewrite Hsame.
  destruct (export_games bot) as [pgn_text|] eqn:Htext; [|done].
  apply process_stream_noop. intros g Hg Hgood.
  apply process_bots_seen in Hrun as [_ Hkeys]. by eapply Hkeys.
Qed.

(** An account whose download fails, or whose text holds no game, is as
    if it were not on the roster. *)
Theorem failed_account_is_skipped export_games
    (before after : list string) (bot : string) :
  (∃ e, export_games bot = Raise e)
  ∨ (∃ pgn_text, export_games bot = Ok pgn_text
                 ∧ parse_pgn_stream pgn_text = []) →
  main_on (before ++ bot :: after) export_games
  = main_on (before ++ after) export_games.
Proof.
  intros Hfail. apply main_on_skip. intros st _. unfold process_bot.
  destruct Hfail as [[e ->]|(pgn_text & -> & ->)]; done.
Qed.

(** When no download succeeds the run still ends, with no game. *)
Theorem no_download_no_games export_games bots :
  (∀ bot, bot ∈ bots → ∃ e, export_games bot = Raise e) →
  main_on bots export_games = Ok [].
Proof.
  intros Hdown. unfold main_on.
  assert (for_each (process_bot export_games) bots initial_state
          = Ok initial_state) as ->; [|done].
  generalize initial_state.
  induction bots as [|bot bots IH]; intros st; simpl; [done|].
  assert (process_bot export_games st bot = Ok st) as ->.
  { unfold process_bot.
    by destruct (Hdown bot) as [e ->]; [apply elem_of_cons; by left|]. }
  simpl. apply IH. intros b Hb. apply Hdown, elem_of_cons. by right.
Qed.

End Loops.

(** ** What a run leaves *)

Section Output.
Context `{RT : Runtime}.
Implicit Types (g t : Game Move) (st : State)
  (export_games : string → result string) (bots : list string)
  (d : Py.dict (list (Game Move))).

Lemma is_good_game_headers g1 g2 :
  headers g1 = headers g2 → is_good_game g1 = is_good_game g2.
Proof. unfold is_good_game. by intros ->. Qed.

Lemma elem_of_stream_of export_games bots g :
  g ∈ stream_of bots export_games →
  ∃ bot pgn_text, bot ∈ bots ∧ export_games bot = Ok pgn_text
                  ∧ g ∈ parse_pgn_stream pgn_text.
Proof.
  unfold stream_of. intros (bot & Hbot & Hg)%list_elem_of_In%in_flat_map.
  apply list_elem_of_In in Hbot.
  destruct (export_games bot) as [pgn_text|] eqn:Htext; [|done].
  exists bot, pgn_text. split_and!; [done..|]. by apply list_elem_of_In.
Qed.

Lemma main_on_keys export_games bots (final : list (Game Move)) g :
  main_on bots export_games = Ok final →
  g ∈ stream_of bots export_games → is_good_game g = Ok true →
  ∃ key, game_key g = Ok key.
Proof.
  unfold main_on.
  destruct (for_each (process_bot export_games) bots initial_state) as [st|] eqn:Hrun;
    simpl; [|done].
  intros _ (bot & pgn_text & Hbot & Htext & Hg)%elem_of_stream_of Hgood.
  apply process_bots_seen in Hrun as [_ Hkeys].
  destruct (Hkeys bot pgn_text g) as (key & ? & _); by eauto.
Qed.

(** What a run returns is fit to be read again: each game of the
    FinalDataset, for a stream of games with headers as the reader builds
    them, is itself eligible, has at most 24 plies, and its line is legal
    from the position its headers declare. *)
Theorem final_games_are_eligible_and_legal export_games bots
    (final : list (Game Move)) :
  main_on bots export_games = Ok final →
  (∀ g, g ∈ stream_of bots export_games → parsed_headers (headers g)) →
  Forall (λ t, is_good_game t = Ok true
               ∧ (length (mainline_moves t) ≤ MAX_PLIES)%nat
               ∧ ∃ board, headers_board (headers t) = Ok board
                          ∧ legal_line board (mainline_moves t) = true)
         final.
Proof.
  intros Hmain Hparsed.
  destruct (main_on_kept _ _ _ Hmain) as (kept & Htrim & _ & Hadm).
  apply Forall_forall. intros t [i Hi]%list_elem_of_lookup.
  destruct (Forall2_lookup_r _ _ _ _ _ Htrim Hi) as (g & Hg & Ht).
  apply list_elem_of_lookup_2 in Hg.
  destruct (admitted_in_stream _ _ (Hadm g Hg)) as [Hstream Hgood%eligible_true].
  pose proof Ht as (fen & board0 & kvs & Hfen & Hboard0 & _)%trim_game_Ok.
  rewrite (trim_game_returns g fen board0 (Hparsed g Hstream) Hfen Hboard0) in Ht.
  injection Ht as <-.
  destruct (main_on_keys _ _ _ g Hmain Hstream Hgood) as [key Hkey].
  pose proof Hkey as (board & san & _ & Hboard & _)%game_key_Ok.
  rewrite mainline_moves_line_of. split_and!.
  - by rewrite <- Hgood.
  - rewrite length_take. lia.
  - exists board. split; [done|].
    apply legal_line_take. by eapply game_key_legal.
Qed.

Lemma stored_count_append d (f : string) t :
  stored_count (append_game d f t) = S (stored_count d).
Proof.
  unfold append_game, stored_count.
  induction d as [|[k v] d IH]; simpl; [done|].
  destruct (String.eqb_spec k f) as [->|Hne]; simpl.
  - rewrite length_app. simpl. lia.
  - rewrite IH. lia.
Qed.

Lemma append_game_elem d (f : string) t (k : string) (arr : list (Game Move)) :
  (k, arr) ∈ append_game d f t →
  (k = f ∧ ∃ old, arr = old ++ [t] ∧ (old = [] ∨ (f, old) ∈ d))
  ∨ (k, arr) ∈ d.
Proof.
  unfold append_game. intros [[= -> ->]|Hin]%set_elem; [|by right].
  left. split; [done|]. exists (default [] (Py.get d f)). split; [done|].
  destruct (Py.get d f) as [old|] eqn:Hget; simpl; [|by left].
  right. by apply get_Some_elem.
Qed.

(** The two parts of the driver's state agree all along: no FEN has two
    entries in [games_by_fen], no entry is empty, every stored game sits
    under its own FEN, and there are as many stored games as seen keys. *)
Theorem driver_state_invariant export_games bots st :
  for_each (process_bot export_games) bots initial_state = Ok st →
  NoDup (Py.keys (games_by_fen st))
  ∧ Forall (λ fa, fa.2 ≠ [] ∧ Forall (λ t, game_fen t = Ok fa.1) fa.2)
           (games_by_fen st)
  ∧ stored_count (games_by_fen st) = size (seen st).
Proof.
  set (P := λ st : State,
         NoDup (Py.keys (games_by_fen st))
         ∧ Forall (λ fa, fa.2 ≠ [] ∧ Forall (λ t, game_fen t = Ok fa.1) fa.2)
                  (games_by_fen st)
         ∧ stored_count (games_by_fen st) = size (seen st)).
  assert (Hgame : ∀ s g s', P s → process_game s g = Ok s' → P s').
  { intros s g s' (Hnd & Hall & Hcount) Hstep.
    destruct (process_game_cases s g)
      as [[_ Hp]|[(_ & e & _ & Hp)|[(_ & key & _ & _ & Hp)
         |(_ & key & Hkey & Hout & Hp)]]]; rewrite Hp in Hstep;
      [by injection Hstep as <-|done|by injection Hstep as <-|].
    destruct (trim_game g) as [tg|] eqn:Htrim; simpl in Hstep; [|done].
    injection Hstep as <-. split_and!; simpl.
    - by apply set_keys_NoDup.
    - apply Forall_forall. intros [k arr] Hin.
      rewrite Forall_forall in Hall.
      apply append_game_elem in Hin
        as [(-> & old & -> & Hold)|Hin]; [|by apply Hall].
      simpl. split; [by destruct old|].
      apply Forall_app. split.
      + destruct Hold as [->|Hold]; [constructor|]. by apply (Hall _ Hold).
      + constructor; [|constructor].
        apply game_key_Ok in Hkey as (_ & _ & Hfen & _).
        unfold game_fen in *.
        by rewrite (trim_game_keeps_tag g tg "FEN" fen_not_in_roster Htrim).
    - rewrite stored_count_append, Hcount, size_union, size_singleton; [done|].
      by apply disjoint_singleton_l. }
  assert (Hbot : ∀ s bot s', P s → process_bot export_games s bot = Ok s' → P s').
  { intros s bot s' HP. unfold process_bot.
    destruct (export_games bot) as [pgn_text|]; [|by intros [= <-]].
    by apply for_each_invariant. }
  apply (for_each_invariant P); [done|].
  split_and!; [apply NoDup_nil_2|constructor|done].
Qed.

End Output.

(** ** The request *)

Lemma is_whitespace_strip_space (c : ascii) :
  PyStr.is_whitespace c = bool_decide (c ∈ STRIP_SPACE).
Proof. by destruct c as [[] [] [] [] [] [] [] []]. Qed.

Lemma blank_is_whitespace (s : string) :
  blank s = forallb PyStr.is_whitespace (list_ascii_of_string s).
Proof.
  unfold blank. induction s as [|c r IH]; simpl; [done|].
  by rewrite IH, is_whitespace_strip_space.
Qed.

Lemma blank_cons (c : ascii) (s : string) :
  blank (String c s) = PyStr.is_whitespace c && blank s.
Proof. by rewrite !blank_is_whitespace. Qed.

Lemma not_whitespace (c : ascii) :
  PyStr.is_whitespace c = false ↔ c ∉ STRIP_SPACE.
Proof.
  rewrite is_whitespace_strip_space. apply bool_decide_eq_false.
Qed.

Lemma rstrip_empty (s : string) : PyStr.rstrip s = "" ↔ blank s = true.
Proof.
  induction s as [|c r IH]; [done|]. rewrite blank_cons. simpl.
  rewrite andb_true_iff, <- IH.
  destruct (PyStr.rstrip r) as [|c' r'].
  - destruct (PyStr.is_whitespace c); split; try done. by intros [? _].
  - split; [done|]. by intros [_ ?].
Qed.

Lemma blank_lstrip (s : string) : blank (PyStr.lstrip s) = blank s.
Proof.
  induction s as [|c r IH]; [done|]. rewrite blank_cons. simpl.
  destruct (PyStr.is_whitespace c) eqn:Hc; simpl; [done|].
  by rewrite blank_cons, Hc.
Qed.

Lemma strip_empty (s : string) : PyStr.strip s = "" ↔ blank s = true.
Proof. unfold PyStr.strip. by rewrite rstrip_empty, blank_lstrip. Qed.

Lemma lstrip_first (s : string) (c : ascii) :
  first_char (PyStr.lstrip s) = Some c → PyStr.is_whitespace c = false.
Proof.
  induction s as [|c' r IH]; simpl; [done|].
  destruct (PyStr.is_whitespace c') eqn:Hc; [done|]. simpl. congruence.
Qed.

Lemma rstrip_first (s : string) (c : ascii) :
  first_char (PyStr.rstrip s) = Some c → first_char s = Some c.
Proof.
  destruct s as [|c' r]; simpl; [done|].
  destruct (PyStr.rstrip r); [|done]. by destruct (PyStr.is_whitespace c').
Qed.

Lemma rstrip_last (s : string) (c : ascii) :
  last_char (PyStr.rstrip s) = Some c → PyStr.is_whitespace c = false.
Proof.
  induction s as [|c' r IH]; simpl; [done|].
  destruct (PyStr.rstrip r) as [|c1 r1].
  - destruct (PyStr.is_whitespace c') eqn:Hc; simpl; [done|]. congruence.
  - done.
Qed.

Lemma nonempty_chars (s : string) :
  s ≠ "" → (∃ c, first_char s = Some c) ∧ (∃ c, last_char s = Some c).
Proof.
  intros Hs. split; [destruct s; [done|by eauto]|].
  induction s as [|c r IH]; [done|]. simpl.
  destruct r as [|c' r']; [by eauto|]. by apply IH.
Qed.

(** What [lstrip] and [rstrip] take off is white space. *)
Lemma lstrip_split (s : string) :
  ∃ l, s = l +:+ PyStr.lstrip s ∧ blank l = true.
Proof.
  induction s as [|c s (l & Hs & Hl)]; [by exists ""|]. simpl.
  destruct (PyStr.is_whitespace c) eqn:Hc.
  - exists (String c l). split.
    + rewrite string_append_cons. by f_equal.
    + by rewrite blank_cons, Hc.
  - by exists "".
Qed.

Lemma rstrip_split (s : string) :
  ∃ r, s = PyStr.rstrip s +:+ r ∧ blank r = true.
Proof.
  induction s as [|c s (r & Hs & Hr)]; [by exists ""|]. simpl.
  destruct (PyStr.rstrip s) as [|c' s'] eqn:Hstrip.
  - apply rstrip_empty in Hstrip.
    destruct (PyStr.is_whitespace c) eqn:Hc.
    + exists (String c s). split; [done|]. by rewrite blank_cons, Hc.
    + exists s. by split.
  - exists r. split; [|done]. rewrite string_append_cons. by f_equal.
Qed.

Lemma strip_split (s : string) :
  ∃ l r, s = l +:+ PyStr.strip s +:+ r ∧ blank l = true ∧ blank r = true.
Proof.
  destruct (lstrip_split s) as (l & Hl & Hbl).
  destruct (rstrip_split (PyStr.lstrip s)) as (r & Hr & Hbr).
  exists l, r. split; [|done]. unfold PyStr.strip. by rewrite <- Hr.
Qed.

(** The request always asks for PGN, and carries an [Authorization] header
    exactly when [TOKEN] holds something besides white space; what is sent
    is then the token without the white space around it.  The token is
    taken to be ASCII text, for which [PyStr.strip] is what Python does. *)
Theorem authorization_only_with_token (getenv : string → option string) :
  let token := default "" (getenv "TOKEN") in
  is_ascii token = true →
  Py.get (Lichess.headers getenv) "Accept" = Some "application/x-chess-pgn"
  ∧ if blank token
    then Lichess.headers getenv = [("Accept", "application/x-chess-pgn")]
    else ∃ l v r,
           token = l +:+ v +:+ r ∧ blank l = true ∧ blank r = true
           ∧ (∃ c, first_char v = Some c ∧ c ∉ STRIP_SPACE)
           ∧ (∃ c, last_char v = Some c ∧ c ∉ STRIP_SPACE)
           ∧ Lichess.headers getenv
             = [("Accept", "application/x-chess-pgn");
                ("Authorization", "Bearer " +:+ v)].
Proof.
  intros token _. unfold Lichess.headers. fold token.
  destruct (String.eqb_spec (PyStr.strip token) "") as [Hempty|Hfull]; simpl.
  - apply strip_empty in Hempty as ->. done.
  - split; [done|].
    destruct (blank token) eqn:Hblank; [by apply strip_empty in Hblank|].
    destruct (strip_split token) as (l & r & Htoken & Hl & Hr).
    exists l, (PyStr.strip token), r. split_and!; [done..| | |done].
    + destruct (nonempty_chars _ Hfull) as [[c1 Hc1] _].
      exists c1. split; [done|]. apply not_whitespace.
      eapply lstrip_first, rstrip_first, Hc1.
    + destruct (nonempty_chars _ Hfull) as [_ [c2 Hc2]].
      exists c2. split; [done|]. apply not_whitespace. eapply rstrip_last, Hc2.
Qed.

(** The token of the example has two spaces on either side. *)
Lemma authorization_only_with_token_demo :
  Lichess.headers demo_getenv
  = [("Accept", "application/x-chess-pgn"); ("Authorization", "Bearer lip_abc")]
  ∧ Py.get (Lichess.headers demo_getenv) "Accept" = Some "application/x-chess-pgn"
  ∧ ∃ l v r,
      "  lip_abc  " = l +:+ v +:+ r ∧ blank l = true ∧ blank r = true
      ∧ (∃ c, first_char v = Some c ∧ c ∉ STRIP_SPACE)
      ∧ (∃ c, last_char v = Some c ∧ c ∉ STRIP_SPACE)
      ∧ Lichess.headers demo_getenv
        = [("Accept", "application/x-chess-pgn");
           ("Authorization", "Bearer " +:+ v)].
Proof.
  split; [reflexivity|].
  exact (authorization_only_with_token demo_getenv eq_refl).
Defined.

Section Request.
Context `{RT : Runtime}.
Variable getenv : string → option string.
Variable requests_get : string → Py.dict string → Py.dict string → result Response.

Lemma export_games_error (username : string) :
  (∀ r, requests_get (API_BASE +:+ "/api/games/user/" +:+ username +:+ ".pgn")
                     [("max", "5000"); ("perfType", "chess960");
                      ("rated", "true"); ("moves", "true"); ("opening", "true")]
                     (Lichess.headers getenv) = Ok r →
        (400 ≤ status_code r < 600)%Z) →
  ∃ e, Lichess.export_games getenv requests_get username = Raise e.
Proof.
  intros Herr. unfold Lichess.export_games.
  change (pretty MAX_GAMES_PER_BOT) with "5000".
  destruct (requests_get _ _ _) as [r|e] eqn:Hget; simpl; [|by eauto].
  unfold Lichess.raise_for_status.
  destruct (Herr r eq_refl) as [Hlo Hhi].
  apply Z.leb_le in Hlo. apply Z.ltb_lt in Hhi. rewrite Hlo, Hhi. simpl. eauto.
Qed.

(** An account whose request gets no answer, or an answer with a 4xx or
    5xx status, is skipped: the text of such an answer is never read as
    PGN, and the run is the run without that account. *)
Theorem http_error_skips_account (before after : list string) (bot : string) :
  (∀ r, requests_get (API_BASE +:+ "/api/games/user/" +:+ bot +:+ ".pgn")
                     [("max", "5000"); ("perfType", "chess960");
                      ("rated", "true"); ("moves", "true"); ("opening", "true")]
                     (Lichess.headers getenv) = Ok r →
        (400 ≤ status_code r < 600)%Z) →
  main_on (before ++ bot :: after) (Lichess.export_games getenv requests_get)
  = main_on (before ++ after) (Lichess.export_games getenv requests_get).
Proof.
  intros [e He]%export_games_error. apply main_on_skip. intros st _.
  unfold process_bot. by rewrite He.
Qed.

(** Any other status is taken as success, and the body is what is read. *)
Lemma export_games_returns_body (username : string) (r : Response) :
  requests_get (API_BASE +:+ "/api/games/user/" +:+ username +:+ ".pgn")
               [("max", "5000"); ("perfType", "chess960");
                ("rated", "true"); ("moves", "true"); ("opening", "true")]
               (Lichess.headers getenv) = Ok r →
  ¬ (400 ≤ status_code r < 600)%Z →
  Lichess.export_games getenv requests_get username = text r.
Proof.
  intros Hget Hok. unfold Lichess.export_games.
  change (pretty MAX_GAMES_PER_BOT) with "5000". rewrite Hget. simpl.
  unfold Lichess.raise_for_status.
  destruct (400 <=? status_code r)%Z eqn:Hlo; [|done].
  destruct (status_code r <? 600)%Z eqn:Hhi; [|done].
  apply Z.leb_le in Hlo. apply Z.ltb_lt in Hhi. lia.
Qed.

End Request.

(** ** The master file and the book builder *)

Section FilesAndBuilder.
Context `{RT : Runtime}.
Variable str_game : Game Move → string.
Variable open_error : string → option exn.
Variable run_builder : gmap string string → gmap string string * result Z.
Implicit Types (files : gmap string string) (games : list (Game Move))
  (export_games : string → result string).

(** The text that the writes add up to: each game, then a blank line. *)
Lemma written_text games (written : string) :
  fold_left (λ content g, content +:+ str_game g +:+ BLANK_LINE) games written
  = written +:+ foldr (λ g rest, str_game g +:+ BLANK_LINE +:+ rest) "" games.
Proof.
  revert written. induction games as [|g games IH]; intros written; simpl.
  - by rewrite string_append_nil_r.
  - by rewrite IH, !string_append_assoc.
Qed.

Lemma written_from_empty games :
  fold_left (λ content g, content +:+ str_game g +:+ BLANK_LINE) games ""
  = foldr (λ g rest, str_game g +:+ BLANK_LINE +:+ rest) "" games.
Proof. exact (written_text games ""). Qed.

(** Writing replaces what the file held by the games' texts, each followed
    by a blank line, and touches no other file; when the file cannot be
    opened nothing is changed and the exception is passed on. *)
Theorem write_pgn_overwrites games (path : string) files :
  match open_error path with
  | Some e => write_pgn str_game open_error games path files = (files, Raise e)
  | None =>
      ∃ files',
        write_pgn str_game open_error games path files = (files', Ok tt)
        ∧ files' !! path
          = Some (foldr (λ g rest, str_game g +:+ BLANK_LINE +:+ rest) "" games)
        ∧ ∀ other, other ≠ path → files' !! other = files !! other
  end.
Proof.
  unfold write_pgn. destruct (open_error path) as [e|]; [done|].
  eexists. split; [done|]. split.
  - rewrite lookup_insert_eq. f_equal. apply written_from_empty.
  - intros other Hne. by rewrite lookup_insert_ne.
Qed.

Lemma illegal_move_raises export_games (bot pgn_text : string)
    (g : Game Move) (board : Board) :
  bot ∈ BOTS → export_games bot = Ok pgn_text →
  g ∈ parse_pgn_stream pgn_text →
  is_good_game g = Ok true →
  headers_board (headers g) = Ok board →
  legal_line board (mainline_moves g) = false →
  ∃ e, main export_games = Raise e.
Proof.
  intros Hbot Hexport Hg Hgood Hboard Hill. unfold main, main_on.
  destruct (for_each_raises (process_bot export_games) BOTS bot Hbot)
    with (st := initial_state) as [e ->]; [|by eauto].
  intros st. unfold process_bot. rewrite Hexport.
  apply (for_each_raises process_game _ g Hg). intros st1.
  exists ValueError. destruct (eligible_has_fen g Hgood) as [fen Hfen].
  unfold process_game. rewrite Hgood. simpl.
  by rewrite (game_key_illegal g fen board).
Qed.

(** A run that stops on an illegal move, or that cannot open the master
    file, leaves every file as it was: nothing is written and the book
    builder, whatever it would do, has no effect. *)
Theorem aborted_run_touches_no_file export_games files :
  (∃ bot pgn_text g board,
     bot ∈ BOTS ∧ export_games bot = Ok pgn_text
     ∧ g ∈ parse_pgn_stream pgn_text ∧ is_good_game g = Ok true
     ∧ headers_board (headers g) = Ok board
     ∧ legal_line board (mainline_moves g) = false)
  ∨ (∃ e, open_error MASTER_PGN = Some e) →
  ∃ e, main_effects str_game open_error run_builder export_games files
       = (files, Raise e).
Proof.
  unfold main_effects, write_pgn.
  intros [(bot & pgn_text & g & board & ? & ? & ? & ? & ? & ?)|[e Hopen]].
  - destruct (illegal_move_raises export_games bot pgn_text g board)
      as [e ->]; by eauto.
  - destruct (main export_games) as [final|e']; [|by eauto].
    rewrite Hopen. eauto.
Qed.

(** After a run that kept [final], the builder is started on files in
    which the master file holds the text of [final] and nothing else has
    changed; the run succeeds when the builder returns 0 and raises
    otherwise, and in both cases the files are what the builder left. *)
Theorem builder_sees_master_file export_games files
    (final : list (Game Move)) (files2 : gmap string string) (r : result Z) :
  main export_games = Ok final →
  open_error MASTER_PGN = None →
  run_builder
    (<[MASTER_PGN := foldr (λ g rest, str_game g +:+ BLANK_LINE +:+ rest) "" final]>
       files)
  = (files2, r) →
  main_effects str_game open_error run_builder export_games files
  = (files2, match r with
             | Ok returncode =>
                 if (returncode =? 0)%Z then Ok tt else Raise OtherError
             | Raise e => Raise e
             end).
Proof.
  intros Hmain Hopen Hrun. unfold main_effects, write_pgn.
  rewrite Hmain, Hopen, written_from_empty. simpl. rewrite Hrun.
  destruct r as [returncode|e]; [|done].
  by destruct (returncode =? 0)%Z.
Qed.

(** With no download at all the run does not stop: it writes an empty
    master file and starts the builder on it. *)
Theorem no_download_empty_master_file export_games files
    (files2 : gmap string string) (r : result Z) :
  (∀ bot, bot ∈ BOTS → ∃ e, export_games bot = Raise e) →
  open_error MASTER_PGN = None →
  run_builder (<[MASTER_PGN := ""]> files) = (files2, r) →
  main_effects str_game open_error run_builder export_games files
  = (files2, match r with
             | Ok returncode =>
                 if (returncode =? 0)%Z then Ok tt else Raise OtherError
             | Raise e => Raise e
             end).
Proof.
  intros Hdown Hopen Hrun. unfold main_effects, write_pgn, main.
  rewrite (no_download_no_games export_games BOTS Hdown), Hopen. simpl.
  rewrite Hrun. destruct r as [returncode|e]; [|done].
  by destruct (returncode =? 0)%Z.
Qed.

End FilesAndBuilder.

(** ** A longer roster *)

Section LongerRoster.
Context `{RT : Runtime}.
Implicit Types (g t : Game Move) (gs : list (Game Move))
  (stored : list (string * Game Move))
  (export_games : string → result string) (bots : list string).

Lemma admitted_after_app (earlier gs1 gs2 : list (Game Move)) :
  admitted_after earlier (gs1 ++ gs2)
  = admitted_after earlier gs1 ++ admitted_after (earlier ++ gs1) gs2.
Proof.
  revert earlier. induction gs1 as [|g gs1 IH]; intros earlier; simpl.
  - by rewrite app_nil_r.
  - rewrite IH, <- !app_assoc. done.
Qed.

Lemma stored_as_functional (adm : list (Game Move)) stored stored' :
  Forall2 stored_as adm stored → Forall2 stored_as adm stored' →
  stored = stored'.
Proof.
  intros H. revert stored'.
  induction H as [|g [f t] adm stored [Hf Ht] _ IH]; intros stored' H';
    inversion H' as [|? [f' t'] ? ? [Hf' Ht'] Hrest]; subst; [done|].
  simpl in *. f_equal; [|by apply IH]. congruence.
Qed.

Lemma elem_of_final_dataset stored t :
  t ∈ final_dataset stored ↔
  ∃ f, t ∈ games_of f stored
       ∧ (MIN_FEN_GAMES ≤ length (games_of f stored))%nat.
Proof.
  unfold final_dataset. rewrite list_elem_of_In, in_concat. split.
  - intros (l & (f & <- & Hf)%in_map_iff & Ht).
    apply list_elem_of_In, list_elem_of_filter in Hf as [Hbig _].
    exists f. split; [by apply list_elem_of_In|done].
  - intros (f & Ht & Hbig). exists (games_of f stored). split.
    + apply in_map_iff. exists f. split; [done|].
      apply list_elem_of_In, list_elem_of_filter. split; [done|].
      apply elem_of_first_seen.
      destruct (decide (f ∈ map fst stored)) as [|Hout]; [done|].
      rewrite (games_of_fresh stored f Hout) in Ht. by apply elem_of_nil in Ht.
    + by apply list_elem_of_In.
Qed.

Lemma games_of_app stored stored' (f : string) :
  games_of f (stored ++ stored') = games_of f stored ++ games_of f stored'.
Proof. unfold games_of. by rewrite filter_app, map_app. Qed.

(** Accounts added at the end of the roster take nothing away: every game
    of the FinalDataset of the shorter roster is in that of the longer
    one. *)
Theorem longer_roster_keeps_games export_games bots (more : list string)
    (final final' : list (Game Move)) :
  main_on bots export_games = Ok final →
  main_on (bots ++ more) export_games = Ok final' →
  ∀ t, t ∈ final → t ∈ final'.
Proof.
  intros (stored & Hstored & ->)%main_on_final_dataset
         (stored' & Hstored' & ->)%main_on_final_dataset t.
  unfold stream_of in Hstored'. rewrite flat_map_app in Hstored'.
  fold (stream_of bots export_games) in Hstored'.
  unfold admitted in Hstored'. rewrite admitted_after_app in Hstored'.
  apply Forall2_app_inv_l in Hstored' as (s1 & s2 & Hs1 & _ & ->).
  rewrite (stored_as_functional _ _ _ Hs1 Hstored).
  rewrite !elem_of_final_dataset. intros (f & Ht & Hbig).
  exists f. rewrite games_of_app, length_app. split; [|lia].
  apply elem_of_app. by left.
Qed.

End LongerRoster.

(** ** The further properties on the examples *)

Lemma demo_run_short :
  @for_each _ _ (@process_game demo_runtime)
            [game_long_a; game_unrated; game_short]
            (@initial_state demo_runtime) = Ok demo_state_short.
Proof. reflexivity. Qed.

Lemma demo_run_all :
  @for_each _ _ (@process_bot demo_runtime demo_export) BOTS
            (@initial_state demo_runtime) = Ok demo_state_run.
Proof. reflexivity. Qed.

Lemma process_stream_twice_demo :
  @for_each _ _ (@process_game demo_runtime)
            [game_long_a; game_unrated; game_short]
            (@initial_state demo_runtime) = Ok demo_state_short
  ∧ @for_each _ _ (@process_game demo_runtime)
              ([game_long_a; game_unrated; game_short]
               ++ [game_long_a; game_unrated; game_short])
              (@initial_state demo_runtime) = Ok demo_state_short.
Proof.
  split; [exact demo_run_short|].
  exact (@process_stream_twice demo_runtime _ _ _ demo_run_short).
Defined.

(** The roster names one account in two spellings, at places 13 and 19. *)
Lemma repeated_account_adds_nothing_demo :
  BOTS = take 18 BOTS ++ "Strain-On-Veins" :: drop 19 BOTS
  ∧ "strain-on-veins" ∈ take 18 BOTS
  ∧ @main_on demo_runtime (take 18 BOTS ++ "Strain-On-Veins" :: drop 19 BOTS)
                          demo_export_twice
    = @main_on demo_runtime (take 18 BOTS ++ drop 19 BOTS) demo_export_twice.
Proof.
  assert (Hin : "strain-on-veins" ∈ take 18 BOTS).
  { apply (list_elem_of_lookup_2 _ 12). reflexivity. }
  split; [reflexivity|]. split; [exact Hin|].
  exact (@repeated_account_adds_nothing demo_runtime demo_export_twice
           (take 18 BOTS) (drop 19 BOTS) "strain-on-veins" "Strain-On-Veins"
           Hin eq_refl).
Defined.

Lemma failed_account_is_skipped_demo :
  demo_export "AttackKing_Bot" = Raise OtherError
  ∧ @main_on demo_runtime (take 1 BOTS ++ "AttackKing_Bot" :: drop 2 BOTS)
                          demo_export
    = @main_on demo_runtime (take 1 BOTS ++ drop 2 BOTS) demo_export.
Proof.
  split; [reflexivity|].
  apply (@failed_account_is_skipped demo_runtime demo_export).
  left. by exists OtherError.
Defined.

Lemma no_download_no_games_demo :
  @main_on demo_runtime BOTS demo_export_down = Ok [].
Proof.
  apply (@no_download_no_games demo_runtime demo_export_down BOTS).
  intros bot _. by exists OtherError.
Defined.

Lemma demo_stream_parsed (g : Game string) :
  g ∈ @stream_of demo_runtime BOTS demo_export →
  @parsed_headers demo_runtime (headers g).
Proof.
  change (g ∈ [game_long_a; game_unrated; game_short; game_long_a;
               game_other_fen; game_long_b]
          → @parsed_headers demo_runtime (headers g)).
  rewrite !elem_of_cons.
  intros [->|[->|[->|[->|[->|[->|H]]]]]];
    try apply read_headers_parsed. by apply elem_of_nil in H.
Qed.

Lemma final_games_are_eligible_and_legal_demo :
  Forall (λ t, @is_good_game demo_runtime t = Ok true
               ∧ (length (mainline_moves t) ≤ MAX_PLIES)%nat
               ∧ ∃ board, @headers_board demo_runtime (headers t) = Ok board
                          ∧ @legal_line demo_runtime board (mainline_moves t)
                            = true)
         demo_final.
Proof.
  exact (@final_games_are_eligible_and_legal demo_runtime demo_export BOTS
           demo_final main_demo demo_stream_parsed).
Defined.

Lemma driver_state_invariant_demo :
  @for_each _ _ (@process_bot demo_runtime demo_export) BOTS
            (@initial_state demo_runtime) = Ok demo_state_run
  ∧ NoDup (Py.keys (games_by_fen demo_state_run))
  ∧ Forall (λ fa, fa.2 ≠ []
                  ∧ Forall (λ t, @game_fen demo_runtime t = Ok fa.1) fa.2)
           (games_by_fen demo_state_run)
  ∧ @stored_count demo_runtime (games_by_fen demo_state_run)
    = size (seen demo_state_run).
Proof.
  split; [exact demo_run_all|].
  exact (@driver_state_invariant demo_runtime demo_export BOTS _ demo_run_all).
Defined.

(** The account at place 10 of the roster is answered with status 503. *)
Lemma http_error_skips_account_demo :
  @main_on demo_runtime (take 9 BOTS ++ "pangubot" :: drop 10 BOTS) demo_download
  = @main_on demo_runtime (take 9 BOTS ++ drop 10 BOTS) demo_download.
Proof.
  apply (@http_error_skips_account demo_runtime demo_getenv demo_requests_get).
  intros r Hr. vm_compute in Hr. injection Hr as <-. simpl. lia.
Defined.

Lemma main_demo_roster : @main demo_runtime demo_export = Ok demo_final.
Proof. rewrite main_roster. exact main_demo. Qed.

Lemma aborted_run_touches_no_file_demo :
  ∃ e, @main_effects demo_runtime demo_str demo_open demo_builder
         demo_export_bad ∅ = (∅, Raise e).
Proof.
  apply (@aborted_run_touches_no_file demo_runtime demo_str demo_open demo_builder).
  left. exists "PositionalAI", "account B", game_null_move, (mkDemoBoard FEN_1 []).
  split_and!; try reflexivity.
  - unfold BOTS. rewrite !elem_of_cons. auto.
  - change (game_null_move ∈ [game_short; game_null_move; game_other_fen]).
    rewrite !elem_of_cons. auto.
Defined.

Lemma builder_sees_master_file_demo :
  (@main_effects demo_runtime demo_str demo_open demo_builder demo_export ∅).2
  = Ok tt
  ∧ (@main_effects demo_runtime demo_str demo_open demo_builder demo_export ∅).1
    !! "book.bin" = Some "258".
Proof.
  pose proof (@builder_sees_master_file demo_runtime demo_str demo_open
                demo_builder demo_export ∅ demo_final _ _ main_demo_roster
                eq_refl (surjective_pairing _)) as ->.
  split; vm_compute; reflexivity.
Defined.

Lemma no_download_empty_master_file_demo :
  (@main_effects demo_runtime demo_str demo_open demo_builder
     demo_export_down ∅).2 = Raise OtherError
  ∧ (@main_effects demo_runtime demo_str demo_open demo_builder
       demo_export_down ∅).1 !! MASTER_PGN = Some "".
Proof.
  assert (Hdown : ∀ bot, bot ∈ BOTS → ∃ e, demo_export_down bot = Raise e)
    by (intros bot _; by exists OtherError).
  pose proof (@no_download_empty_master_file demo_runtime demo_str demo_open
                demo_builder demo_export_down ∅ _ _ Hdown
                eq_refl (surjective_pairing _)) as ->.
  split; vm_compute; reflexivity.
Defined.

(** With the first two accounts the run keeps the three games of [FEN_1];
    the third account brings two more games of [FEN_2], and the run on the
    whole roster keeps those of [FEN_2] besides. *)
Lemma longer_roster_keeps_games_demo :
  @main_on demo_runtime (take 2 BOTS) demo_export_more = Ok demo_final
  ∧ @main_on demo_runtime (take 2 BOTS ++ drop 2 BOTS) demo_export_more
    = Ok demo_final_more
  ∧ demo_final_more = demo_final ++ [game_other_fen; game_other_fen_b;
                                     game_other_fen_c]
  ∧ ∀ t, t ∈ demo_final → t ∈ demo_final_more.
Proof.
  assert (Hshort : @main_on demo_runtime (take 2 BOTS) demo_export_more
                   = Ok demo_final) by (vm_compute; reflexivity).
  assert (Hlong : @main_on demo_runtime (take 2 BOTS ++ drop 2 BOTS)
                    demo_export_more = Ok demo_final_more)
    by (vm_compute; reflexivity).
  split; [exact Hshort|]. split; [exact Hlong|]. split; [reflexivity|].
  exact (@longer_roster_keeps_games demo_runtime demo_export_more (take 2 BOTS)
           (drop 2 BOTS) demo_final demo_final_more Hshort Hlong).
Defined.
